(** * Folder Tree Viewer: the background scanning engine of [tree.py]

    A shallow embedding of the worker threads of [tree.py] (the search
    worker, the folder size worker, the expand-all thread) and of the parts
    of [MainWindow] that consume their results (match navigation and the
    slots of the search signals, the expand-all drain and its button, the
    table of folder sizes) or compute paths (renaming, the name of a pasted
    copy), with the properties of the specification and further properties
    of the code stated and proved over it.

    Conventions of the embedding.
    - A Python [str] is a [string]; its characters are the code points below
      256, on which [str.lower] and [str.strip] are defined as Python defines
      them. [str.lower] on all of Unicode, which is not character-wise, is
      modelled apart, in [PyUnicode], on lists of code points.
    - Paths follow [posixpath]: [os.sep] is ["/"].
    - A [dict] is a [gmap]; a [list] or a [deque] is a [list].
    - A Qt signal emission is an event appended to the trace of the run.
    - The flag [_running] of a worker is cleared by [stop()] from another
      thread and never set again: a run is parameterised by the number of
      reads of the flag that still see [True]. *)

From Stdlib Require Import NArith ZArith Ascii String Sorted.
From stdpp Require Import gmap strings list fin_maps pretty.

(** ** Python [str] methods *)

Module PyStr.

(** [str.lower] on one code point below 256: the letters [A]-[Z] and the
    Latin-1 capitals 192-222 (215, the multiplication sign, excepted) move
    up by 32. On strings of such code points [str.lower] is this map
    character by character; beyond them it is not (see [PyUnicode]). *)
Definition lower_char (c : ascii) : ascii :=
  let n := nat_of_ascii c in
  if ((65 <=? n) && (n <=? 90)) || ((192 <=? n) && (n <=? 222) && negb (n =? 215))
  then ascii_of_nat (n + 32)
  else c.

Fixpoint lower (s : string) : string :=
  match s with
  | EmptyString => EmptyString
  | String c r => String (lower_char c) (lower r)
  end.

(** [s.startswith(p)] *)
Fixpoint startswith (s p : string) {struct p} : bool :=
  match p, s with
  | EmptyString, _ => true
  | String _ _, EmptyString => false
  | String a p', String b s' => if ascii_dec a b then startswith s' p' else false
  end.

(** [needle in hay] *)
Fixpoint contains (hay needle : string) : bool :=
  match hay with
  | EmptyString => startswith hay needle
  | String _ r => startswith hay needle || contains r needle
  end.

(** [str.isspace] on one code point below 256. *)
Definition is_space (c : ascii) : bool :=
  let n := nat_of_ascii c in
  ((9 <=? n) && (n <=? 13)) || ((28 <=? n) && (n <=? 32)) || (n =? 133) || (n =? 160).

Fixpoint lstrip (s : string) : string :=
  match s with
  | EmptyString => EmptyString
  | String c r => if is_space c then lstrip r else s
  end.

Fixpoint rstrip (s : string) : string :=
  match s with
  | EmptyString => EmptyString
  | String c r =>
      match rstrip r with
      | EmptyString => if is_space c then EmptyString else String c EmptyString
      | r' => String c r'
      end
  end.

(** [s.strip()] *)
Definition strip (s : string) : string := rstrip (lstrip s).

(** [s.count(c)] for a one-character [c]. *)
Fixpoint count (c : ascii) (s : string) : nat :=
  match s with
  | EmptyString => 0
  | String a r => (if ascii_dec a c then 1 else 0) + count c r
  end.

(** [s.endswith(c)] for a one-character [c]. *)
Fixpoint endswith (c : ascii) (s : string) : bool :=
  match s with
  | EmptyString => false
  | String a EmptyString => if ascii_dec a c then true else false
  | String _ r => endswith c r
  end.

End PyStr.

(** ** [os.path] (posixpath) and [os.walk] *)

Module OsPath.

Definition sep : ascii := "/"%char.

(** [os.path.join(a, b)] *)
Definition join (a b : string) : string :=
  if PyStr.startswith b (String sep EmptyString) then b
  else if (if string_dec a EmptyString then true else PyStr.endswith sep a)
       then a +:+ b
       else a +:+ String sep b.

(** [p[:p.rfind(sep) + 1]]: the prefix of [p] up to its last separator,
    the separator included. *)
Fixpoint head (p : string) : string :=
  match p with
  | EmptyString => EmptyString
  | String c r =>
      if 0 <? PyStr.count sep r then String c (head r)
      else if ascii_dec c sep then String c EmptyString
      else EmptyString
  end.

(** [s.rstrip(sep)] *)
Fixpoint rstrip_sep (s : string) : string :=
  match s with
  | EmptyString => EmptyString
  | String c r =>
      match rstrip_sep r with
      | EmptyString => if ascii_dec c sep then EmptyString else String c EmptyString
      | r' => String c r'
      end
  end.

(** [os.path.dirname(p)]: the head, with its trailing separators removed
    unless it consists of separators only. *)
Definition dirname (p : string) : string :=
  let h := head p in
  match rstrip_sep h with
  | EmptyString => h
  | h' => h'
  end.

End OsPath.

(** A directory as [os.walk] sees it: the names of its files and its
    sub-directories, each sub-directory with its name. *)
#[warnings="-register-all"]
Inductive Dir : Type :=
  MkDir (files : list string) (subdirs : list (string * Dir)).

Definition dir_files (d : Dir) : list string := match d with MkDir fs _ => fs end.
Definition dir_subdirs (d : Dir) : list (string * Dir) := match d with MkDir _ ss => ss end.

(** One item of [os.walk]: [(dirpath, dirnames, filenames)]. *)
Definition visit : Type := string * list string * list string.

(** [os.walk(top)], top-down: the directory itself, then the walk of each
    sub-directory in listing order. *)
Fixpoint os_walk (top : string) (d : Dir) : list visit :=
  match d with
  | MkDir fs ss =>
      (top, map fst ss, fs)
        :: (fix walk_subdirs (l : list (string * Dir)) : list visit :=
              match l with
              | [] => []
              | (name, sub) :: l' => os_walk (OsPath.join top name) sub ++ walk_subdirs l'
              end) ss
  end.

(** ** SearchWorker *)

Module SearchWorker.

Inductive event : Type :=
| Found (full : string)
| Progress (count : nat) (r : string)
| Done (results : list string).

(** The attributes of the worker and the local [count] of [run]; [emitted]
    is the trace of the signals emitted so far; [_running] gives the number
    of reads of the flag that still see it set ([None]: [stop()] is never
    called). *)
Record worker : Type := MkWorker {
  needle : string;
  results : list string;
  _running : option nat;
  count : nat;
  emitted : list event
}.

(** [SearchWorker(root_path, needle)] *)
Definition init (needle0 : string) (stop : option nat) : worker :=
  {| needle := PyStr.lower needle0; results := []; _running := stop;
     count := 0; emitted := [] |}.

(** One read of [self._running]. *)
Definition read_running (w : worker) : bool * worker :=
  match _running w with
  | None => (true, w)
  | Some 0 => (false, w)
  | Some (S k) =>
      (true, {| needle := needle w; results := results w; _running := Some k;
                count := count w; emitted := emitted w |})
  end.

Definition emit (e : event) (w : worker) : worker :=
  {| needle := needle w; results := results w; _running := _running w;
     count := count w; emitted := emitted w ++ [e] |}.

Definition append_result (full : string) (w : worker) : worker :=
  {| needle := needle w; results := results w ++ [full]; _running := _running w;
     count := count w; emitted := emitted w |}.

Definition incr_count (w : worker) : worker :=
  {| needle := needle w; results := results w; _running := _running w;
     count := S (count w); emitted := emitted w |}.

(** [if self.needle in name.lower()] *)
Definition matches (w : worker) (name : string) : bool :=
  PyStr.contains (PyStr.lower name) (needle w).

(** The body of the inner loop, after the flag has been read. *)
Definition visit_name (r name : string) (w : worker) : worker :=
  let w1 := incr_count w in
  let w2 :=
    if matches w1 name
    then let full := OsPath.join r name in emit (Found full) (append_result full w1)
    else w1 in
  if count w2 mod 500 =? 0 then emit (Progress (count w2) r) w2 else w2.

(** [for name in dirs + files: ...]; a cleared flag breaks the loop. *)
Fixpoint scan_names (r : string) (names : list string) (w : worker) : worker :=
  match names with
  | [] => w
  | name :: rest =>
      let '(running, w1) := read_running w in
      if running then scan_names r rest (visit_name r name w1) else w1
  end.

(** [for r, dirs, files in os.walk(self.root_path): ...] *)
Fixpoint walk_loop (walk : list visit) (w : worker) : worker :=
  match walk with
  | [] => w
  | (r, dirs, files) :: rest =>
      let '(running, w1) := read_running w in
      if running then walk_loop rest (scan_names r (dirs ++ files) w1) else w1
  end.

(** [SearchWorker.run], on the items that [os.walk] yields. *)
Definition run (walk : list visit) (w : worker) : worker :=
  let w1 := walk_loop walk w in
  emit (Done (results w1)) w1.

(** The paths carried by the [found] signals of a trace. *)
Definition found_paths (tr : list event) : list string :=
  flat_map (fun e => match e with Found p => [p] | _ => [] end) tr.

(** The payloads of the [done] signals of a trace. *)
Definition done_payloads (tr : list event) : list (list string) :=
  flat_map (fun e => match e with Done l => [l] | _ => [] end) tr.

(** The names a walk visits, each with the directory it is listed in. *)
Definition entries (walk : list visit) : list (string * string) :=
  flat_map (fun v : visit => let '(r, dirs, files) := v in map (pair r) (dirs ++ files)) walk.

(** The paths reported for a list of visited names, in order: the full path
    of each name that passes the test of [run] against the lowered needle
    [nd]. *)
Definition hits (nd : string) (es : list (string * string)) : list string :=
  flat_map (fun e : string * string =>
              if PyStr.contains (PyStr.lower e.2) nd then [OsPath.join e.1 e.2] else []) es.

(** What a loop of [run] does to the worker: it visits a prefix of the names
    it is given, reports the matches among them through [results] and
    through [found] signals alike, and emits no [done]. *)
Record visits (es visited : list (string * string)) (w w' : worker) : Prop := {
  visits_prefix : visited `prefix_of` es;
  visits_needle : needle w' = needle w;
  visits_results : results w' = results w ++ hits (needle w) visited;
  visits_found :
    found_paths (emitted w') = found_paths (emitted w) ++ hits (needle w) visited;
  visits_done : done_payloads (emitted w') = done_payloads (emitted w);
  visits_all : _running w = None → visited = es ∧ _running w' = None;
  visits_break : visited ≠ es → _running w' = Some 0
}.

End SearchWorker.

(** ** FolderSizeWorker *)

Module FolderSizeWorker.

Inductive event : Type :=
| FolderDone (d : string) (size : N)
| Progress (i total : nat) (d : string)
| Done.

(** [_running] as for the search worker; [emitted] is the trace of the
    signals emitted so far. *)
Record worker : Type := MkWorker {
  _running : option nat;
  emitted : list event
}.

Definition init (stop : option nat) : worker :=
  {| _running := stop; emitted := [] |}.

Definition read_running (w : worker) : bool * worker :=
  match _running w with
  | None => (true, w)
  | Some 0 => (false, w)
  | Some (S k) => (true, {| _running := Some k; emitted := emitted w |})
  end.

Definition emit (e : event) (w : worker) : worker :=
  {| _running := _running w; emitted := emitted w ++ [e] |}.

(** [os.path.getsize] answers [None] where it raises; the [except] clause
    around it leaves [s] as it is. *)
Definition size_or_zero (r : option N) : N := default 0%N r.

(** [for fname in files: ...]; [None] is the [return] taken on a cleared
    flag. *)
Fixpoint sum_files (getsize : string → option N) (dirpath : string)
    (files : list string) (s : N) (w : worker) : option N * worker :=
  match files with
  | [] => (Some s, w)
  | fname :: rest =>
      let '(running, w1) := read_running w in
      if running
      then sum_files getsize dirpath rest
             (s + size_or_zero (getsize (OsPath.join dirpath fname)))%N w1
      else (None, w1)
  end.

(** [for dirpath, dirs, files in os.walk(self.root_path): ...]; [None] is
    the [return] taken on a cleared flag. *)
Fixpoint walk_loop (getsize : string → option N) (walk : list visit)
    (folders : list string) (file_sizes_per_folder : gmap string N) (w : worker)
    : option (list string * gmap string N) * worker :=
  match walk with
  | [] => (Some (folders, file_sizes_per_folder), w)
  | (dirpath, _, files) :: rest =>
      let '(running, w1) := read_running w in
      if running
      then match sum_files getsize dirpath files 0%N w1 with
           | (Some s, w2) =>
               walk_loop getsize rest (folders ++ [dirpath])
                 (<[dirpath := s]> file_sizes_per_folder) w2
           | (None, w2) => (None, w2)
           end
      else (None, w1)
  end.

(** The sort key [lambda p: p.count(os.sep)]. *)
Definition depth (p : string) : nat := PyStr.count OsPath.sep p.

(** [sorted(l, key=key, reverse=True)]: a stable sort, larger keys first,
    equal keys in their original order. *)
Fixpoint insert_desc {A : Type} (key : A → nat) (x : A) (l : list A) : list A :=
  match l with
  | [] => [x]
  | y :: r => if key y <=? key x then x :: l else y :: insert_desc key x r
  end.

Definition sorted_reverse {A : Type} (key : A → nat) (l : list A) : list A :=
  foldr (insert_desc key) [] l.

(** Larger keys first. *)
Definition descending {A : Type} (key : A → nat) (l : list A) : Prop :=
  StronglySorted (fun a b => key b ≤ key a) l.

(** [totals.get(d, 0)] *)
Definition get0 (totals : gmap string N) (d : string) : N := default 0%N (totals !! d).

(** [if parent in totals: totals[parent] += totals.get(d, 0)] *)
Definition add_to_parent (d : string) (totals : gmap string N) : gmap string N :=
  let parent := OsPath.dirname d in
  match totals !! parent with
  | Some v => <[parent := (v + get0 totals d)%N]> totals
  | None => totals
  end.

(** [for i, d in enumerate(folders_sorted): ...]; on a cleared flag the
    loop is left by [return], through the [finally] clause. *)
Fixpoint rollup (total : nat) (i : nat) (folders_sorted : list string)
    (totals : gmap string N) (w : worker) : gmap string N * worker :=
  match folders_sorted with
  | [] => (totals, w)
  | d :: rest =>
      let '(running, w1) := read_running w in
      if running
      then let totals1 := add_to_parent d totals in
           let w2 := emit (FolderDone d (get0 totals1 d)) w1 in
           let w3 := emit (Progress (i + 1) total d) w2 in
           rollup total (S i) rest totals1 w3
      else (totals, w1)
  end.

(** [FolderSizeWorker.run], on the items that [os.walk] yields. The
    [return] of the first loop leaves [run] at once; the second loop is
    inside [try: ... finally: self.done.emit()]. *)
Definition run (getsize : string → option N) (walk : list visit) (w : worker) : worker :=
  match walk_loop getsize walk [] ∅ w with
  | (None, w1) => w1
  | (Some (folders, file_sizes_per_folder), w1) =>
      let total := length folders in
      let folders_sorted := sorted_reverse depth folders in
      let totals := file_sizes_per_folder in
      let '(_, w2) := rollup total 0 folders_sorted totals w1 in
      emit Done w2
  end.

(** [ComputeSizes]: the run of a fresh worker on the walk of a tree. *)
Definition compute_sizes (getsize : string → option N) (root_path : string) (t : Dir)
    (stop : option nat) : list event :=
  emitted (run getsize (os_walk root_path t) (init stop)).

(** [MainWindow.on_folder_size_done], the slot of [folder_done]. *)
Definition on_folder_size_done (folder_sizes : gmap string N) (e : event) : gmap string N :=
  match e with
  | FolderDone folder_path size_bytes => <[folder_path := size_bytes]> folder_sizes
  | _ => folder_sizes
  end.

(** The table [MainWindow.folder_sizes] after the signals of a trace,
    starting from the empty table of [start_folder_size_scan]. *)
Definition folder_sizes (tr : list event) : gmap string N :=
  foldl on_folder_size_done ∅ tr.

(** The number of [done] signals of a trace. *)
Definition count_done (tr : list event) : nat :=
  length (flat_map (fun e => match e with Done => [e] | _ => [] end) tr).

(** The [folder_done] signals of a trace, in order. *)
Definition reported (tr : list event) : list (string * N) :=
  flat_map (fun e => match e with FolderDone d n => [(d, n)] | _ => [] end) tr.

(** The directories of the [folder_done] signals of a trace, in order. *)
Definition finalized (tr : list event) : list string :=
  flat_map (fun e => match e with FolderDone d _ => [d] | _ => [] end) tr.

End FolderSizeWorker.

(** ** Directory trees and their sizes *)

(** The sum of the sizes of the files listed in one directory, a file whose
    size cannot be read counting for nothing. *)
Definition own_size (getsize : string → option N) (dirpath : string)
    (files : list string) : N :=
  foldr (fun f acc => FolderSizeWorker.size_or_zero (getsize (OsPath.join dirpath f)) + acc)%N
        0%N files.

(** The sum of the sizes of all files under a directory: its own files and,
    recursively, those of its sub-directories. *)
Fixpoint tree_size (getsize : string → option N) (top : string) (d : Dir) : N :=
  match d with
  | MkDir fs ss =>
      (own_size getsize top fs
       + (fix subdirs_size (l : list (string * Dir)) : N :=
            match l with
            | [] => 0
            | (name, sub) :: l' => tree_size getsize (OsPath.join top name) sub + subdirs_size l'
            end) ss)%N
  end.

(** Every directory of a tree, in walk order, with the sum of the sizes of
    its own files and the sum of the sizes of all files under it. *)
Fixpoint dir_table (getsize : string → option N) (top : string) (d : Dir)
    : list (string * (N * N)) :=
  match d with
  | MkDir fs ss =>
      (top, (own_size getsize top fs, tree_size getsize top d))
        :: (fix subdirs_table (l : list (string * Dir)) : list (string * (N * N)) :=
              match l with
              | [] => []
              | (name, sub) :: l' =>
                  dir_table getsize (OsPath.join top name) sub ++ subdirs_table l'
              end) ss
  end.

(** The two columns of such a table. *)
Definition owns (E : list (string * (N * N))) : list (string * N) :=
  map (fun e => (e.1, e.2.1)) E.

Definition sizes (E : list (string * (N * N))) : list (string * N) :=
  map (fun e => (e.1, e.2.2)) E.

Definition dir_sizes (getsize : string → option N) (top : string) (d : Dir)
    : list (string * N) :=
  sizes (dir_table getsize top d).

(** The path [c] is [top] or lies below it. *)
Definition under (top c : string) : Prop :=
  ∃ rest, c = top +:+ rest
          ∧ (rest = EmptyString ∨ PyStr.startswith rest (String OsPath.sep EmptyString) = true).

(** A name of a directory entry: not empty, and without a separator. *)
Definition valid_name (n : string) : Prop :=
  n ≠ EmptyString ∧ PyStr.count OsPath.sep n = 0.

(** A path that is not empty and does not end with a separator: every
    directory path but a file system root such as [/]. *)
Definition plain_path (p : string) : Prop :=
  p ≠ EmptyString ∧ PyStr.endswith OsPath.sep p = false.

(** A tree of a file system: the sub-directories of a directory have valid
    names, no two of them the same. *)
Fixpoint wf_dir (d : Dir) : Prop :=
  match d with
  | MkDir _ ss =>
      NoDup (map fst ss)
      ∧ (fix wf_subdirs (l : list (string * Dir)) : Prop :=
           match l with
           | [] => True
           | (name, sub) :: l' => valid_name name ∧ wf_dir sub ∧ wf_subdirs l'
           end) ss
  end.

(** What the first loop of [FolderSizeWorker.run] finds in the visits of a
    walk: each directory with the sum of the sizes of its files. *)
Definition visit_owns (getsize : string → option N) (walk : list visit)
    : list (string * N) :=
  map (fun v : visit => (v.1.1, own_size getsize v.1.1 v.2)) walk.

(** The dictionary obtained by the assignments [m[d] = s], in order. *)
Definition fill (m : gmap string N) (l : list (string * N)) : gmap string N :=
  foldl (fun m e => <[e.1 := e.2]> m) m l.

(** The sum of a list of sizes. *)
Definition sumN (l : list N) : N := foldr N.add 0%N l.

(** The sum of the sizes that a table [E] gives the directories whose
    [dirname] is [d]. *)
Definition child_sum (E : list (string * N)) (d : string) : N :=
  sumN (map snd (filter (fun e : string * N => OsPath.dirname e.1 = d) E)).

(** The dictionary [totals] of the rollup once the directories of [P], a
    part of the table [E], have been processed: every directory of [E] holds
    the size of its own files and the sizes of its children in [P]. *)
Definition rolled (E P : list (string * (N * N))) (T : gmap string N) : Prop :=
  (∀ e, e ∈ E → T !! e.1 = Some (e.2.1 + child_sum (sizes P) e.1)%N)
  ∧ (∀ k, k ∉ map fst E → T !! k = None).

(** ** MainWindow: match navigation and the expand-all drain *)

Module MainWindow.

(** *** Search navigation ([find_next], [find_prev])

    A [QModelIndex] of the matches is identified with the path it stands
    for. *)

Inductive action : Type :=
| ShowMatch (idx : string)             (* expand_to_index, scrollTo, setCurrentIndex *)
| WarnNoRoot                           (* QMessageBox.warning(self, "No root", ...) *)
| StopSearch                           (* search_thread.stop(); search_thread.wait(100) *)
| StartSearch (root_path needle : string).  (* SearchWorker(root_path, needle).start() *)

Record window : Type := MkWindow {
  search_text : string;          (* search_edit.text() *)
  matches : list string;
  match_pos : Z;
  root_index : option string;    (* model.filePath(tree.rootIndex()), when that index is valid *)
  root_isdir : bool;             (* os.path.isdir(root_path) *)
  search_running : bool          (* search_thread.isRunning() *)
}.

Definition set_matches (ms : list string) (pos : Z) (w : window) : window :=
  {| search_text := search_text w; matches := ms; match_pos := pos;
     root_index := root_index w; root_isdir := root_isdir w;
     search_running := search_running w |}.

(** [a % n]: [None] is [ZeroDivisionError]. *)
Definition py_mod (a n : Z) : option Z :=
  if (n =? 0)%Z then None else Some (a mod n)%Z.

(** [l[i]]: a negative [i] counts from the end; [None] is [IndexError]. *)
Definition py_index {A : Type} (l : list A) (i : Z) : option A :=
  if (0 <=? i)%Z then l !! Z.to_nat i
  else if (- Z.of_nat (length l) <=? i)%Z then l !! Z.to_nat (Z.of_nat (length l) + i)
  else None.

(** The common tail of [find_next] and [find_prev]: move the cursor by
    [delta] modulo the number of matches and show the match under it. *)
Definition move_cursor (delta : Z) (w : window) : option (window * list action) :=
  pos ← py_mod (match_pos w + delta) (Z.of_nat (length (matches w)));
  idx ← py_index (matches w) pos;
  Some (set_matches (matches w) pos w, [ShowMatch idx]).

(** [MainWindow.find_next]; [None] is an exception leaving the method. *)
Definition find_next (w : window) : option (window * list action) :=
  let needle := PyStr.strip (search_text w) in
  if decide (needle = EmptyString) then Some (w, [])
  else if negb (bool_decide (matches w = [])) then move_cursor 1 w
  else match root_index w with
       | None => Some (w, [WarnNoRoot])
       | Some root_path =>
           if negb (root_isdir w) then Some (w, [])
           else Some (set_matches [] (-1) w,
                      (if search_running w then [StopSearch] else [])
                        ++ [StartSearch root_path needle])
       end.

(** [MainWindow.find_all_indexes], on the items that [os.walk] yields for
    the root and the validity of the model index of each path. *)
Definition find_all_indexes (walk : list visit) (index_valid : string → bool)
    (w : window) (needle : string) : list string :=
  match root_index w with
  | None => []
  | Some _ =>
      flat_map (fun e : string * string =>
                  let '(r, name) := e in
                  if PyStr.contains (PyStr.lower name) (PyStr.lower needle)
                  then let full := OsPath.join r name in
                       if index_valid full then [full] else []
                  else [])
               (SearchWorker.entries walk)
  end.

(** [MainWindow.find_prev] *)
Definition find_prev (walk : list visit) (index_valid : string → bool)
    (w : window) : option (window * list action) :=
  let needle := PyStr.strip (search_text w) in
  if decide (needle = EmptyString) then Some (w, [])
  else
    let w1 := if bool_decide (matches w = [])
              then set_matches (find_all_indexes walk index_valid w needle) 0 w
              else w in
    if bool_decide (matches w1 = []) then Some (w1, [])
    else move_cursor (-1) w1.

(** [n] requests of [find_next] in a row. *)
Fixpoint find_next_n (n : nat) (w : window) : option window :=
  match n with
  | 0 => Some w
  | S n' => r ← find_next w; find_next_n n' r.1
  end.

(** *** The expand-all drain ([_process_expand_queue_step]) *)

Definition MAX_PER_TICK : nat := 40.

Inductive expand_event : Type :=
| IndexCall (folder : string)      (* idx = self.model.index(folder) *)
| Expand (folder : string).        (* self.tree.expand(idx) *)

(** [_expand_attempts] is a [defaultdict(int)]; [expand_log] records the
    calls made to the model and to the view. *)
Record expander : Type := MkExpander {
  _expand_queue : list string;
  _expand_attempts : gmap string nat;
  _expanding : bool;
  expand_log : list expand_event
}.

(** What the environment does during one tick: the paths that
    [on_expand_batch_received] appends while [processEvents] runs, and the
    value of [self.expand_thread and self.expand_thread.isRunning()]. *)
Record tick_env : Type := MkTickEnv {
  arrivals : list string;
  thread_running : bool
}.

Inductive outcome : Type :=
| Stopped        (* [if not self._expanding: return] *)
| Rescheduled    (* [QTimer.singleShot(50, self._process_expand_queue_step)] *)
| Finalized.     (* [self._finalize_expansion()] *)

(** The number of [model.index(folder)] calls recorded in a log. *)
Definition calls_on (folder : string) (log : list expand_event) : nat :=
  length (flat_map (fun e => match e with
                             | IndexCall f => if decide (f = folder) then [e] else []
                             | _ => []
                             end) log).

(** The number of [tree.expand] calls on [folder] recorded in a log. *)
Definition expansions_of (folder : string) (log : list expand_event) : nat :=
  length (flat_map (fun e => match e with
                             | Expand f => if decide (f = folder) then [e] else []
                             | _ => []
                             end) log).

(** [self._expand_attempts[folder]], with the default of the defaultdict. *)
Definition attempts_of (x : expander) (folder : string) : nat :=
  default 0 (_expand_attempts x !! folder).

(** The body of the [while] loop for the popped [folder]; [ok] is
    [idx.isValid()]. The result is the expander and the [requeue] list. *)
Definition process_folder (ok : bool) (folder : string) (rest : list string)
    (x : expander) (requeue : list string) : expander * list string :=
  let log1 := expand_log x ++ [IndexCall folder] in
  if ok
  then ({| _expand_queue := rest;
           _expand_attempts := delete folder (_expand_attempts x);
           _expanding := _expanding x;
           expand_log := log1 ++ [Expand folder] |}, requeue)
  else
    let n := S (attempts_of x folder) in
    ({| _expand_queue := rest;
        _expand_attempts := <[folder := n]> (_expand_attempts x);
        _expanding := _expanding x;
        expand_log := log1 |},
     if n <=? 8 then requeue ++ [folder] else requeue).

(** [while self._expand_queue and processed < MAX_PER_TICK: ...];
    [budget] is [MAX_PER_TICK - processed]. The answer of the model to a
    call on [folder] is [valid folder i], [i] the number of earlier calls
    on that folder. *)
Fixpoint drain_loop (valid : string → nat → bool) (budget : nat)
    (x : expander) (requeue : list string) : expander * list string :=
  match budget with
  | 0 => (x, requeue)
  | S budget' =>
      match _expand_queue x with
      | [] => (x, requeue)
      | folder :: rest =>
          let ok := valid folder (calls_on folder (expand_log x)) in
          let '(x1, requeue1) := process_folder ok folder rest x requeue in
          drain_loop valid budget' x1 requeue1
      end
  end.

Definition set_queue (q : list string) (x : expander) : expander :=
  {| _expand_queue := q; _expand_attempts := _expand_attempts x;
     _expanding := _expanding x; expand_log := expand_log x |}.

(** [MainWindow._finalize_expansion] *)
Definition _finalize_expansion (x : expander) : expander :=
  {| _expand_queue := _expand_queue x; _expand_attempts := _expand_attempts x;
     _expanding := false; expand_log := expand_log x |}.

(** [MainWindow._process_expand_queue_step] *)
Definition _process_expand_queue_step (valid : string → nat → bool) (env : tick_env)
    (x : expander) : expander * outcome :=
  if negb (_expanding x) then (x, Stopped)
  else
    let '(x1, requeue) := drain_loop valid MAX_PER_TICK x [] in
    let x2 := set_queue (_expand_queue x1 ++ requeue) x1 in
    let x3 := set_queue (_expand_queue x2 ++ arrivals env) x2 in
    if negb (bool_decide (_expand_queue x3 = [])) || thread_running env
    then (x3, Rescheduled)
    else (_finalize_expansion x3, Finalized).

(** The drain: [n] timer ticks from tick number [t] on, each scheduled by
    the one before it. *)
Fixpoint drain (valid : string → nat → bool) (envs : nat → tick_env)
    (t n : nat) (x : expander) : expander :=
  match n with
  | 0 => x
  | S n' =>
      match _process_expand_queue_step valid (envs t) x with
      | (x', Rescheduled) => drain valid envs (S t) n' x'
      | (x', _) => x'
      end
  end.

(** The standing of one queued path [p] in an active drain. It is [pending]
    after [i] failed attempts: it sits once in the queue, behind [l1] and
    before [l2], its retry counter and the number of calls recorded for it
    are [i], and it has not been expanded. *)
Record pending (p : string) (i : nat) (l1 l2 : list string) (x : expander) : Prop := {
  pending_queue : _expand_queue x = l1 ++ p :: l2;
  pending_before : p ∉ l1;
  pending_after : p ∉ l2;
  pending_attempts : attempts_of x p = i;
  pending_calls : calls_on p (expand_log x) = i;
  pending_expansions : expansions_of p (expand_log x) = 0;
  pending_expanding : _expanding x = true
}.

(** It is [settled] once it has left the queue, after [calls] calls to the
    model and [exps] expansions, with the entry [att] in [_expand_attempts]. *)
Record settled (p : string) (calls exps : nat) (att : option nat) (x : expander) : Prop := {
  settled_queue : p ∉ _expand_queue x;
  settled_calls : calls_on p (expand_log x) = calls;
  settled_expansions : expansions_of p (expand_log x) = exps;
  settled_attempts : _expand_attempts x !! p = att
}.

(** What the processing of other folders leaves untouched for [p]. *)
Definition same_for (p : string) (x x' : expander) : Prop :=
  _expand_attempts x' !! p = _expand_attempts x !! p
  ∧ calls_on p (expand_log x') = calls_on p (expand_log x)
  ∧ expansions_of p (expand_log x') = expansions_of p (expand_log x)
  ∧ _expanding x' = _expanding x.

(** A path whose index never becomes valid is either still pending, after
    at most eight attempts, or skipped after nine. *)
Definition retrying (p : string) (x : expander) : Prop :=
  (∃ i l1 l2, i ≤ 8 ∧ pending p i l1 l2 x) ∨ settled p 9 0 (Some 9) x.

End MainWindow.

(** The table of the tree in the order of the rollup. *)
Definition sorted_table (getsize : string → option N) (top : string) (t : Dir)
    : list (string * (N * N)) :=
  FolderSizeWorker.sorted_reverse (FolderSizeWorker.depth ∘ fst) (dir_table getsize top t).

(** ** Example trees *)

(** The file system root [/] holding a file [f0] of 10 bytes and a directory
    [a] with a file [f1] of 100 bytes. *)
Definition root_tree : Dir := MkDir ["f0"] [("a", MkDir ["f1"] [])].

Definition root_getsize (p : string) : option N :=
  if decide (p = "/f0") then Some 10%N
  else if decide (p = "/a/f1") then Some 100%N
  else None.

(** The same root without the file [f0]. *)
Definition bare_root_tree : Dir := MkDir [] [("a", MkDir ["f1"] [])].

(** The scenario of the specification, on a root that is not a file system
    root: [/r] with [/r/a/f1] of 100 bytes and [/r/a/b/f2] of 50 bytes. *)
Definition scenario_tree : Dir := MkDir [] [("a", MkDir ["f1"] [("b", MkDir ["f2"] [])])].

Definition scenario_getsize (p : string) : option N :=
  if decide (p = "/r/a/f1") then Some 100%N
  else if decide (p = "/r/a/b/f2") then Some 50%N
  else None.

(** ** ExpandAllThread *)

Module ExpandAllThread.

Inductive event : Type :=
| Progress (batch : list string)
| Done.

(** The attributes of the thread and the local [batch] of [run]. *)
Record worker : Type := MkWorker {
  batch_size : nat;
  _running : option nat;
  batch : list string;
  emitted : list event
}.

(** [ExpandAllThread(root_path, batch_size)] *)
Definition init (batch_size0 : nat) (stop : option nat) : worker :=
  {| batch_size := batch_size0; _running := stop; batch := []; emitted := [] |}.

Definition read_running (w : worker) : bool * worker :=
  match _running w with
  | None => (true, w)
  | Some 0 => (false, w)
  | Some (S k) =>
      (true, {| batch_size := batch_size w; _running := Some k;
                batch := batch w; emitted := emitted w |})
  end.

Definition emit (e : event) (w : worker) : worker :=
  {| batch_size := batch_size w; _running := _running w;
     batch := batch w; emitted := emitted w ++ [e] |}.

Definition set_batch (b : list string) (w : worker) : worker :=
  {| batch_size := batch_size w; _running := _running w;
     batch := b; emitted := emitted w |}.

(** The body of the inner loop, after the flag has been read:
    [batch.append(os.path.join(root, d))], and a full batch is emitted and
    replaced by a new list. *)
Definition visit_dir (root d : string) (w : worker) : worker :=
  let b := batch w ++ [OsPath.join root d] in
  if batch_size w <=? length b
  then set_batch [] (emit (Progress b) w)
  else set_batch b w.

(** [for d in dirs: ...] *)
Fixpoint scan_dirs (root : string) (dirs : list string) (w : worker) : worker :=
  match dirs with
  | [] => w
  | d :: rest =>
      let '(running, w1) := read_running w in
      if running then scan_dirs root rest (visit_dir root d w1) else w1
  end.

(** [for root, dirs, _ in os.walk(self.root_path): ...] *)
Fixpoint walk_loop (walk : list visit) (w : worker) : worker :=
  match walk with
  | [] => w
  | (root, dirs, _) :: rest =>
      let '(running, w1) := read_running w in
      if running then walk_loop rest (scan_dirs root dirs w1) else w1
  end.

(** [ExpandAllThread.run]: the loops, the emission of what is left in
    [batch], and [done] from the [finally] clause. *)
Definition run (walk : list visit) (w : worker) : worker :=
  let w1 := walk_loop walk (set_batch [] w) in
  let w2 := match batch w1 with
            | [] => w1
            | _ :: _ => emit (Progress (batch w1)) w1
            end in
  emit Done w2.

(** The batches of the [progress] signals of a trace, in order. *)
Definition batches (tr : list event) : list (list string) :=
  flat_map (fun e => match e with Progress b => [b] | Done => [] end) tr.

(** The number of [done] signals of a trace. *)
Definition count_done (tr : list event) : nat :=
  length (flat_map (fun e => match e with Done => [e] | _ => [] end) tr).

(** The directories a walk lists, each with the directory it is listed in. *)
Definition dir_entries (walk : list visit) : list (string * string) :=
  flat_map (fun v : visit => map (pair v.1.1) v.1.2) walk.

(** Their full paths. *)
Definition paths_of (es : list (string * string)) : list string :=
  map (fun e => OsPath.join e.1 e.2) es.

(** What a loop of [run] does to the worker: it visits a prefix of the
    directories it is given; their paths are, in order, in the batches it
    has emitted and in the batch it holds. *)
Record visits (es visited : list (string * string)) (w w' : worker) : Prop := {
  visits_prefix : visited `prefix_of` es;
  visits_size : batch_size w' = batch_size w;
  visits_sent :
    concat (batches (emitted w')) ++ batch w'
    = (concat (batches (emitted w)) ++ batch w) ++ paths_of visited;
  visits_done : count_done (emitted w') = count_done (emitted w);
  visits_all : _running w = None → visited = es ∧ _running w' = None;
  visits_break : visited ≠ es → _running w' = Some 0
}.

(** The batches of a trace are well sized for a worker when all but the
    batch it holds have [cap] paths and the batch it holds has fewer. *)
Definition well_sized (cap : nat) (w : worker) : Prop :=
  Forall (fun b : list string => length b = cap) (batches (emitted w))
  ∧ length (batch w) < cap.

End ExpandAllThread.

(** ** Expand All: the directories sent and the life of the drain *)

(** The directories below the top of a tree, in the order of the table of
    the tree. *)
Fixpoint dirs_below (top : string) (d : Dir) : list string :=
  match d with
  | MkDir _ ss =>
      (fix subdirs_below (l : list (string * Dir)) : list string :=
         match l with
         | [] => []
         | (name, sub) :: l' =>
             OsPath.join top name
               :: dirs_below (OsPath.join top name) sub ++ subdirs_below l'
         end) ss
  end.

(** [MainWindow.on_expand_batch_received] *)
Definition on_expand_batch_received (batch : list string) (x : MainWindow.expander)
    : MainWindow.expander :=
  MainWindow.set_queue (MainWindow._expand_queue x ++ batch) x.

Inductive expand_action : Type :=
| WarnNoExpandRoot          (* QMessageBox.warning(self, "No root", ...) *)
| WarnInvalidRoot           (* QMessageBox.warning(self, "Invalid root", ...) *)
| StopThread                (* self.expand_thread.stop() *)
| StartThread (root_path : string) (batch_size : nat)
                            (* ExpandAllThread(root_path, batch_size).start() *)
| ScheduleTick.             (* QTimer.singleShot(50, self._process_expand_queue_step) *)

(** [MainWindow.expand_all_async]: the button starts an expansion, or stops
    the one that is running. [root_index] is [model.filePath] of the root
    index when that index is valid, [thread_running] is
    [self.expand_thread and self.expand_thread.isRunning()]. *)
Definition expand_all_async (root_index : option string) (root_isdir thread_running : bool)
    (x : MainWindow.expander) : MainWindow.expander * list expand_action :=
  match root_index with
  | None => (x, [WarnNoExpandRoot])
  | Some root_path =>
      if negb root_isdir then (x, [WarnInvalidRoot])
      else if MainWindow._expanding x
      then ({| MainWindow._expand_queue := []; MainWindow._expand_attempts := ∅;
               MainWindow._expanding := false;
               MainWindow.expand_log := MainWindow.expand_log x |},
            if thread_running then [StopThread] else [])
      else ({| MainWindow._expand_queue := []; MainWindow._expand_attempts := ∅;
               MainWindow._expanding := true;
               MainWindow.expand_log := MainWindow.expand_log x |},
            [StartThread root_path 1000; ScheduleTick])
  end.

(** What reaches the window during an expansion: a batch of the producer,
    or a timer tick. *)
Inductive expand_input : Type :=
| BatchReceived (batch : list string)
| TimerTick (env : MainWindow.tick_env).

Definition deliver_expand (valid : string → nat → bool) (x : MainWindow.expander)
    (i : expand_input) : MainWindow.expander :=
  match i with
  | BatchReceived batch => on_expand_batch_received batch x
  | TimerTick env => (MainWindow._process_expand_queue_step valid env x).1
  end.

(** The folders of the [tree.expand] calls of a log, in order. *)
Definition expanded (log : list MainWindow.expand_event) : list string :=
  flat_map (fun e => match e with MainWindow.Expand f => [f] | _ => [] end) log.

(** The attempts that the folders of a list still have before the skip. *)
Definition potential (att : gmap string nat) (l : list string) : nat :=
  foldr (fun f acc => (9 - default 0 (att !! f)) + acc) 0 l.

(** A bound on the work the drain has left: it goes down with every folder
    the loop processes. *)
Definition weight (x : MainWindow.expander) (requeue : list string) : nat :=
  let l := MainWindow._expand_queue x ++ requeue in
  potential (MainWindow._expand_attempts x) l + 9 * (length l * length l).

(** ** The slots of the search signals *)

(** [MainWindow._on_search_found] *)
Definition _on_search_found (index_valid : string → bool) (path : string)
    (w : MainWindow.window) : MainWindow.window :=
  if index_valid path
  then MainWindow.set_matches (MainWindow.matches w ++ [path]) (MainWindow.match_pos w) w
  else w.

(** [MainWindow._on_search_done]. The second component is [None] when the
    [IndexError] of [self.matches[0]] leaves the slot, after [matches] and
    [match_pos] have been assigned. *)
Definition _on_search_done (index_valid : string → bool) (results : list string)
    (w : MainWindow.window) : MainWindow.window * option (list MainWindow.action) :=
  match results with
  | [] => (w, Some [])
  | _ :: _ =>
      let w1 := MainWindow.set_matches (List.filter index_valid results) 0 w in
      match MainWindow.py_index (MainWindow.matches w1) 0 with
      | Some first_idx => (w1, Some [MainWindow.ShowMatch first_idx])
      | None => (w1, None)
      end
  end.

(** The window after one signal of the search thread; [progress] only
    changes the text of the status label. *)
Definition deliver_search (index_valid : string → bool) (w : MainWindow.window)
    (e : SearchWorker.event) : MainWindow.window :=
  match e with
  | SearchWorker.Found path => _on_search_found index_valid path w
  | SearchWorker.Progress _ _ => w
  | SearchWorker.Done results => (_on_search_done index_valid results w).1
  end.

(** ** More views of the traces *)

(** The [progress] signals of a trace of the search worker, in order. *)
Definition search_progress (tr : list SearchWorker.event) : list (nat * string) :=
  flat_map (fun e => match e with SearchWorker.Progress c r => [(c, r)] | _ => [] end) tr.

(** What [run] reports of the progress over a list of visited names: the
    count and the directory of every five hundredth name. *)
Definition every_500 (first : nat) (es : list (string * string)) : list (nat * string) :=
  concat (imap (fun i e => if (first + S i) mod 500 =? 0 then [(first + S i, e.1)] else []) es).

(** What a loop of [SearchWorker.run] does to the count and to the
    [progress] signals, over the prefix of the names that it visits. *)
Record counts (es visited : list (string * string)) (w w' : SearchWorker.worker) : Prop := {
  counts_prefix : visited `prefix_of` es;
  counts_count : SearchWorker.count w' = SearchWorker.count w + length visited;
  counts_progress :
    search_progress (SearchWorker.emitted w')
    = search_progress (SearchWorker.emitted w) ++ every_500 (SearchWorker.count w) visited;
  counts_all : SearchWorker._running w = None
               → visited = es ∧ SearchWorker._running w' = None;
  counts_break : visited ≠ es → SearchWorker._running w' = Some 0
}.

(** The [progress] signals of a trace of the size worker, in order. *)
Definition size_progress (tr : list FolderSizeWorker.event) : list (nat * nat * string) :=
  flat_map (fun e => match e with
                     | FolderSizeWorker.Progress i total d => [(i, total, d)]
                     | _ => []
                     end) tr.

(** The number of times the first loop of [FolderSizeWorker.run] reads the
    flag when it is never cleared: once for every directory and once for
    every file. *)
Definition walk_reads (walk : list visit) : nat :=
  foldr (fun v acc => S (length v.2) + acc) 0 walk.

(** Whether a flag still reads as set after [n] reads, and what is left
    of it then. *)
Definition survives (r : option nat) (n : nat) : bool :=
  match r with None => true | Some k => n <=? k end.

Definition after_reads (r : option nat) (n : nat) : option nat :=
  match r with None => None | Some k => Some (k - n) end.

(** ** Renaming an item *)

(** [os.path.basename(p)]: [p[p.rfind(sep) + 1:]], what follows the last
    separator of [p]. *)
Fixpoint basename (p : string) : string :=
  match p with
  | EmptyString => EmptyString
  | String c r =>
      if 0 <? PyStr.count OsPath.sep r then basename r
      else if ascii_dec c OsPath.sep then r
      else String c r
  end.

(** [MainWindow.rename_item], up to the call of [os.rename]: [answer] is
    the pair [(new, ok)] that [QInputDialog.getText] returns; the result is
    the pair of arguments of [os.rename(path, newpath)], or [None] when the
    method returns without renaming. *)
Definition rename_item (path : string) (answer : string * bool) : option (string * string) :=
  let old := basename path in
  let '(new, ok) := answer in
  if negb ok || bool_decide (new = EmptyString) || bool_decide (new = old) then None
  else let newpath := OsPath.join (OsPath.dirname path) new in
       Some (path, newpath).

(** ** The name of a pasted copy *)

(** [os.path.join(dest_path, f"{base}_{i}{ext}")] *)
Definition suffix_candidate (dest_path base ext : string) (i : nat) : string :=
  OsPath.join dest_path (base +:+ "_" +:+ pretty i +:+ ext).

(** The [while True] loop of [make_suffix_name], from the index [i] on:
    [exists_] is [os.path.exists] on the file system as it is during the
    call, and [fuel] bounds the number of candidates that are tried. *)
Fixpoint suffix_loop (exists_ : string → bool) (dest_path base ext : string)
    (fuel i : nat) : option string :=
  match fuel with
  | 0 => None
  | S fuel' =>
      let target := suffix_candidate dest_path base ext i in
      if negb (exists_ target) then Some target
      else suffix_loop exists_ dest_path base ext fuel' (S i)
  end.

(** [MainWindow.make_suffix_name]; [splitext] is [os.path.splitext]. *)
Definition make_suffix_name (splitext : string → string * string)
    (exists_ : string → bool) (dest_path name : string) (fuel : nat) : option string :=
  let '(base, ext) := splitext name in
  suffix_loop exists_ dest_path base ext fuel 1.

(** ** Python [str] in full: [str.lower] on Unicode code points

    The strings above hold code points below 256, where [str.lower] works
    character by character. On the other code points it does not: the
    capital sigma is lowered by its context, and the lower case of a code
    point can be more than one code point. This module models [str.lower]
    as CPython computes it ([do_lower], [lower_ucs4] and
    [handle_capital_sigma] in [unicodeobject.c]), over a [str] given as the
    list of its code points, and the test of the search on such strings. The
    character database is a parameter. *)

Module PyUnicode.

Definition ustr : Type := list N.

Definition CAPITAL_SIGMA : N := 931.      (* U+03A3 *)
Definition SMALL_FINAL_SIGMA : N := 962.  (* U+03C2 *)
Definition SMALL_SIGMA : N := 963.        (* U+03C3 *)

(** What [str.lower] reads in the Unicode character database. *)
Record case_db : Type := MkCaseDb {
  to_lower_full : N → list N;      (* [_PyUnicode_ToLowerFull] *)
  is_cased : N → bool;             (* [_PyUnicode_IsCased] *)
  is_case_ignorable : N → bool     (* [_PyUnicode_IsCaseIgnorable] *)
}.

(** The first code point of [l] that is not case-ignorable. *)
Fixpoint skip_ignorable (db : case_db) (l : ustr) : option N :=
  match l with
  | [] => None
  | c :: r => if is_case_ignorable db c then skip_ignorable db r else Some c
  end.

(** [handle_capital_sigma]: the lower case of a capital sigma that stands
    after [before] (its nearest code point first) and in front of [after].
    It is the final sigma when a cased letter precedes it and none follows
    it, case-ignorable code points not counting. *)
Definition lower_sigma (db : case_db) (before after : ustr) : N :=
  let final_sigma :=
    match skip_ignorable db before with
    | Some c => is_cased db c
    | None => false
    end in
  let final_sigma :=
    if final_sigma
    then match skip_ignorable db after with
         | None => true
         | Some c => negb (is_cased db c)
         end
    else false in
  if final_sigma then SMALL_FINAL_SIGMA else SMALL_SIGMA.

(** [do_lower] from a position on: [before] is what has been read, its
    nearest code point first. *)
Fixpoint lower_from (db : case_db) (before s : ustr) : ustr :=
  match s with
  | [] => []
  | c :: after =>
      (if (c =? CAPITAL_SIGMA)%N then [lower_sigma db before after]
       else to_lower_full db c)
        ++ lower_from db (c :: before) after
  end.

(** [str.lower] *)
Definition lower (db : case_db) (s : ustr) : ustr := lower_from db [] s.

(** [s.startswith(p)] *)
Fixpoint startswith (s p : ustr) {struct p} : bool :=
  match p, s with
  | [], _ => true
  | _ :: _, [] => false
  | a :: p', b :: s' => (a =? b)%N && startswith s' p'
  end.

(** [needle in hay] *)
Fixpoint contains (hay needle : ustr) : bool :=
  match hay with
  | [] => startswith hay needle
  | _ :: r => startswith hay needle || contains r needle
  end.

(** The test of [SearchWorker.run], [self.needle in name.lower()], where
    [self.needle] is [needle.lower()]; [find_all_indexes] has the same
    test, [needle.lower() in name.lower()]. *)
Definition search_matches (db : case_db) (needle name : ustr) : bool :=
  contains (lower db name) (lower db needle).

(** The code points of a string of code points below 256. *)
Fixpoint of_string (s : string) : ustr :=
  match s with
  | EmptyString => []
  | String c r => N_of_ascii c :: of_string r
  end.

(** A character database that lowers every code point below 256 to the one
    code point that [PyStr.lower_char] gives, as the Unicode database
    does. *)
Definition agrees_below_256 (db : case_db) : Prop :=
  ∀ c : ascii, to_lower_full db (N_of_ascii c) = [N_of_ascii (PyStr.lower_char c)].

End PyUnicode.

(** ** The words of the specification *)

Module Spec.

(** The capital letters among the code points below 256: [A]-[Z] and the
    Latin-1 capitals from 192 to 222, the multiplication sign (215)
    excepted. The small letter of each lies 32 code points above it. *)
Definition is_capital (c : ascii) : bool :=
  let n := nat_of_ascii c in
  ((65 <=? n) && (n <=? 90)) || ((192 <=? n) && (n <=? 222) && negb (n =? 215)).

Definition small_of (c : ascii) : ascii := ascii_of_nat (nat_of_ascii c + 32).

(** Two characters that differ at most in case: they are equal, or one is
    a capital letter and the other its small letter. *)
Definition same_letter (a b : ascii) : Prop :=
  a = b ∨ (is_capital a = true ∧ b = small_of a) ∨ (is_capital b = true ∧ a = small_of b).

(** Case-insensitive comparison of two strings of code points below 256:
    the same length, and at each position characters that differ at most in
    case. *)
Inductive ci_eq : string → string → Prop :=
| ci_eq_nil : ci_eq EmptyString EmptyString
| ci_eq_cons a b s t :
    same_letter a b → ci_eq s t →
    ci_eq (String a s) (String b t).

(** The needle is a contained substring of the name under case-insensitive
    comparison. *)
Definition ci_substring (needle name : string) : Prop :=
  ∃ pre mid post, name = pre +:+ mid +:+ post ∧ ci_eq mid needle.

End Spec.

(** * Properties *)

(** ** Strings *)

Section strings.

Local Arguments String.append !_ _ / : simpl nomatch.

Lemma append_nil_r (s : string) : s +:+ EmptyString = s.
Proof. induction s as [|a s IH]; [done|]. cbn. by rewrite IH. Qed.

Lemma append_assoc (s t u : string) : (s +:+ t) +:+ u = s +:+ t +:+ u.
Proof. induction s as [|a s IH]; [done|]. cbn. by rewrite IH. Qed.

Lemma append_length (s t : string) :
  String.length (s +:+ t) = String.length s + String.length t.
Proof. induction s as [|a s IH]; [done|]. cbn. by rewrite IH. Qed.

Lemma lower_app (s t : string) :
  PyStr.lower (s +:+ t) = PyStr.lower s +:+ PyStr.lower t.
Proof. induction s as [|a s IH]; [done|]. cbn. by rewrite IH. Qed.

(** A decomposition of [lower s] comes from a decomposition of [s]. *)
Lemma lower_app_inv (s u v : string) :
  PyStr.lower s = u +:+ v →
  ∃ s1 s2, s = s1 +:+ s2 ∧ PyStr.lower s1 = u ∧ PyStr.lower s2 = v.
Proof.
  revert s. induction u as [|a u IH]; intros s H.
  - exists EmptyString, s. by cbn in *.
  - destruct s as [|b s]; cbn in H; [done|].
    injection H as Ha Hs. destruct (IH _ Hs) as (s1 & s2 & -> & <- & <-).
    exists (String b s1), s2. cbn. by rewrite Ha.
Qed.

(** [str.lower] sends a capital letter to its small letter and leaves the
    other code points below 256 as they are. *)
Lemma lower_char_capital (c : ascii) :
  PyStr.lower_char c = if Spec.is_capital c then Spec.small_of c else c.
Proof. reflexivity. Qed.

Lemma small_of_not_capital (c : ascii) :
  Spec.is_capital c = true → Spec.is_capital (Spec.small_of c) = false.
Proof.
  unfold Spec.is_capital, Spec.small_of. set (n := nat_of_ascii c). intros Hc.
  assert (n + 32 < 256) as Hn.
  { destruct (Nat.leb_spec 65 n), (Nat.leb_spec n 90), (Nat.leb_spec 192 n),
      (Nat.leb_spec n 222); cbn in Hc; (lia || done). }
  rewrite nat_ascii_embedding by done.
  destruct (Nat.leb_spec 65 n), (Nat.leb_spec n 90), (Nat.leb_spec 192 n),
    (Nat.leb_spec n 222), (Nat.leb_spec 65 (n + 32)), (Nat.leb_spec (n + 32) 90),
    (Nat.leb_spec 192 (n + 32)), (Nat.leb_spec (n + 32) 222);
    cbn in Hc |- *; (lia || done).
Qed.

Lemma small_of_inj (a b : ascii) :
  Spec.is_capital a = true → Spec.is_capital b = true →
  Spec.small_of a = Spec.small_of b → a = b.
Proof.
  unfold Spec.is_capital, Spec.small_of. intros Ha Hb Hab.
  assert (∀ n, ((65 <=? n) && (n <=? 90) || (192 <=? n) && (n <=? 222) && negb (n =? 215))
               = true → n + 32 < 256) as Hbound.
  { intros n Hn. destruct (Nat.leb_spec 65 n), (Nat.leb_spec n 90), (Nat.leb_spec 192 n),
      (Nat.leb_spec n 222); cbn in Hn; (lia || done). }
  apply (f_equal nat_of_ascii) in Hab.
  rewrite !nat_ascii_embedding in Hab by auto.
  rewrite <- (ascii_nat_embedding a), <- (ascii_nat_embedding b). f_equal. lia.
Qed.

(** The comparison of the specification, character by character, is the
    equality of the lowered characters. *)
Lemma same_letter_lower (a b : ascii) :
  Spec.same_letter a b ↔ PyStr.lower_char a = PyStr.lower_char b.
Proof.
  rewrite !lower_char_capital. unfold Spec.same_letter. split.
  - intros [->|[[Ha ->]|[Hb ->]]]; [done| |].
    + by rewrite Ha, (small_of_not_capital a Ha).
    + by rewrite Hb, (small_of_not_capital b Hb).
  - destruct (Spec.is_capital a) eqn:Ha, (Spec.is_capital b) eqn:Hb; intros Hab.
    + left. by apply small_of_inj.
    + right. left. done.
    + right. right. done.
    + by left.
Qed.

Lemma ci_eq_lower (s t : string) :
  Spec.ci_eq s t ↔ PyStr.lower s = PyStr.lower t.
Proof.
  split.
  - induction 1 as [|a b s t Hab _ IH]; [done|].
    apply same_letter_lower in Hab. cbn. by rewrite Hab, IH.
  - revert t. induction s as [|a s IH]; intros [|b t] H; cbn in H; try done.
    + constructor.
    + injection H as Hab Hst. constructor; [by apply same_letter_lower|auto].
Qed.

Lemma startswith_spec (s p : string) :
  PyStr.startswith s p = true ↔ ∃ post, s = p +:+ post.
Proof.
  revert s. induction p as [|a p IH]; intros s.
  - split; [intros _; by exists s|done].
  - destruct s as [|b s]; cbn.
    + split; [done|]. by intros [post H].
    + destruct (ascii_dec a b) as [->|Hne].
      * rewrite IH. split; intros [post H]; exists post; [by rewrite H|by injection H].
      * split; [done|]. intros [post H]. injection H as H1 _. by destruct Hne.
Qed.

Lemma contains_spec (hay needle : string) :
  PyStr.contains hay needle = true ↔ ∃ pre post, hay = pre +:+ needle +:+ post.
Proof.
  induction hay as [|c hay IH].
  - cbn [PyStr.contains]. rewrite startswith_spec. split.
    + intros [post H]. by exists EmptyString, post.
    + intros (pre & post & H). destruct pre; [by exists post|done].
  - cbn [PyStr.contains]. rewrite orb_true_iff, startswith_spec, IH. split.
    + intros [[post H]|(pre & post & H)].
      * by exists EmptyString, post.
      * exists (String c pre), post. cbn. by rewrite H.
    + intros (pre & post & H). destruct pre as [|a pre]; cbn in H.
      * left. by exists post.
      * right. injection H as _ H. by exists pre, post.
Qed.

(** The test of the search worker decides the relation of the
    specification. *)
Lemma contains_lower_ci_substring (needle name : string) :
  PyStr.contains (PyStr.lower name) (PyStr.lower needle) = true
  ↔ Spec.ci_substring needle name.
Proof.
  rewrite contains_spec. split.
  - intros (pre & post & H).
    destruct (lower_app_inv _ _ _ H) as (s1 & s23 & -> & _ & H23).
    destruct (lower_app_inv _ _ _ H23) as (s2 & s3 & -> & H2 & _).
    exists s1, s2, s3. split; [done|]. by apply ci_eq_lower.
  - intros (pre & mid & post & -> & Hci). apply ci_eq_lower in Hci.
    exists (PyStr.lower pre), (PyStr.lower post).
    by rewrite !lower_app, Hci.
Qed.

End strings.

(** ** SearchWorker *)

Section search_worker.

Import SearchWorker.

Lemma hits_app nd es1 es2 : hits nd (es1 ++ es2) = hits nd es1 ++ hits nd es2.
Proof. apply flat_map_app. Qed.

Lemma found_paths_app tr1 tr2 :
  found_paths (tr1 ++ tr2) = found_paths tr1 ++ found_paths tr2.
Proof. apply flat_map_app. Qed.

Lemma done_payloads_app tr1 tr2 :
  done_payloads (tr1 ++ tr2) = done_payloads tr1 ++ done_payloads tr2.
Proof. apply flat_map_app. Qed.

Lemma visit_name_spec r name w :
  let w' := visit_name r name w in
  needle w' = needle w ∧ _running w' = _running w
  ∧ results w' = results w ++ hits (needle w) [(r, name)]
  ∧ found_paths (emitted w') = found_paths (emitted w) ++ hits (needle w) [(r, name)]
  ∧ done_payloads (emitted w') = done_payloads (emitted w).
Proof.
  unfold visit_name, matches, hits. cbn.
  destruct (PyStr.contains (PyStr.lower name) (needle w)); cbn;
    destruct (_ =? 0); cbn;
    rewrite ?found_paths_app, ?done_payloads_app, ?app_nil_r; cbn;
    rewrite ?app_nil_r; done.
Qed.

Lemma scan_names_spec r names w :
  ∃ visited, visits (map (pair r) names) visited w (scan_names r names w).
Proof.
  revert w. induction names as [|name names IH]; intros w.
  - exists []. split; cbn; rewrite ?app_nil_r; try done.
  - cbn [scan_names]. unfold read_running.
    destruct (_running w) as [[|k]|] eqn:Hrun.
    + exists []. split; cbn; rewrite ?app_nil_r; try done; try congruence.
      apply prefix_nil.
    + set (w1 := {| needle := needle w; results := results w; _running := Some k;
                    count := count w; emitted := emitted w |}).
      destruct (visit_name_spec r name w1) as (Hn & Hr & Hres & Hf & Hd).
      destruct (IH (visit_name r name w1)) as [visited [Hp Hn' Hres' Hf' Hd' Hall Hbr]].
      exists ((r, name) :: visited). split.
      * cbn. by apply prefix_cons.
      * by rewrite Hn', Hn.
      * rewrite Hres', Hres, Hn. cbn [needle results w1].
        change ((r, name) :: visited) with ([(r, name)] ++ visited).
        by rewrite hits_app, app_assoc.
      * rewrite Hf', Hf, Hn. cbn [needle emitted w1].
        change ((r, name) :: visited) with ([(r, name)] ++ visited).
        by rewrite hits_app, app_assoc.
      * by rewrite Hd', Hd.
      * congruence.
      * intros Hne. apply Hbr. intros ->. by apply Hne.
    + destruct (visit_name_spec r name w) as (Hn & Hr & Hres & Hf & Hd).
      destruct (IH (visit_name r name w)) as [visited [Hp Hn' Hres' Hf' Hd' Hall Hbr]].
      destruct Hall as [-> Hnone]; [by rewrite Hr|].
      exists ((r, name) :: map (pair r) names). split; try done.
      * by rewrite Hn', Hn.
      * rewrite Hres', Hres, Hn.
        change ((r, name) :: map (pair r) names) with ([(r, name)] ++ map (pair r) names).
        by rewrite hits_app, app_assoc.
      * rewrite Hf', Hf, Hn.
        change ((r, name) :: map (pair r) names) with ([(r, name)] ++ map (pair r) names).
        by rewrite hits_app, app_assoc.
      * by rewrite Hd', Hd.
Qed.

Lemma walk_loop_stopped walk w : _running w = Some 0 → walk_loop walk w = w.
Proof.
  intros H. destruct walk as [|[[r dirs] files] rest]; [done|].
  cbn. unfold read_running. by rewrite H.
Qed.

Lemma walk_loop_spec walk w :
  ∃ visited, visits (entries walk) visited w (walk_loop walk w).
Proof.
  revert w. induction walk as [|[[r dirs] files] rest IH]; intros w.
  - exists []. split; cbn; rewrite ?app_nil_r; try done.
  - cbn [walk_loop entries flat_map]. unfold read_running.
    destruct (_running w) as [[|k]|] eqn:Hrun.
    + exists []. split; cbn; rewrite ?app_nil_r; try done; try congruence.
      apply prefix_nil.
    + set (w1 := {| needle := needle w; results := results w; _running := Some k;
                    count := count w; emitted := emitted w |}).
      destruct (scan_names_spec r (dirs ++ files) w1)
        as [v1 [Hp1 Hn1 Hres1 Hf1 Hd1 Hall1 Hbr1]].
      destruct (decide (v1 = map (pair r) (dirs ++ files))) as [->|Hne].
      * destruct (IH (scan_names r (dirs ++ files) w1))
          as [v2 [Hp2 Hn2 Hres2 Hf2 Hd2 Hall2 Hbr2]].
        exists (map (pair r) (dirs ++ files) ++ v2). split.
        -- by apply prefix_app.
        -- by rewrite Hn2, Hn1.
        -- rewrite Hres2, Hres1, Hn1. cbn [needle results w1].
           by rewrite hits_app, app_assoc.
        -- rewrite Hf2, Hf1, Hn1. cbn [needle emitted w1].
           by rewrite hits_app, app_assoc.
        -- by rewrite Hd2, Hd1.
        -- congruence.
        -- intros Hne. apply Hbr2. intros ->. by apply Hne.
      * rewrite walk_loop_stopped by auto.
        exists v1. split; try done; try congruence.
        -- etrans; [exact Hp1|]. by apply prefix_app_r.
        -- intros _. by apply Hbr1.
    + destruct (scan_names_spec r (dirs ++ files) w)
        as [v1 [Hp1 Hn1 Hres1 Hf1 Hd1 Hall1 Hbr1]].
      destruct (Hall1 Hrun) as [-> Hnone].
      destruct (IH (scan_names r (dirs ++ files) w))
        as [v2 [Hp2 Hn2 Hres2 Hf2 Hd2 Hall2 Hbr2]].
      destruct (Hall2 Hnone) as [-> Hnone2].
      exists (map (pair r) (dirs ++ files) ++ entries rest). split; try done.
      * by rewrite Hn2, Hn1.
      * by rewrite Hres2, Hres1, Hn1, hits_app, app_assoc.
      * by rewrite Hf2, Hf1, Hn1, hits_app, app_assoc.
      * by rewrite Hd2, Hd1.
Qed.

End search_worker.

Section search_claims.

Import SearchWorker.

(** C10. For every run of [SearchWorker.run], cancelled or not, the trace
    ends with its only [done] signal, and the list that signal carries is
    exactly the sequence of the paths emitted before it as [found] signals,
    in the same order. *)
Theorem search_done_carries_found (walk : list visit) (needle0 : string) (stop : option nat) :
  ∃ tr, emitted (run walk (init needle0 stop)) = tr ++ [Done (found_paths tr)]
        ∧ done_payloads tr = [].
Proof.
  destruct (walk_loop_spec walk (init needle0 stop)) as [visited [_ _ Hres Hf Hd _ _]].
  exists (emitted (walk_loop walk (init needle0 stop))). split.
  - unfold run, emit. cbn. by rewrite Hres, Hf.
  - by rewrite Hd.
Qed.

(** The reported paths, in the words of the specification. *)
Lemma elem_of_hits needle0 es full :
  full ∈ hits (PyStr.lower needle0) es
  ↔ ∃ r name, (r, name) ∈ es ∧ Spec.ci_substring needle0 name
              ∧ full = OsPath.join r name.
Proof.
  unfold hits. rewrite list_elem_of_In, in_flat_map.
  setoid_rewrite <- contains_lower_ci_substring. split.
  - intros ([r name] & Hin & Hfull). cbn [fst snd] in Hfull.
    destruct (PyStr.contains _ _) eqn:Hc; [|done].
    exists r, name. rewrite list_elem_of_In. destruct Hfull as [<-|[]]. done.
  - intros (r & name & Hin & Hc & ->). exists (r, name).
    rewrite <- list_elem_of_In. split; [done|]. cbn [fst snd]. rewrite Hc. by left.
Qed.

End search_claims.

Section empty_needle.

Import SearchWorker MainWindow.

Lemma contains_empty (s : string) : PyStr.contains s EmptyString = true.
Proof. by destruct s. Qed.

Lemma hits_empty_needle es : hits EmptyString es = map (fun e => OsPath.join e.1 e.2) es.
Proof.
  unfold hits. induction es as [|e es IH]; [done|].
  cbn. by rewrite contains_empty, IH.
Qed.

(** C4, as stated, fails: run with the empty needle on a directory [/r]
    that holds one file, the search worker reports that file. *)
Lemma empty_needle_search_reports_names :
  emitted (run (os_walk "/r" (MkDir ["notes.txt"] [])) (init "" None))
  = [Found "/r/notes.txt"; Done ["/r/notes.txt"]]
  ∧ found_paths (emitted (run (os_walk "/r" (MkDir ["notes.txt"] [])) (init "" None))) ≠ [].
Proof. split; [reflexivity|discriminate]. Qed.

(** C4, amended. A search requested with a needle that is empty once
    stripped yields no results because no search is run: [find_next] and
    [find_prev] return at once, start no [SearchWorker] and leave the window
    as it is. The worker itself, run with the empty needle, reports every
    name it visits. *)
Theorem empty_needle_request_starts_no_search
    (w : window) (walk : list visit) (index_valid : string → bool) :
  PyStr.strip (search_text w) = EmptyString →
  find_next w = Some (w, [])
  ∧ find_prev walk index_valid w = Some (w, [])
  ∧ found_paths (emitted (run walk (init "" None)))
    = map (fun e => OsPath.join e.1 e.2) (entries walk).
Proof.
  intros Hstrip. split; [|split].
  - unfold find_next. rewrite Hstrip. by rewrite decide_True.
  - unfold find_prev. rewrite Hstrip. by rewrite decide_True.
  - destruct (walk_loop_spec walk (init "" None)) as [visited [_ _ _ Hf _ Hall _]].
    destruct Hall as [-> _]; [done|].
    unfold run, emit. cbn [emitted]. rewrite found_paths_app, Hf. cbn.
    by rewrite app_nil_r, hits_empty_needle.
Qed.

Lemma empty_needle_request_starts_no_search_witness :
  let w := {| search_text := "  "; matches := []; match_pos := -1;
              root_index := Some "/r"; root_isdir := true; search_running := false |} in
  find_next w = Some (w, [])
  ∧ find_prev [("/r", [], ["notes.txt"])] (fun _ => true) w = Some (w, [])
  ∧ found_paths (emitted (run [("/r", [], ["notes.txt"])] (init "" None)))
    = map (fun e => OsPath.join e.1 e.2) (entries [("/r", [], ["notes.txt"])]).
Proof.
  intros w.
  apply (empty_needle_request_starts_no_search w [("/r", [], ["notes.txt"])] (fun _ => true)).
  reflexivity.
Defined.

End empty_needle.

(** ** Match navigation *)

Section navigation.

Import MainWindow.

Lemma set_matches_id (w : window) : set_matches (matches w) (match_pos w) w = w.
Proof. by destruct w. Qed.

Lemma py_mod_range (a n : Z) :
  (0 < n)%Z → ∃ p, py_mod a n = Some p ∧ p = (a mod n)%Z ∧ (0 ≤ p < n)%Z.
Proof.
  intros Hn. exists (a mod n)%Z. unfold py_mod.
  destruct (Z.eqb_spec n 0); [lia|].
  split; [done|]. split; [done|]. by apply Z.mod_pos_bound.
Qed.

Lemma py_index_range {A : Type} (l : list A) (i : Z) :
  (0 ≤ i < Z.of_nat (length l))%Z →
  ∃ x, py_index l i = Some x ∧ l !! Z.to_nat i = Some x.
Proof.
  intros Hi. unfold py_index.
  destruct (Z.leb_spec 0 i); [|lia].
  destruct (lookup_lt_is_Some_2 l (Z.to_nat i)) as [x Hx]; [lia|].
  by exists x.
Qed.

(** With at least one match, moving the cursor never fails: the new
    position is the old one plus [delta] modulo the number of matches, and
    the match at that position is shown. *)
Lemma move_cursor_wraps (delta : Z) (w : window) :
  matches w ≠ [] →
  let n := Z.of_nat (length (matches w)) in
  let p := ((match_pos w + delta) mod n)%Z in
  (0 ≤ p < n)%Z
  ∧ ∃ idx, matches w !! Z.to_nat p = Some idx
           ∧ move_cursor delta w = Some (set_matches (matches w) p w, [ShowMatch idx]).
Proof.
  intros Hne n p.
  assert (0 < n)%Z as Hn by (subst n; destruct (matches w); [done|cbn; lia]).
  destruct (py_mod_range (match_pos w + delta) n Hn) as (p' & Hmod & -> & Hp).
  split; [done|].
  destruct (py_index_range (matches w) p Hp) as (idx & Hidx & Hlook).
  exists idx. split; [done|].
  unfold move_cursor. fold n. rewrite Hmod. cbn. fold p. by rewrite Hidx.
Qed.

Lemma find_next_with_matches (w : window) :
  PyStr.strip (search_text w) ≠ EmptyString → matches w ≠ [] →
  find_next w = move_cursor 1 w.
Proof.
  intros Hneedle Hm. unfold find_next.
  rewrite decide_False by done. by rewrite bool_decide_eq_false_2.
Qed.

Lemma find_prev_with_matches walk index_valid (w : window) :
  PyStr.strip (search_text w) ≠ EmptyString → matches w ≠ [] →
  find_prev walk index_valid w = move_cursor (-1) w.
Proof.
  intros Hneedle Hm. unfold find_prev.
  rewrite decide_False by done.
  rewrite (bool_decide_eq_false_2 (matches w = [])) by done.
  by rewrite bool_decide_eq_false_2.
Qed.

(** [k + 1] requests of [find_next] move the cursor by [k + 1] modulo the
    number of matches. *)
Lemma find_next_n_pos (k : nat) (w : window) :
  PyStr.strip (search_text w) ≠ EmptyString → matches w ≠ [] →
  find_next_n (S k) w
  = Some (set_matches (matches w)
            ((match_pos w + Z.of_nat (S k)) mod Z.of_nat (length (matches w)))%Z w).
Proof.
  revert w. induction k as [|k IH]; intros w Hneedle Hm.
  - cbn [find_next_n]. rewrite find_next_with_matches by done.
    by destruct (move_cursor_wraps 1 w Hm) as (Hp & idx & _ & ->).
  - change (find_next_n (S (S k)) w) with (r ← find_next w; find_next_n (S k) r.1).
    rewrite find_next_with_matches by done.
    destruct (move_cursor_wraps 1 w Hm) as (Hp & idx & _ & ->). cbn [mbind option_bind fst].
    rewrite IH by done. cbn. unfold set_matches. cbn.
    rewrite Zplus_mod_idemp_l. do 3 f_equal. lia.
Qed.

End navigation.

Section navigation_claims.

Import MainWindow.

(** C9, as stated, fails in two places. With zero matches a request is not
    always a no-op: [find_next] starts a search, and [find_prev] searches at
    once and shows the last match it finds. And with matches the cursor is
    not always in [[0, n)]: [find_next] leaves it at -1 when it starts a
    search, and it is still -1 when the first [found] signal of that search
    has put a match in the list. *)
Lemma navigation_leaves_range_and_searches :
  let w := {| search_text := "log"; matches := []; match_pos := -1;
              root_index := Some "/r"; root_isdir := true; search_running := false |} in
  let index_valid := fun _ : string => true in
  find_next w = Some (w, [StartSearch "/r" "log"])
  ∧ find_next w ≠ Some (w, [])
  ∧ find_prev [("/r", [], ["app.log"])] index_valid w
    = Some (set_matches ["/r/app.log"] 0 w, [ShowMatch "/r/app.log"])
  ∧ find_prev [("/r", [], ["app.log"])] index_valid w ≠ Some (w, [])
  ∧ matches (_on_search_found index_valid "/r/app.log" w) = ["/r/app.log"]
  ∧ match_pos (_on_search_found index_valid "/r/app.log" w) = (-1)%Z
  ∧ ¬ (0 ≤ match_pos (_on_search_found index_valid "/r/app.log" w)
         < Z.of_nat (length (matches (_on_search_found index_valid "/r/app.log" w))))%Z.
Proof.
  repeat split; try reflexivity; try discriminate. cbn. lia.
Qed.

(** [find_prev] on an empty list of matches that its search fills. *)
Lemma find_prev_from_empty walk index_valid (w : window) found last :
  PyStr.strip (search_text w) ≠ EmptyString → matches w = [] →
  find_all_indexes walk index_valid w (PyStr.strip (search_text w)) = found ++ [last] →
  find_prev walk index_valid w
  = Some (set_matches (found ++ [last]) (Z.of_nat (length found)) w, [ShowMatch last]).
Proof.
  intros Hneedle Hm Hfound. unfold find_prev.
  rewrite decide_False by done. rewrite (bool_decide_eq_true_2 (matches w = [])) by done.
  rewrite Hfound. set (w1 := set_matches (found ++ [last]) 0 w).
  assert (matches w1 ≠ []) as Hne by (cbn; by destruct found).
  rewrite bool_decide_eq_false_2 by done.
  destruct (move_cursor_wraps (-1) w1 Hne) as (Hrange & idx & Hidx & ->).
  cbn [matches match_pos w1 set_matches] in *. rewrite length_app in *. cbn [length] in *.
  assert (((0 + -1) mod Z.of_nat (length found + 1))%Z = Z.of_nat (length found)) as Hpos.
  { replace (0 + -1)%Z with (Z.of_nat (length found) + (-1) * Z.of_nat (length found + 1))%Z
      by lia.
    rewrite Z_mod_plus_full. apply Z.mod_small. lia. }
  rewrite Hpos in *. rewrite Nat2Z.id in Hidx.
  rewrite lookup_app_r, Nat.sub_diag in Hidx by done. injection Hidx as <-. done.
Qed.

(** A position that Python accepts as an index and its residue denote the
    same match. *)
Lemma py_index_mod {A : Type} (l : list A) (i : Z) :
  (- Z.of_nat (length l) ≤ i < Z.of_nat (length l))%Z →
  py_index l (i mod Z.of_nat (length l))%Z = py_index l i.
Proof.
  intros Hi. destruct (Z.leb_spec 0 i) as [Hpos|Hneg].
  - by rewrite Z.mod_small by lia.
  - replace (i mod Z.of_nat (length l))%Z with (Z.of_nat (length l) + i)%Z.
    + unfold py_index. destruct (Z.leb_spec 0 i); [lia|].
      destruct (Z.leb_spec 0 (Z.of_nat (length l) + i)); [|lia].
      destruct (Z.leb_spec (- Z.of_nat (length l)) i); [done|lia].
    + symmetry. replace i with ((Z.of_nat (length l) + i) + (-1) * Z.of_nat (length l))%Z
        at 1 by lia.
      rewrite Z_mod_plus_full. apply Z.mod_small. lia.
Qed.

(** C9, amended. Once a needle is entered: with [n > 0] matches,
    [find_next] and [find_prev] never fail, they move the cursor from any
    position to the old position plus or minus one modulo [n], which lies
    in [[0, n)], and show the match there; [n] requests of [find_next] from
    any position [p] end at [p mod n], which denotes the same match as [p]
    and is [p] itself, with the window as it was, when [p] is in [[0, n)].
    With zero matches a request is not an error and is a no-op only in
    part: [find_next] does nothing when the root is not a directory, warns
    when no root is selected, and otherwise starts a search (stopping one
    that runs) and shows no match; [find_prev] searches at once and shows the
    last match it finds, or, finding none, returns without navigation,
    with an empty list and the cursor at 0. *)
Theorem match_cursor_wraps (walk : list visit) (index_valid : string → bool) (w : window) :
  PyStr.strip (search_text w) ≠ EmptyString →
  let needle := PyStr.strip (search_text w) in
  let n := length (matches w) in
  (matches w ≠ [] →
     let next := ((match_pos w + 1) mod Z.of_nat n)%Z in
     let prev := ((match_pos w - 1) mod Z.of_nat n)%Z in
     (0 ≤ next < Z.of_nat n)%Z ∧ (0 ≤ prev < Z.of_nat n)%Z
     ∧ (∃ idx, matches w !! Z.to_nat next = Some idx
               ∧ find_next w = Some (set_matches (matches w) next w, [ShowMatch idx]))
     ∧ (∃ idx, matches w !! Z.to_nat prev = Some idx
               ∧ find_prev walk index_valid w
                 = Some (set_matches (matches w) prev w, [ShowMatch idx]))
     ∧ find_next_n n w
       = Some (set_matches (matches w) (match_pos w mod Z.of_nat n)%Z w)
     ∧ ((- Z.of_nat n ≤ match_pos w < Z.of_nat n)%Z →
        py_index (matches w) (match_pos w mod Z.of_nat n)%Z
        = py_index (matches w) (match_pos w))
     ∧ ((0 ≤ match_pos w < Z.of_nat n)%Z → find_next_n n w = Some w))
  ∧ (matches w = [] →
     find_next w
     = match root_index w with
       | None => Some (w, [WarnNoRoot])
       | Some root_path =>
           if root_isdir w
           then Some (set_matches [] (-1) w,
                      (if search_running w then [StopSearch] else [])
                        ++ [StartSearch root_path needle])
           else Some (w, [])
       end
     ∧ is_Some (find_prev walk index_valid w)
     ∧ (∀ found last,
          find_all_indexes walk index_valid w needle = found ++ [last] →
          find_prev walk index_valid w
          = Some (set_matches (found ++ [last]) (Z.of_nat (length found)) w,
                  [ShowMatch last]))
     ∧ (find_all_indexes walk index_valid w needle = [] →
        find_prev walk index_valid w = Some (set_matches [] 0 w, []))).
Proof.
  intros Hneedle needle n. split.
  - intros Hm next prev.
    destruct (move_cursor_wraps 1 w Hm) as (Hnext & idx1 & Hl1 & Hmv1).
    destruct (move_cursor_wraps (-1) w Hm) as (Hprev & idx2 & Hl2 & Hmv2).
    assert (find_next_n n w
            = Some (set_matches (matches w) (match_pos w mod Z.of_nat n)%Z w)) as Hcycle.
    { subst n. destruct (length (matches w)) as [|k] eqn:Hlen.
      { by destruct (matches w). }
      rewrite find_next_n_pos, Hlen by done.
      replace ((match_pos w + Z.of_nat (S k)) mod Z.of_nat (S k))%Z
        with (match_pos w mod Z.of_nat (S k))%Z; [done|].
      rewrite <- (Z.mul_1_l (Z.of_nat (S k))) at 2.
      by rewrite Z_mod_plus_full. }
    split; [exact Hnext|]. split; [exact Hprev|]. split; [|split; [|split; [|split]]].
    + exists idx1. split; [exact Hl1|]. by rewrite find_next_with_matches.
    + exists idx2. split; [exact Hl2|]. by rewrite find_prev_with_matches.
    + exact Hcycle.
    + apply py_index_mod.
    + intros Hpos. rewrite Hcycle. f_equal.
      rewrite Z.mod_small by exact Hpos. apply set_matches_id.
  - intros Hm. split; [|split; [|split]].
    + unfold find_next. rewrite decide_False by done.
      rewrite bool_decide_eq_true_2 by done. cbn [negb].
      destruct (root_index w) as [root_path|]; [|done].
      by destruct (root_isdir w).
    + unfold find_prev. rewrite decide_False by done.
      rewrite (bool_decide_eq_true_2 (matches w = [])) by done.
      case_bool_decide as Hfound; [done|].
      destruct (move_cursor_wraps (-1) _ Hfound) as (_ & idx & _ & ->). done.
    + intros found last Hfound. by apply find_prev_from_empty.
    + intros Hnone. unfold find_prev. rewrite decide_False by done.
      rewrite (bool_decide_eq_true_2 (matches w = [])) by done.
      fold needle. rewrite Hnone. done.
Qed.

Lemma match_cursor_wraps_witness :
  let w := {| search_text := "log"; matches := ["/r/a.log"; "/r/b.log"; "/r/c.log"];
              match_pos := 0; root_index := Some "/r"; root_isdir := true;
              search_running := false |} in
  PyStr.strip (search_text w) ≠ EmptyString ∧ find_next_n 3 w = Some w.
Proof.
  intros w. assert (PyStr.strip (search_text w) ≠ EmptyString) as Hneedle by discriminate.
  split; [exact Hneedle|].
  destruct (match_cursor_wraps [] (fun _ => true) w Hneedle) as [Hwrap _].
  destruct Hwrap as (_ & _ & _ & _ & _ & _ & Hcycle); [discriminate|].
  apply Hcycle. cbn. lia.
Defined.

End navigation_claims.

(** ** The expand-all drain: the decision to go on *)

Section drain_decision.

Import MainWindow.

(** The decision at the end of a tick. *)
Lemma tick_decision
    (valid : string → nat → bool) (env : tick_env) (x : expander) :
  let x' := (_process_expand_queue_step valid env x).1 in
  let o := (_process_expand_queue_step valid env x).2 in
  if _expanding x
  then (o = Rescheduled ↔ _expand_queue x' ≠ [] ∨ thread_running env = true)
       ∧ (o = Finalized ↔ _expand_queue x' = [] ∧ thread_running env = false)
       ∧ o ≠ Stopped
       ∧ (o = Rescheduled → _expanding x' = true)
       ∧ (o = Finalized → _expanding x' = false)
  else x' = x ∧ o = Stopped.
Proof.
  unfold _process_expand_queue_step.
  destruct (_expanding x) eqn:Hexp; cbn [negb]; [|done].
  destruct (drain_loop valid MAX_PER_TICK x []) as [x1 requeue] eqn:Hloop.
  assert (_expanding x1 = true) as Hexp1.
  { clear -Hexp Hloop. revert x requeue Hexp Hloop. generalize (@nil string).
    induction MAX_PER_TICK as [|b IH]; intros rq x requeue Hexp Hloop; cbn in Hloop.
    - by injection Hloop as <- _.
    - destruct (_expand_queue x) as [|folder rest]; [by injection Hloop as <- _|].
      unfold process_folder in Hloop.
      destruct (valid folder _); eapply IH; try exact Hloop; done. }
  set (q := (_expand_queue x1 ++ requeue) ++ arrivals env).
  cbn [set_queue _expand_queue].
  case_bool_decide as Hq; cbn [negb orb]; fold q in Hq |- *.
  - destruct (thread_running env) eqn:Hrun; cbn [fst snd set_queue _finalize_expansion
      _expand_queue _expanding]; fold q; rewrite ?Hq; intuition congruence.
  - cbn [fst snd set_queue _expand_queue _expanding]. fold q. intuition congruence.
Qed.

End drain_decision.

(** ** FolderSizeWorker: the [done] signal *)

Section size_worker_done.

Import FolderSizeWorker.

Lemma count_done_app tr1 tr2 : count_done (tr1 ++ tr2) = count_done tr1 + count_done tr2.
Proof. unfold count_done. by rewrite flat_map_app, length_app. Qed.

Lemma read_running_emitted w : emitted (read_running w).2 = emitted w.
Proof. unfold read_running. by destruct (_running w) as [[|k]|]. Qed.

Lemma sum_files_emitted getsize dirpath files s w :
  emitted (sum_files getsize dirpath files s w).2 = emitted w.
Proof.
  revert s w. induction files as [|f files IH]; intros s w; [done|].
  cbn. destruct (read_running w) as [[] w1] eqn:Hr; cbn.
  - rewrite IH. by rewrite <- (read_running_emitted w), Hr.
  - by rewrite <- (read_running_emitted w), Hr.
Qed.

(** The first loop emits nothing. *)
Lemma walk_loop_emitted getsize walk folders sizes w :
  emitted (walk_loop getsize walk folders sizes w).2 = emitted w.
Proof.
  revert folders sizes w.
  induction walk as [|[[dirpath dirs] files] rest IH]; intros folders sizes w; [done|].
  cbn. destruct (read_running w) as [[] w1] eqn:Hr; cbn.
  - pose proof (sum_files_emitted getsize dirpath files 0%N w1) as Hs.
    destruct (sum_files getsize dirpath files 0%N w1) as [[s|] w2]; cbn in *.
    + rewrite IH, Hs. by rewrite <- (read_running_emitted w), Hr.
    + rewrite Hs. by rewrite <- (read_running_emitted w), Hr.
  - by rewrite <- (read_running_emitted w), Hr.
Qed.

(** The second loop emits no [done]. *)
Lemma rollup_count_done total i l totals w :
  count_done (emitted (rollup total i l totals w).2) = count_done (emitted w).
Proof.
  revert i totals w. induction l as [|d l IH]; intros i totals w; [done|].
  cbn. destruct (read_running w) as [[] w1] eqn:Hr; cbn.
  - rewrite IH. unfold emit. cbn [emitted]. rewrite !count_done_app.
    rewrite <- (read_running_emitted w), Hr. cbn. lia.
  - by rewrite <- (read_running_emitted w), Hr.
Qed.

(** [done] is emitted once when the first loop runs to its end, and not at
    all when that loop is left by [return]. *)
Lemma run_count_done getsize walk stop :
  count_done (emitted (run getsize walk (init stop)))
  = if (walk_loop getsize walk [] ∅ (init stop)).1 is Some _ then 1 else 0.
Proof.
  unfold run.
  pose proof (walk_loop_emitted getsize walk [] ∅ (init stop)) as Hw.
  destruct (walk_loop getsize walk [] ∅ (init stop)) as [[[folders sizes]|] w1];
    cbn [fst snd] in *.
  - pose proof (rollup_count_done (length folders) 0
                  (sorted_reverse depth folders) sizes w1) as Hr.
    destruct (rollup _ _ _ _ _) as [totals w2]. cbn [fst snd] in *.
    unfold emit. cbn [emitted]. rewrite count_done_app, Hr, Hw. done.
  - by rewrite Hw.
Qed.

(** C2 fails on the code: when [stop()] lands before the first directory of
    the walk is read, [run] leaves by the [return] of its first loop, which
    no [finally] clause guards, and the trace is empty: no [done] signal is
    emitted, for any tree. *)
Theorem size_run_cancelled_in_walk_emits_no_done
    (getsize : string → option N) (root_path : string) (t : Dir) :
  compute_sizes getsize root_path t (Some 0) = []
  ∧ count_done (compute_sizes getsize root_path t (Some 0)) = 0.
Proof.
  unfold compute_sizes, run. destruct t as [fs ss]. cbn. done.
Qed.

End size_worker_done.

(** ** The expand-all drain: bounded retries *)

Section expand_retry.

Import MainWindow.

Variable valid : string → nat → bool.
Variable p : string.

Lemma calls_on_app f l1 l2 : calls_on f (l1 ++ l2) = calls_on f l1 + calls_on f l2.
Proof. unfold calls_on. by rewrite flat_map_app, length_app. Qed.

Lemma expansions_of_app f l1 l2 :
  expansions_of f (l1 ++ l2) = expansions_of f l1 + expansions_of f l2.
Proof. unfold expansions_of. by rewrite flat_map_app, length_app. Qed.

Lemma calls_on_index_call f g : calls_on f [IndexCall g] = if decide (g = f) then 1 else 0.
Proof. unfold calls_on. cbn. by destruct (decide (g = f)). Qed.

Lemma expansions_of_expand f g : expansions_of f [Expand g] = if decide (g = f) then 1 else 0.
Proof. unfold expansions_of. cbn. by destruct (decide (g = f)). Qed.

Lemma calls_on_expand f g : calls_on f [Expand g] = 0.
Proof. done. Qed.

Lemma expansions_of_index_call f g : expansions_of f [IndexCall g] = 0.
Proof. done. Qed.

Ltac count_log :=
  rewrite ?calls_on_app, ?expansions_of_app, ?calls_on_index_call, ?calls_on_expand,
    ?expansions_of_expand, ?expansions_of_index_call, ?decide_True by done.

Lemma in_take (f : string) n (l : list string) : f ∈ take n l → f ∈ l.
Proof. apply subseteq_take. Qed.

Lemma in_drop (f : string) n (l : list string) : f ∈ drop n l → f ∈ l.
Proof. apply subseteq_drop. Qed.

Lemma same_for_refl x : same_for p x x.
Proof. by repeat split. Qed.

Lemma same_for_trans x y z : same_for p x y → same_for p y z → same_for p x z.
Proof. unfold same_for. intros (?&?&?&?) (?&?&?&?). repeat split; congruence. Qed.

(** The body of the loop on a folder other than [p]. *)
Lemma process_folder_other ok f rest x rq :
  f ≠ p →
  _expand_queue (process_folder ok f rest x rq).1 = rest
  ∧ same_for p x (process_folder ok f rest x rq).1
  ∧ ∃ rq2, (process_folder ok f rest x rq).2 = rq ++ rq2 ∧ p ∉ rq2.
Proof.
  intros Hne. unfold process_folder, same_for.
  destruct ok; cbn [fst snd _expand_queue _expand_attempts expand_log _expanding].
  - split; [done|]. split.
    + rewrite lookup_delete_ne by done.
      rewrite !calls_on_app, !expansions_of_app, calls_on_index_call,
        expansions_of_expand, !decide_False by done.
      cbn. repeat split; lia.
    + exists []. rewrite app_nil_r. split; [done|]. apply not_elem_of_nil.
  - split; [done|]. split.
    + rewrite lookup_insert_ne by done.
      rewrite !calls_on_app, !expansions_of_app, calls_on_index_call,
        !decide_False by done.
      cbn. repeat split; lia.
    + destruct (_ <=? 8).
      * exists [f]. split; [done|].
        apply not_elem_of_cons. split; [congruence|apply not_elem_of_nil].
      * exists []. rewrite app_nil_r. split; [done|]. apply not_elem_of_nil.
Qed.

(** The loop on a stretch of the queue that does not hold [p]. *)
Lemma drain_loop_frame b x rq :
  p ∉ take b (_expand_queue x) →
  _expand_queue (drain_loop valid b x rq).1 = drop b (_expand_queue x)
  ∧ same_for p x (drain_loop valid b x rq).1
  ∧ ∃ rq2, (drain_loop valid b x rq).2 = rq ++ rq2 ∧ p ∉ rq2.
Proof.
  revert x rq. induction b as [|b IH]; intros x rq Hp.
  - cbn. split; [done|]. split; [apply same_for_refl|].
    exists []. rewrite app_nil_r. split; [done|]. apply not_elem_of_nil.
  - cbn [drain_loop]. destruct (_expand_queue x) as [|f rest] eqn:Hq.
    + cbn. rewrite Hq. split; [done|]. split; [apply same_for_refl|].
      exists []. rewrite app_nil_r. split; [done|]. apply not_elem_of_nil.
    + cbn [take] in Hp. apply not_elem_of_cons in Hp as [Hne Hrest].
      set (ok := valid f (calls_on f (expand_log x))).
      destruct (process_folder_other ok f rest x rq) as (Hq1 & Hsame1 & rq1 & Hrq1 & Hp1);
        [done|].
      destruct (process_folder ok f rest x rq) as [x1 rq'] eqn:Hpf. cbn [fst snd] in *.
      subst rq'. destruct (IH x1 (rq ++ rq1)) as (Hq2 & Hsame2 & rq2 & Hrq2 & Hp2).
      { by rewrite Hq1. }
      split; [by rewrite Hq2, Hq1|]. split; [by eapply same_for_trans|].
      exists (rq1 ++ rq2). rewrite Hrq2, app_assoc. split; [done|].
      rewrite elem_of_app. tauto.
Qed.

Lemma drain_loop_nil b x rq : _expand_queue x = [] → drain_loop valid b x rq = (x, rq).
Proof. intros Hq. destruct b; cbn; [done|]. by rewrite Hq. Qed.

(** A budget of [a + b] is a budget of [a] followed by a budget of [b]. *)
Lemma drain_loop_add a b x rq :
  drain_loop valid (a + b) x rq
  = drain_loop valid b (drain_loop valid a x rq).1 (drain_loop valid a x rq).2.
Proof.
  revert x rq. induction a as [|a IH]; intros x rq; [done|].
  cbn [Nat.add drain_loop]. destruct (_expand_queue x) as [|f rest] eqn:Hq.
  - cbn [fst snd]. by rewrite drain_loop_nil.
  - destruct (process_folder _ f rest x rq) as [x1 rq1]. apply IH.
Qed.


(** A tick never reschedules a drain that it leaves inactive. *)
Lemma tick_not_rescheduled env x :
  (_process_expand_queue_step valid env x).2 ≠ Rescheduled →
  _expanding (_process_expand_queue_step valid env x).1 = false.
Proof.
  pose proof (tick_decision valid env x) as H. cbn zeta in H.
  destruct (_expanding x) eqn:Hexp.
  - destruct H as (_ & _ & Hns & _ & Hfin). intros Hnr. apply Hfin.
    by destruct (_process_expand_queue_step valid env x).2.
  - destruct H as [-> _]. done.
Qed.

(** A tick in which [p] is not reached: it waits behind at least
    [MAX_PER_TICK] other folders. *)
Lemma tick_pending_far env i l1 l2 x :
  pending p i l1 l2 x → MAX_PER_TICK ≤ length l1 → p ∉ arrivals env →
  (_process_expand_queue_step valid env x).2 = Rescheduled
  ∧ ∃ l2', pending p i (drop MAX_PER_TICK l1) l2' (_process_expand_queue_step valid env x).1.
Proof.
  intros [Hq Hl1 Hl2 Hatt Hcalls Hexps Hexp] Hlen Harr.
  unfold _process_expand_queue_step. rewrite Hexp. cbn [negb].
  destruct (drain_loop_frame MAX_PER_TICK x []) as (Hq1 & Hsame & rq & Hrq & Hprq).
  { rewrite Hq, take_app_le by done. intros Hin. apply Hl1.
    by eapply in_take. }
  destruct (drain_loop valid MAX_PER_TICK x []) as [x1 rq'] eqn:Hloop.
  cbn [fst snd] in *. subst rq'. cbn [app] in *.
  rewrite Hq, drop_app_le in Hq1 by done.
  destruct Hsame as (Ha & Hc & He & Hx).
  cbn [set_queue _expand_queue]. rewrite Hq1.
  rewrite bool_decide_eq_false_2; cbn [negb orb fst snd].
  2:{ rewrite <- !app_assoc. cbn. intros Heq. by apply app_nil in Heq as [_ ?]. }
  split; [done|]. exists (l2 ++ rq ++ arrivals env).
  split; unfold set_queue; cbn [_expand_queue _expand_attempts expand_log _expanding].
  - by rewrite <- !app_assoc.
  - intros Hin. apply Hl1. by eapply in_drop.
  - rewrite !elem_of_app. tauto.
  - unfold attempts_of in *. cbn. by rewrite Ha.
  - congruence.
  - congruence.
  - congruence.
Qed.

(** A tick in which [p] is reached: the model is asked once more, and its
    answer decides between expansion, one more round, and the skip. *)
Lemma tick_pending_near env i l1 l2 x :
  pending p i l1 l2 x → length l1 < MAX_PER_TICK → p ∉ arrivals env →
  let x' := (_process_expand_queue_step valid env x).1 in
  if valid p i then settled p (S i) 1 None x'
  else if S i <=? 8
       then (_process_expand_queue_step valid env x).2 = Rescheduled
            ∧ ∃ l1' l2', pending p (S i) l1' l2' x'
       else settled p (S i) 0 (Some (S i)) x'.
Proof.
  intros [Hq Hl1 Hl2 Hatt Hcalls Hexps Hexp] Hlen Harr x'. subst x'.
  unfold _process_expand_queue_step. rewrite Hexp. cbn [negb].
  replace MAX_PER_TICK with (length l1 + S (MAX_PER_TICK - S (length l1))) by lia.
  set (b := MAX_PER_TICK - S (length l1)).
  rewrite drain_loop_add.
  destruct (drain_loop_frame (length l1) x []) as (Hq1 & Hsame1 & rq1 & Hrq1 & Hprq1).
  { by rewrite Hq, take_app_length. }
  destruct (drain_loop valid (length l1) x []) as [x1 rq'] eqn:Hloop1.
  cbn [fst snd] in *. subst rq'. cbn [app] in *.
  rewrite Hq, drop_app_length in Hq1.
  destruct Hsame1 as (Ha1 & Hc1 & He1 & Hx1).
  cbn [drain_loop]. rewrite Hq1, Hc1, Hcalls.
  assert (attempts_of x1 p = i) as Hatt1 by (unfold attempts_of in *; by rewrite Ha1).
  unfold process_folder. rewrite Hatt1.
  destruct (valid p i) eqn:Hok.
  - set (x2 := {| _expand_queue := l2;
                  _expand_attempts := delete p (_expand_attempts x1);
                  _expanding := _expanding x1;
                  expand_log := (expand_log x1 ++ [IndexCall p]) ++ [Expand p] |}).
    destruct (drain_loop_frame b x2 rq1) as (Hq3 & Hsame3 & rq3 & Hrq3 & Hprq3).
    { cbn. intros Hin. apply Hl2. by eapply in_take. }
    destruct (drain_loop valid b x2 rq1) as [x3 rq'] eqn:Hloop3.
    cbn [fst snd] in *. subst rq'.
    destruct Hsame3 as (Ha3 & Hc3 & He3 & Hx3).
    assert (p ∉ ((_expand_queue x3 ++ rq1 ++ rq3) ++ arrivals env)) as Hnotin.
    { rewrite Hq3. unfold x2. cbn [_expand_queue]. rewrite !elem_of_app.
      intros [[Hin|[Hin|Hin]]|Hin]; try done. apply Hl2. by eapply in_drop. }
    assert (calls_on p (expand_log x3) = S i) as Hcalls3.
    { rewrite Hc3. unfold x2. cbn [expand_log]. count_log. lia. }
    assert (expansions_of p (expand_log x3) = 1) as Hexps3.
    { rewrite He3. unfold x2. cbn [expand_log]. count_log. lia. }
    assert (_expand_attempts x3 !! p = None) as Hatt3.
    { rewrite Ha3. unfold x2. cbn [_expand_attempts]. apply lookup_delete_eq. }
    cbn [set_queue _expand_queue].
    destruct (negb _ || _); cbn [fst]; split;
      cbn [_finalize_expansion set_queue _expand_queue _expand_attempts expand_log]; done.
  - destruct (S i <=? 8) eqn:Hle.
    + set (x2 := {| _expand_queue := l2;
                    _expand_attempts := <[p := S i]> (_expand_attempts x1);
                    _expanding := _expanding x1;
                    expand_log := expand_log x1 ++ [IndexCall p] |}).
      destruct (drain_loop_frame b x2 (rq1 ++ [p])) as (Hq3 & Hsame3 & rq3 & Hrq3 & Hprq3).
      { cbn. intros Hin. apply Hl2. by eapply in_take. }
      destruct (drain_loop valid b x2 (rq1 ++ [p])) as [x3 rq'] eqn:Hloop3.
      cbn [fst snd] in *. subst rq'.
      destruct Hsame3 as (Ha3 & Hc3 & He3 & Hx3).
      cbn [set_queue _expand_queue].
      rewrite bool_decide_eq_false_2; cbn [negb orb fst snd].
      2:{ rewrite <- !app_assoc. intros Heq.
          apply app_nil in Heq as [_ Heq]. apply app_nil in Heq as [_ Heq]. done. }
      split; [done|].
      exists (drop b l2 ++ rq1), (rq3 ++ arrivals env).
      split; unfold set_queue; cbn [_expand_queue _expand_attempts expand_log _expanding].
      * rewrite Hq3. unfold x2. cbn [_expand_queue]. by rewrite <- !app_assoc.
      * rewrite elem_of_app. intros [Hin|Hin]; [|done]. apply Hl2. by eapply in_drop.
      * rewrite elem_of_app. tauto.
      * unfold attempts_of. cbn [_expand_attempts]. rewrite Ha3. unfold x2.
        cbn [_expand_attempts]. by rewrite lookup_insert_eq.
      * rewrite Hc3. unfold x2. cbn [expand_log]. count_log. lia.
      * rewrite He3. unfold x2. cbn [expand_log]. count_log. lia.
      * rewrite Hx3. unfold x2. cbn [_expanding]. congruence.
    + set (x2 := {| _expand_queue := l2;
                    _expand_attempts := <[p := S i]> (_expand_attempts x1);
                    _expanding := _expanding x1;
                    expand_log := expand_log x1 ++ [IndexCall p] |}).
      destruct (drain_loop_frame b x2 rq1) as (Hq3 & Hsame3 & rq3 & Hrq3 & Hprq3).
      { cbn. intros Hin. apply Hl2. by eapply in_take. }
      destruct (drain_loop valid b x2 rq1) as [x3 rq'] eqn:Hloop3.
      cbn [fst snd] in *. subst rq'.
      destruct Hsame3 as (Ha3 & Hc3 & He3 & Hx3).
      assert (p ∉ ((_expand_queue x3 ++ rq1 ++ rq3) ++ arrivals env)) as Hnotin.
      { rewrite Hq3. unfold x2. cbn [_expand_queue]. rewrite !elem_of_app.
        intros [[Hin|[Hin|Hin]]|Hin]; try done. apply Hl2. by eapply in_drop. }
      assert (calls_on p (expand_log x3) = S i) as Hcalls3.
      { rewrite Hc3. unfold x2. cbn [expand_log]. count_log. lia. }
      assert (expansions_of p (expand_log x3) = 0) as Hexps3.
      { rewrite He3. unfold x2. cbn [expand_log]. count_log. lia. }
      assert (_expand_attempts x3 !! p = Some (S i)) as Hatt3.
      { rewrite Ha3. unfold x2. cbn [_expand_attempts]. apply lookup_insert_eq. }
      cbn [set_queue _expand_queue].
      destruct (negb _ || _); cbn [fst]; split;
        cbn [_finalize_expansion set_queue _expand_queue _expand_attempts expand_log]; done.
Qed.

(** Once [p] has left the queue, no tick changes what is recorded for it. *)
Lemma tick_settled env c e a x :
  settled p c e a x → p ∉ arrivals env →
  settled p c e a (_process_expand_queue_step valid env x).1.
Proof.
  intros [Hq Hc He Ha] Harr. unfold _process_expand_queue_step.
  destruct (_expanding x); cbn [negb fst]; [|done].
  destruct (drain_loop_frame MAX_PER_TICK x []) as (Hq1 & Hsame & rq & Hrq & Hprq).
  { intros Hin. apply Hq. by eapply in_take. }
  destruct (drain_loop valid MAX_PER_TICK x []) as [x1 rq'] eqn:Hloop.
  cbn [fst snd] in *. subst rq'. cbn [app] in *.
  destruct Hsame as (Ha1 & Hc1 & He1 & Hx1).
  assert (p ∉ ((_expand_queue x1 ++ rq) ++ arrivals env)) as Hnotin.
  { rewrite Hq1, !elem_of_app. intros [[Hin|Hin]|Hin]; try done.
    apply Hq. by eapply in_drop. }
  cbn [set_queue _expand_queue].
  destruct (negb _ || _); cbn [fst]; split;
    cbn [_finalize_expansion set_queue _expand_queue _expand_attempts expand_log];
    congruence.
Qed.


(** *** The drain over many ticks *)

Variable envs : nat → tick_env.
Hypothesis no_rearrival : ∀ t, p ∉ arrivals (envs t).

Lemma drain_one t x :
  drain valid envs t 1 x = (_process_expand_queue_step valid (envs t) x).1.
Proof. cbn. by destruct (_process_expand_queue_step valid (envs t) x) as [x' []]. Qed.

Lemma drain_stopped t n x : _expanding x = false → drain valid envs t n x = x.
Proof.
  intros Hx. destruct n as [|n]; [done|].
  cbn. unfold _process_expand_queue_step. by rewrite Hx.
Qed.

Lemma drain_add t n m x :
  drain valid envs t (n + m) x = drain valid envs (t + n) m (drain valid envs t n x).
Proof.
  revert t x. induction n as [|n IH]; intros t x.
  - cbn. by rewrite Nat.add_0_r.
  - cbn [Nat.add drain].
    pose proof (tick_not_rescheduled (envs t) x) as Hstop.
    destruct (_process_expand_queue_step valid (envs t) x) as [x' o]. cbn [fst snd] in Hstop.
    destruct o.
    + by rewrite drain_stopped by auto.
    + rewrite IH. f_equal. lia.
    + by rewrite drain_stopped by auto.
Qed.

Lemma drain_settled t n c e a x :
  settled p c e a x → settled p c e a (drain valid envs t n x).
Proof.
  revert t x. induction n as [|n IH]; intros t x Hs; [done|].
  cbn [drain]. pose proof (tick_settled (envs t) c e a x Hs (no_rearrival t)) as Hs'.
  destruct (_process_expand_queue_step valid (envs t) x) as [x' o]. cbn [fst] in Hs'.
  destruct o; auto.
Qed.

(** A pending path is reached after finitely many ticks. *)
Lemma pending_reached i pos : ∀ l1 l2 x t,
  length l1 = pos → pending p i l1 l2 x →
  ∃ m, if valid p i then settled p (S i) 1 None (drain valid envs t m x)
       else if S i <=? 8 then ∃ l1' l2', pending p (S i) l1' l2' (drain valid envs t m x)
       else settled p (S i) 0 (Some (S i)) (drain valid envs t m x).
Proof.
  induction (lt_wf pos) as [pos _ IH]. intros l1 l2 x t Hpos Hpend.
  destruct (decide (pos < MAX_PER_TICK)) as [Hnear|Hfar].
  - exists 1. rewrite drain_one.
    pose proof (tick_pending_near (envs t) i l1 l2 x Hpend) as Htick.
    cbn zeta in Htick. specialize (Htick ltac:(lia) (no_rearrival t)).
    destruct (valid p i); [done|]. destruct (S i <=? 8); [|done]. by destruct Htick.
  - destruct (tick_pending_far (envs t) i l1 l2 x Hpend) as (Hres & l2' & Hpend');
      [lia|apply no_rearrival|].
    destruct (IH (pos - MAX_PER_TICK) ltac:(unfold MAX_PER_TICK in *; lia)
                 (drop MAX_PER_TICK l1) l2'
                 (_process_expand_queue_step valid (envs t) x).1 (S t)) as [m Hm].
    { rewrite length_drop. lia. }
    { done. }
    exists (S m). cbn [drain].
    destruct (_process_expand_queue_step valid (envs t) x) as [x' o].
    cbn [fst snd] in *. by subst o.
Qed.

Lemma tick_retrying env x :
  (∀ i, valid p i = false) → p ∉ arrivals env →
  retrying p x → retrying p (_process_expand_queue_step valid env x).1.
Proof.
  intros Hnever Harr [(i & l1 & l2 & Hi & Hpend)|Hs].
  - destruct (decide (length l1 < MAX_PER_TICK)) as [Hnear|Hfar].
    + pose proof (tick_pending_near env i l1 l2 x Hpend Hnear Harr) as Htick.
      cbn zeta in Htick. rewrite Hnever in Htick.
      destruct (Nat.leb_spec (S i) 8) as [Hle|Hgt].
      * destruct Htick as (_ & l1' & l2' & Hpend'). left. by exists (S i), l1', l2'.
      * right. by replace i with 8 in Htick by lia.
    + destruct (tick_pending_far env i l1 l2 x Hpend) as (_ & l2' & Hpend'); [lia|done|].
      left. by exists i, (drop MAX_PER_TICK l1), l2'.
  - right. by apply tick_settled.
Qed.

Lemma drain_retrying t n x :
  (∀ i, valid p i = false) → retrying p x → retrying p (drain valid envs t n x).
Proof.
  intros Hnever. revert t x. induction n as [|n IH]; intros t x Hr; [done|].
  cbn [drain]. pose proof (tick_retrying (envs t) x Hnever (no_rearrival t) Hr) as Hr'.
  destruct (_process_expand_queue_step valid (envs t) x) as [x' o]. cbn [fst] in Hr'.
  destruct o; auto.
Qed.

Lemma retrying_bound x :
  retrying p x → calls_on p (expand_log x) ≤ 9 ∧ expansions_of p (expand_log x) = 0.
Proof.
  intros [(i & l1 & l2 & Hi & [])|[]]; split; (lia || done).
Qed.

(** The skip is reached: after the ninth failed attempt. *)
Lemma never_valid_settles k : ∀ i l1 l2 x t,
  i + k = 8 → (∀ i, valid p i = false) → pending p i l1 l2 x →
  ∃ N, settled p 9 0 (Some 9) (drain valid envs t N x).
Proof.
  induction k as [|k IH]; intros i l1 l2 x t Hik Hnever Hpend.
  - destruct (pending_reached i (length l1) l1 l2 x t eq_refl Hpend) as [m Hm].
    rewrite Hnever in Hm. replace i with 8 in Hm by lia. by exists m.
  - destruct (pending_reached i (length l1) l1 l2 x t eq_refl Hpend) as [m Hm].
    rewrite Hnever in Hm. destruct (Nat.leb_spec (S i) 8); [|lia].
    destruct Hm as (l1' & l2' & Hpend').
    destruct (IH (S i) l1' l2' (drain valid envs t m x) (t + m)) as [N HN];
      [lia|done|done|].
    exists (m + N). by rewrite drain_add.
Qed.

(** The expansion is reached: at the first attempt the model answers. *)
Lemma first_valid_settles j k : ∀ i l1 l2 x t,
  i + k = j → j ≤ 8 → (∀ i, i < j → valid p i = false) → valid p j = true →
  pending p i l1 l2 x →
  ∃ N, settled p (S j) 1 None (drain valid envs t N x).
Proof.
  induction k as [|k IH]; intros i l1 l2 x t Hik Hj Hfail Hok Hpend.
  - destruct (pending_reached i (length l1) l1 l2 x t eq_refl Hpend) as [m Hm].
    replace i with j in Hm by lia. rewrite Hok in Hm. by exists m.
  - destruct (pending_reached i (length l1) l1 l2 x t eq_refl Hpend) as [m Hm].
    rewrite Hfail in Hm by lia. destruct (Nat.leb_spec (S i) 8); [|lia].
    destruct Hm as (l1' & l2' & Hpend').
    destruct (IH (S i) l1' l2' (drain valid envs t m x) (t + m)) as [N HN];
      [lia|done|done|done|done|].
    exists (m + N). by rewrite drain_add.
Qed.

Lemma settled_from t N n c e a x :
  settled p c e a (drain valid envs t N x) → N ≤ n →
  settled p c e a (drain valid envs t n x).
Proof.
  intros Hs Hn. replace n with (N + (n - N)) by lia.
  rewrite drain_add. by apply drain_settled.
Qed.

End expand_retry.

Section expand_retry_claim.

Import MainWindow.

(** C5. Take a path [p] that is queued once, with a fresh retry counter, in
    an active drain whose producer does not send [p] again. If the model
    index of [p] is never valid, the model is asked for it at most nine
    times and [p] is never expanded, and from some tick on it has been asked
    exactly nine times and [p] is out of the queue for good. If the index
    becomes valid at the attempt number [j + 1], with [j ≤ 8], then from
    some tick on [p] has been asked for [j + 1] times and expanded once, it
    is out of the queue and its retry counter is cleared. *)
Theorem expansion_retries_are_bounded
    (valid : string → nat → bool) (envs : nat → tick_env)
    (x : expander) (p : string) (l1 l2 : list string) :
  _expanding x = true →
  _expand_queue x = l1 ++ p :: l2 → p ∉ l1 → p ∉ l2 →
  _expand_attempts x !! p = None →
  calls_on p (expand_log x) = 0 → expansions_of p (expand_log x) = 0 →
  (∀ t, p ∉ arrivals (envs t)) →
  ((∀ i, valid p i = false) →
     (∀ n, calls_on p (expand_log (drain valid envs 0 n x)) ≤ 9
           ∧ expansions_of p (expand_log (drain valid envs 0 n x)) = 0)
     ∧ ∃ N, ∀ n, N ≤ n →
         calls_on p (expand_log (drain valid envs 0 n x)) = 9
         ∧ p ∉ _expand_queue (drain valid envs 0 n x))
  ∧ (∀ j, j ≤ 8 → (∀ i, i < j → valid p i = false) → valid p j = true →
     ∃ N, ∀ n, N ≤ n →
         calls_on p (expand_log (drain valid envs 0 n x)) = S j
         ∧ expansions_of p (expand_log (drain valid envs 0 n x)) = 1
         ∧ _expand_attempts (drain valid envs 0 n x) !! p = None
         ∧ p ∉ _expand_queue (drain valid envs 0 n x)).
Proof.
  intros Hexp Hq Hl1 Hl2 Hatt Hcalls Hexps Harr.
  assert (pending p 0 l1 l2 x) as Hpend.
  { split; try done. unfold attempts_of. by rewrite Hatt. }
  split.
  - intros Hnever. split.
    + intros n. apply retrying_bound, drain_retrying; [done..|].
      left. exists 0, l1, l2. split; [lia|done].
    + destruct (never_valid_settles valid p envs Harr 8 0 l1 l2 x 0) as [N HN]; [done..|].
      exists N. intros n Hn.
      destruct (settled_from valid p envs Harr 0 N n _ _ _ x HN Hn). done.
  - intros j Hj Hfail Hok.
    destruct (first_valid_settles valid p envs Harr j j 0 l1 l2 x 0) as [N HN]; [done..|].
    exists N. intros n Hn.
    destruct (settled_from valid p envs Harr 0 N n _ _ _ x HN Hn). done.
Qed.

Lemma expansion_retries_are_bounded_witness :
  let x := {| _expand_queue := ["/r/a"; "/r/locked"; "/r/b"]; _expand_attempts := ∅;
              _expanding := true; expand_log := [] |} in
  let envs := fun _ : nat => {| arrivals := []; thread_running := false |} in
  let valid := fun (folder : string) (_ : nat) => negb (bool_decide (folder = "/r/locked")) in
  (∀ n, calls_on "/r/locked" (expand_log (drain valid envs 0 n x)) ≤ 9)
  ∧ calls_on "/r/locked" (expand_log (drain valid envs 0 9 x)) = 9
  ∧ _expand_queue (drain valid envs 0 9 x) = [].
Proof.
  intros x envs valid.
  destruct (expansion_retries_are_bounded valid envs x "/r/locked" ["/r/a"] ["/r/b"])
    as [Hnever _].
  - reflexivity.
  - reflexivity.
  - apply not_elem_of_cons. split; [discriminate|apply not_elem_of_nil].
  - apply not_elem_of_cons. split; [discriminate|apply not_elem_of_nil].
  - reflexivity.
  - reflexivity.
  - reflexivity.
  - intros t. apply not_elem_of_nil.
  - destruct Hnever as [Hbound _]; [done|].
    split; [intros n; apply Hbound|]. split; vm_compute; reflexivity.
Defined.

End expand_retry_claim.

(** ** Paths *)

Section paths.

Import OsPath.

Local Arguments String.append !_ _ / : simpl nomatch.
Local Arguments ascii_dec : simpl never.

Lemma count_app c (s t : string) : PyStr.count c (s +:+ t) = PyStr.count c s + PyStr.count c t.
Proof. induction s as [|a s IH]; [done|]. cbn. rewrite IH. lia. Qed.

Lemma endswith_app c (s t : string) :
  t ≠ EmptyString → PyStr.endswith c (s +:+ t) = PyStr.endswith c t.
Proof.
  intros Ht. induction s as [|a s IH]; [done|].
  cbn. destruct (s +:+ t) eqn:Hst; [|done].
  destruct s; cbn in Hst; [done|discriminate].
Qed.

Lemma valid_name_startswith n :
  valid_name n → PyStr.startswith n (String sep EmptyString) = false.
Proof.
  intros [Hne Hc]. destruct n as [|a n]; [done|]. cbn in *.
  destruct (ascii_dec sep a) as [<-|]; [|done].
  by destruct (ascii_dec sep sep).
Qed.

Lemma valid_name_endswith n : valid_name n → PyStr.endswith sep n = false.
Proof.
  intros [Hne Hc]. induction n as [|a n IH]; [done|].
  cbn in Hc. destruct (ascii_dec a sep); [done|]. cbn in Hc.
  destruct n as [|b n]; cbn; [by destruct (ascii_dec a sep)|].
  apply IH; done.
Qed.

(** On a plain directory and a valid name, [join] puts one separator in
    between. *)
Lemma join_plain d n : plain_path d → valid_name n → join d n = d +:+ String sep n.
Proof.
  intros [Hd He] Hn. unfold join. rewrite valid_name_startswith by done.
  destruct (string_dec d EmptyString); [done|]. by rewrite He.
Qed.

Lemma plain_join d n : plain_path d → valid_name n → plain_path (join d n).
Proof.
  intros Hd Hn. rewrite join_plain by done. split.
  - by destruct d.
  - rewrite endswith_app by done.
    destruct Hn as [Hne Hc]. destruct n as [|a n]; [done|].
    change (PyStr.endswith sep (String sep (String a n))) with (PyStr.endswith sep (String a n)).
    by apply valid_name_endswith.
Qed.

Lemma depth_join d n :
  plain_path d → valid_name n →
  FolderSizeWorker.depth (join d n) = S (FolderSizeWorker.depth d).
Proof.
  intros Hd Hn. rewrite join_plain by done. unfold FolderSizeWorker.depth.
  rewrite count_app. cbn. destruct (ascii_dec sep sep); [|done].
  destruct Hn as [_ ->]. lia.
Qed.

Lemma head_app_sep d n :
  PyStr.count sep n = 0 → head (d +:+ String sep n) = d +:+ String sep EmptyString.
Proof.
  intros Hn. induction d as [|a d IH]; cbn.
  - rewrite Hn. cbn. by destruct (ascii_dec sep sep).
  - rewrite count_app. cbn. destruct (ascii_dec sep sep); [|done].
    rewrite IH. by destruct (PyStr.count sep d + _) eqn:?; [lia|].
Qed.

Lemma rstrip_sep_plain d :
  plain_path d → rstrip_sep (d +:+ String sep EmptyString) = d.
Proof.
  intros [Hd He]. induction d as [|a d IH]; [done|].
  cbn. destruct d as [|b d].
  - cbn in *. destruct (ascii_dec sep sep); [|done]. by destruct (ascii_dec a sep).
  - rewrite IH by done. done.
Qed.

(** The [dirname] of a directory listed in a plain directory is that
    directory. *)
Lemma dirname_join d n : plain_path d → valid_name n → dirname (join d n) = d.
Proof.
  intros Hd Hn. rewrite join_plain by done. unfold dirname.
  rewrite head_app_sep by apply Hn. rewrite rstrip_sep_plain by done.
  destruct Hd as [Hd _]. by destruct d.
Qed.

Lemma head_length p : String.length (head p) ≤ String.length p.
Proof.
  induction p as [|a p IH]; [done|]. cbn [head].
  destruct (0 <? PyStr.count sep p); cbn [String.length]; [lia|].
  destruct (ascii_dec a sep); cbn [String.length]; lia.
Qed.

Lemma head_no_sep p : PyStr.count sep p = 0 → head p = EmptyString.
Proof.
  induction p as [|a p IH]; [done|]. cbn [head PyStr.count].
  destruct (ascii_dec a sep); [done|]. cbn [Nat.add]. intros Hc.
  by rewrite Hc.
Qed.

Lemma head_endswith p : head p = EmptyString ∨ PyStr.endswith sep (head p) = true.
Proof.
  induction p as [|a p IH]; [by left|]. cbn [head].
  destruct (0 <? PyStr.count sep p) eqn:Hc.
  - right. destruct IH as [IH|IH].
    + exfalso. apply Nat.ltb_lt in Hc.
      clear -IH Hc. induction p as [|b p IHp]; cbn [head PyStr.count] in *; [lia|].
      destruct (0 <? PyStr.count sep p) eqn:Hp; [done|].
      destruct (ascii_dec b sep); [done|]. apply Nat.ltb_ge in Hp. lia.
    + cbn [PyStr.endswith]. by destruct (head p).
  - destruct (ascii_dec a sep) as [->|]; [right|by left].
    cbn. by destruct (ascii_dec sep sep).
Qed.

Lemma rstrip_sep_length s : String.length (rstrip_sep s) ≤ String.length s.
Proof.
  induction s as [|a s IH]; [done|]. cbn [rstrip_sep].
  destruct (rstrip_sep s); cbn [String.length] in *; [|lia].
  destruct (ascii_dec a sep); cbn [String.length]; lia.
Qed.

(** The [dirname] of a plain path is shorter than the path. *)
Lemma dirname_shorter p : plain_path p → String.length (dirname p) < String.length p.
Proof.
  intros [Hp He]. assert (String.length (head p) < String.length p) as Hlt.
  { pose proof (head_length p) as Hle.
    destruct (decide (String.length (head p) = String.length p)) as [Heq|]; [|lia].
    exfalso. assert (head p = p) as Hhp.
    { clear -Heq. induction p as [|a p IH]; [done|]. cbn [head] in *.
      destruct (0 <? PyStr.count sep p).
      - f_equal. apply IH. cbn [String.length] in Heq. lia.
      - destruct (ascii_dec a sep); cbn [String.length] in Heq; [|lia].
        destruct p; [done|]. cbn [String.length] in Heq. lia. }
    destruct (head_endswith p) as [H|H]; rewrite Hhp in H; congruence. }
  unfold dirname. pose proof (rstrip_sep_length (head p)) as Hr.
  destruct (rstrip_sep (head p)); lia.
Qed.

End paths.

(** ** Directory trees *)

Section trees.

Import OsPath.

Local Arguments String.append !_ _ / : simpl nomatch.
Local Arguments ascii_dec : simpl never.

Variable getsize : string → option N.

(** Induction on a tree, with the property at hand for every
    sub-directory. *)
Lemma Dir_subdirs_ind (P : Dir → Prop) :
  (∀ fs ss, Forall (fun ns : string * Dir => P ns.2) ss → P (MkDir fs ss)) →
  ∀ d, P d.
Proof.
  intros H. fix IH 1. intros [fs ss]. apply H.
  induction ss as [|[n s] ss IHss]; constructor; [apply IH|apply IHss].
Qed.

Lemma os_walk_eq top fs ss :
  os_walk top (MkDir fs ss)
  = (top, map fst ss, fs) :: flat_map (fun ns => os_walk (join top ns.1) ns.2) ss.
Proof.
  cbn [os_walk]. f_equal. induction ss as [|[n s] ss IH]; [done|].
  cbn [flat_map fst snd]. by rewrite IH.
Qed.

Lemma tree_size_eq top fs ss :
  tree_size getsize top (MkDir fs ss)
  = (own_size getsize top fs
     + sumN (map (fun ns => tree_size getsize (join top ns.1) ns.2) ss))%N.
Proof.
  cbn [tree_size]. f_equal. induction ss as [|[n s] ss IH]; [done|].
  cbn [map sumN foldr fst snd]. by rewrite IH.
Qed.

Lemma dir_table_eq top fs ss :
  dir_table getsize top (MkDir fs ss)
  = (top, (own_size getsize top fs, tree_size getsize top (MkDir fs ss)))
      :: flat_map (fun ns => dir_table getsize (join top ns.1) ns.2) ss.
Proof.
  cbn [dir_table]. f_equal. induction ss as [|[n s] ss IH]; [done|].
  cbn [flat_map fst snd]. by rewrite IH.
Qed.

Lemma wf_dir_eq fs ss :
  wf_dir (MkDir fs ss)
  ↔ NoDup (map fst ss) ∧ Forall (fun ns : string * Dir => valid_name ns.1 ∧ wf_dir ns.2) ss.
Proof.
  cbn [wf_dir]. apply and_iff_compat_l.
  induction ss as [|[n s] ss IH].
  - split; [constructor|done].
  - rewrite Forall_cons, <- IH. cbn [fst snd]. tauto.
Qed.

(** The directories of the table are those of the walk, and the first
    column of sizes is what the files of each visit add up to. *)
Lemma owns_dir_table top t :
  owns (dir_table getsize top t) = visit_owns getsize (os_walk top t).
Proof.
  revert top. induction t as [fs ss IH] using Dir_subdirs_ind. intros top.
  rewrite dir_table_eq, os_walk_eq. unfold owns, visit_owns in *.
  cbn [map fst snd]. f_equal.
  induction IH as [|[n s] ss Hs _ IHss]; [done|].
  cbn [flat_map fst snd] in *. by rewrite !map_app, Hs, IHss.
Qed.

Lemma under_refl top : under top top.
Proof. exists EmptyString. split; [by rewrite append_nil_r|by left]. Qed.

Lemma under_join top n c :
  plain_path top → valid_name n → under (join top n) c → under top c.
Proof.
  intros Ht Hn (rest & -> & _). rewrite join_plain by done.
  exists (String sep n +:+ rest). split.
  - by rewrite append_assoc.
  - right. cbn. by destruct (ascii_dec sep sep).
Qed.

Lemma under_length top c : under top c → String.length top ≤ String.length c.
Proof. intros (rest & -> & _). rewrite append_length. lia. Qed.

Lemma under_join_length top n c :
  plain_path top → valid_name n → under (join top n) c →
  String.length top < String.length c.
Proof.
  intros Ht Hn Hu. apply under_length in Hu.
  rewrite join_plain, append_length in Hu by done. cbn in Hu. lia.
Qed.

(** Two valid names with a common continuation are the same name. *)
Lemma valid_name_prefix_eq n1 n2 r1 r2 :
  PyStr.count sep n1 = 0 → PyStr.count sep n2 = 0 →
  (r1 = EmptyString ∨ PyStr.startswith r1 (String sep EmptyString) = true) →
  (r2 = EmptyString ∨ PyStr.startswith r2 (String sep EmptyString) = true) →
  n1 +:+ r1 = n2 +:+ r2 → n1 = n2.
Proof.
  revert n2. induction n1 as [|a n1 IH]; intros [|b n2] H1 H2 Hr1 Hr2 Heq; try done.
  - cbn in Heq. subst r1. destruct Hr1 as [|Hr1]; [done|].
    cbn in Hr1, H2. destruct (ascii_dec sep b) as [<-|]; [|done].
    by destruct (ascii_dec sep sep).
  - cbn in Heq. subst r2. destruct Hr2 as [|Hr2]; [done|].
    cbn in Hr2, H1. destruct (ascii_dec sep a) as [<-|]; [|done].
    by destruct (ascii_dec sep sep).
  - cbn in Heq. injection Heq as -> Heq. f_equal.
    cbn in H1, H2. destruct (ascii_dec b sep); [done|].
    eapply IH; eauto.
Qed.

(** The sub-directories of a directory have no path in common. *)
Lemma under_siblings top n1 n2 c :
  plain_path top → valid_name n1 → valid_name n2 →
  under (join top n1) c → under (join top n2) c → n1 = n2.
Proof.
  intros Ht Hn1 Hn2 (r1 & -> & Hr1) (r2 & Heq & Hr2).
  rewrite !join_plain, !append_assoc in Heq by done.
  apply (inj (String.append top)) in Heq. cbn in Heq. injection Heq as Heq.
  apply (valid_name_prefix_eq n1 n2 r1 r2); [apply Hn1|apply Hn2|done..].
Qed.


Lemma elem_of_flat_map {A B : Type} (f : A → list B) (l : list A) (y : B) :
  y ∈ flat_map f l ↔ ∃ x, x ∈ l ∧ y ∈ f x.
Proof.
  rewrite list_elem_of_In, in_flat_map. setoid_rewrite list_elem_of_In. done.
Qed.

Lemma elem_of_map {A B : Type} (f : A → B) (l : list A) (y : B) :
  y ∈ map f l ↔ ∃ x, y = f x ∧ x ∈ l.
Proof. apply (list_elem_of_fmap f l y). Qed.

Lemma elem_of_map_2 {A B : Type} (f : A → B) (l : list A) (x : A) :
  x ∈ l → f x ∈ map f l.
Proof. intros Hx. apply elem_of_map. by exists x. Qed.

(** Every directory of the table of a well-formed tree on a plain path is
    itself a plain path, and lies under the top. *)
Lemma dir_table_under t : ∀ top,
  plain_path top → wf_dir t →
  ∀ e, e ∈ dir_table getsize top t → plain_path e.1 ∧ under top e.1.
Proof.
  induction t as [fs ss IH] using Dir_subdirs_ind. intros top Ht Hwf e He.
  apply wf_dir_eq in Hwf as [_ Hss].
  rewrite dir_table_eq in He. apply elem_of_cons in He as [->|He].
  - split; [done|apply under_refl].
  - apply elem_of_flat_map in He as ([n s] & Hns & He). cbn [fst snd] in He.
    rewrite Forall_forall in IH, Hss.
    destruct (Hss _ Hns) as [Hn Hs]. cbn [fst snd] in *.
    destruct (IH _ Hns (join top n) (plain_join _ _ Ht Hn) Hs e He) as [Hp Hu].
    split; [done|]. by eapply under_join.
Qed.

Lemma dir_table_subdir_longer top n s e :
  plain_path top → valid_name n → wf_dir s →
  e ∈ dir_table getsize (join top n) s → String.length top < String.length e.1.
Proof.
  intros Ht Hn Hs He.
  destruct (dir_table_under s (join top n) (plain_join _ _ Ht Hn) Hs e He) as [_ Hu].
  by eapply under_join_length.
Qed.

(** No directory occurs twice in the table. *)
Lemma dir_table_NoDup t : ∀ top,
  plain_path top → wf_dir t → NoDup (map fst (dir_table getsize top t)).
Proof.
  induction t as [fs ss IH] using Dir_subdirs_ind. intros top Ht Hwf.
  apply wf_dir_eq in Hwf as [Hnames Hss].
  rewrite dir_table_eq. cbn [map fst]. apply NoDup_cons. split.
  - intros Hin. apply elem_of_map in Hin as (e & Htop & He).
    apply elem_of_flat_map in He as ([n s] & Hns & He). cbn [fst snd] in He.
    rewrite Forall_forall in Hss. destruct (Hss _ Hns) as [Hn Hs]. cbn [fst snd] in *.
    pose proof (dir_table_subdir_longer top n s e Ht Hn Hs He). rewrite <- Htop in *. lia.
  - induction ss as [|[n s] ss IHss]; [constructor|].
    apply Forall_cons in IH as [IHs IHrest]. apply Forall_cons in Hss as [[Hn Hs] Hss].
    cbn [map fst] in Hnames. apply NoDup_cons in Hnames as [Hnotin Hnames].
    cbn [flat_map fst snd] in *. rewrite map_app. apply NoDup_app. split; [|split].
    + apply IHs; [by apply plain_join|done].
    + intros c Hc1 Hc2. apply Hnotin.
      apply elem_of_map in Hc1 as (e1 & -> & He1).
      apply elem_of_map in Hc2 as (e2 & Heq & He2).
      apply elem_of_flat_map in He2 as ([n' s'] & Hns' & He2). cbn [fst snd] in He2.
      rewrite Forall_forall in Hss. destruct (Hss _ Hns') as [Hn' Hs']. cbn [fst snd] in *.
      destruct (dir_table_under s (join top n) (plain_join _ _ Ht Hn) Hs e1 He1) as [_ Hu1].
      destruct (dir_table_under s' (join top n') (plain_join _ _ Ht Hn') Hs' e2 He2)
        as [_ Hu2].
      rewrite <- Heq in Hu2.
      rewrite (under_siblings top n n' e1.1 Ht Hn Hn' Hu1 Hu2).
      by apply (elem_of_map_2 fst _ (n', s')).
    + by apply IHss.
Qed.

(** Every directory of the table but the top has its [dirname] in the
    table, one separator less deep. *)
Lemma dir_table_parent t : ∀ top,
  plain_path top → wf_dir t →
  ∀ e, e ∈ dir_table getsize top t →
  e.1 = top
  ∨ (dirname e.1 ∈ map fst (dir_table getsize top t)
     ∧ FolderSizeWorker.depth e.1 = S (FolderSizeWorker.depth (dirname e.1))).
Proof.
  induction t as [fs ss IH] using Dir_subdirs_ind. intros top Ht Hwf e He.
  apply wf_dir_eq in Hwf as [_ Hss].
  rewrite dir_table_eq in He |- *. apply elem_of_cons in He as [->|He]; [by left|].
  right. apply elem_of_flat_map in He as ([n s] & Hns & He). cbn [fst snd] in He.
  rewrite Forall_forall in IH, Hss.
  destruct (Hss _ Hns) as [Hn Hs]. cbn [fst snd] in *.
  destruct (IH _ Hns (join top n) (plain_join _ _ Ht Hn) Hs e He) as [->|[Hin Hdepth]].
  - rewrite dirname_join by done. split; [apply elem_of_cons; by left|].
    by apply depth_join.
  - split; [|done]. cbn [map fst]. apply elem_of_cons. right.
    apply elem_of_map in Hin as (e' & -> & He').
    apply elem_of_map_2, elem_of_flat_map. by exists (n, s).
Qed.


Lemma sumN_app l1 l2 : sumN (l1 ++ l2) = (sumN l1 + sumN l2)%N.
Proof. induction l1 as [|a l1 IH]; cbn; [done|]. fold (sumN (l1 ++ l2)) (sumN l1). lia. Qed.

Lemma child_sum_app E1 E2 d : child_sum (E1 ++ E2) d = (child_sum E1 d + child_sum E2 d)%N.
Proof. unfold child_sum. by rewrite filter_app, map_app, sumN_app. Qed.

Lemma child_sum_cons e E d :
  child_sum (e :: E) d
  = ((if decide (dirname e.1 = d) then e.2 else 0) + child_sum E d)%N.
Proof.
  unfold child_sum. rewrite filter_cons.
  destruct (decide (dirname e.1 = d)); [done|]. lia.
Qed.

Lemma child_sum_none E d : (∀ e, e ∈ E → dirname e.1 ≠ d) → child_sum E d = 0%N.
Proof.
  induction E as [|e E IH]; intros H; [done|].
  rewrite child_sum_cons, decide_False, IH; [done| |].
  - intros e' He'. apply H, elem_of_cons. by right.
  - apply H, elem_of_cons. by left.
Qed.

Lemma child_sum_perm E1 E2 d : E1 ≡ₚ E2 → child_sum E1 d = child_sum E2 d.
Proof.
  induction 1 as [|e E1 E2 _ IH|e1 e2 E|E1 E2 E3 _ IH1 _ IH2].
  - done.
  - by rewrite !child_sum_cons, IH.
  - rewrite !child_sum_cons. lia.
  - congruence.
Qed.

Lemma child_sum_ge E d c s : (c, s) ∈ E → dirname c = d → (s ≤ child_sum E d)%N.
Proof.
  intros Hin Hd. induction E as [|e E IH]; [by apply elem_of_nil in Hin|].
  rewrite child_sum_cons. apply elem_of_cons in Hin as [<-|Hin].
  - cbn [fst snd]. rewrite decide_True by done. lia.
  - specialize (IH Hin). lia.
Qed.

Lemma sizes_app E1 E2 : sizes (E1 ++ E2) = sizes E1 ++ sizes E2.
Proof. apply map_app. Qed.

Lemma elem_of_sizes E e : e ∈ sizes E ↔ ∃ e', e = (e'.1, e'.2.2) ∧ e' ∈ E.
Proof. apply elem_of_map. Qed.

(** For a directory that is not in the table of a tree, the tree adds to
    the sum of its children only through its top. *)
Lemma child_sum_outside top t d :
  plain_path top → wf_dir t → d ∉ map fst (dir_table getsize top t) →
  child_sum (dir_sizes getsize top t) d
  = if decide (dirname top = d) then tree_size getsize top t else 0%N.
Proof.
  intros Ht Hwf Hd.
  pose proof (dir_table_NoDup t top Ht Hwf) as Hnd.
  pose proof (dir_table_parent t top Ht Hwf) as Hpar.
  unfold dir_sizes. destruct t as [fs ss]. rewrite dir_table_eq in *.
  set (tail := flat_map _ ss) in *.
  cbn [sizes map fst snd] in *. rewrite child_sum_cons. cbn [fst snd].
  rewrite (child_sum_none (map _ tail)); [by rewrite N.add_0_r|].
  intros e He Hdir. apply elem_of_map in He as (e' & -> & He'). cbn [fst] in Hdir.
  apply NoDup_cons in Hnd as [Hnotin _].
  destruct (Hpar e') as [Htop|[Hin _]].
  - apply elem_of_cons. by right.
  - apply Hnotin. rewrite <- Htop. by apply elem_of_map_2.
  - apply Hd. by rewrite <- Hdir.
Qed.

(** The sub-directories other than the one a directory lies in add nothing
    to the sum of its children. *)
Lemma child_sum_other_subdirs top ss d :
  plain_path top → d ≠ top →
  Forall (fun ns : string * Dir => valid_name ns.1 ∧ wf_dir ns.2) ss →
  (∀ ns, ns ∈ ss → d ∉ map fst (dir_table getsize (join top ns.1) ns.2)) →
  child_sum (sizes (flat_map (fun ns => dir_table getsize (join top ns.1) ns.2) ss)) d = 0%N.
Proof.
  intros Ht Hd Hss Hout. induction ss as [|[n s] ss IH]; [done|].
  apply Forall_cons in Hss as [[Hn Hs] Hss]. cbn [flat_map fst snd] in *.
  rewrite sizes_app, child_sum_app.
  fold (dir_sizes getsize (join top n) s).
  rewrite child_sum_outside.
  - rewrite dirname_join, decide_False by done. rewrite IH; [done..|].
    intros ns Hns. apply Hout, elem_of_cons. by right.
  - by apply plain_join.
  - done.
  - apply (Hout (n, s)), elem_of_cons. by left.
Qed.

(** The rule of the rollup holds of the table of a tree: the size of a
    directory is the size of its own files plus the sizes of the
    directories whose [dirname] it is. *)
Lemma dir_table_rule t : ∀ top,
  plain_path top → wf_dir t →
  ∀ e, e ∈ dir_table getsize top t →
  e.2.2 = (e.2.1 + child_sum (dir_sizes getsize top t) e.1)%N.
Proof.
  induction t as [fs ss IH] using Dir_subdirs_ind. intros top Ht Hwf e He.
  pose proof Hwf as Hwf'. apply wf_dir_eq in Hwf' as [Hnames Hss].
  unfold dir_sizes. rewrite dir_table_eq in He |- *.
  cbn [sizes map fst snd]. rewrite child_sum_cons. cbn [fst snd].
  fold (sizes (flat_map (fun ns => dir_table getsize (join top ns.1) ns.2) ss)).
  apply elem_of_cons in He as [->|He].
  - cbn [fst snd]. rewrite decide_False.
    2:{ pose proof (dirname_shorter top Ht). intros Heq. rewrite Heq in *. lia. }
    rewrite tree_size_eq, N.add_0_l. f_equal. clear IH Hnames Hwf.
    induction ss as [|[n s] ss IHss]; [done|].
    apply Forall_cons in Hss as [[Hn Hs] Hss]. cbn [flat_map map fst snd sumN foldr] in *.
    rewrite sizes_app, child_sum_app.
    fold (dir_sizes getsize (join top n) s).
    rewrite child_sum_outside.
    + rewrite dirname_join, decide_True by done.
      fold (sumN (map (fun ns => tree_size getsize (join top ns.1) ns.2) ss)).
      by rewrite IHss.
    + by apply plain_join.
    + done.
    + intros Hin. apply elem_of_map in Hin as (e & Htop & He).
      pose proof (dir_table_subdir_longer top n s e Ht Hn Hs He). rewrite <- Htop in *. lia.
  - apply elem_of_flat_map in He as ([n s] & Hns & He). cbn [fst snd] in He.
    rewrite Forall_forall in IH.
    pose proof Hss as Hss'. rewrite Forall_forall in Hss'.
    destruct (Hss' _ Hns) as [Hn Hs]. cbn [fst snd] in *.
    pose proof (dir_table_subdir_longer top n s e Ht Hn Hs He) as Hlong.
    rewrite decide_False.
    2:{ pose proof (dirname_shorter top Ht). intros Heq. rewrite Heq in *. lia. }
    rewrite N.add_0_l.
    rewrite (IH _ Hns (join top n) (plain_join _ _ Ht Hn) Hs e He). f_equal.
    apply list_elem_of_split in Hns as (ss1 & ss2 & ->).
    rewrite flat_map_app. cbn [flat_map fst snd]. rewrite !sizes_app, !child_sum_app.
    rewrite map_app in Hnames. cbn [map fst] in Hnames.
    apply NoDup_app in Hnames as (_ & Hdisj & Hnd2).
    apply NoDup_cons in Hnd2 as [Hn2 _].
    apply Forall_app in Hss as [Hss1 Hss2]. apply Forall_cons in Hss2 as [_ Hss2].
    assert (∀ ns, (ns ∈ ss1 ∨ ns ∈ ss2) → valid_name ns.1 → wf_dir ns.2 →
                  e.1 ∉ map fst (dir_table getsize (join top ns.1) ns.2)) as Hout.
    { intros [n' s'] Hns' Hn' Hs' Hin. cbn [fst snd] in *.
      apply elem_of_map in Hin as (e' & Heq & He').
      destruct (dir_table_under s (join top n) (plain_join _ _ Ht Hn) Hs e He) as [_ Hu].
      destruct (dir_table_under s' (join top n') (plain_join _ _ Ht Hn') Hs' e' He')
        as [_ Hu'].
      rewrite <- Heq in Hu'.
      pose proof (under_siblings top n n' e.1 Ht Hn Hn' Hu Hu') as ->.
      destruct Hns' as [Hns'|Hns'].
      - apply (Hdisj n'); [by apply (elem_of_map_2 fst _ (n', s'))|].
        apply elem_of_cons. by left.
      - apply Hn2. by apply (elem_of_map_2 fst _ (n', s')). }
    assert (e.1 ≠ top) as Hne by (intros Heq; rewrite Heq in *; lia).
    rewrite Forall_forall in Hss1, Hss2.
    rewrite (child_sum_other_subdirs top ss1); [|done|done|by apply Forall_forall|].
    2:{ intros ns Hns'. apply Hout; [by left|apply Hss1; done..]. }
    rewrite (child_sum_other_subdirs top ss2); [|done|done|by apply Forall_forall|].
    2:{ intros ns Hns'. apply Hout; [by right|apply Hss2; done..]. }
    unfold dir_sizes. lia.
Qed.

End trees.

(** ** The sort of the rollup *)

Section sorting.

Import FolderSizeWorker.

Context {A : Type} (key : A → nat).

Lemma insert_desc_perm x l : insert_desc key x l ≡ₚ x :: l.
Proof.
  induction l as [|y l IH]; [done|]. cbn.
  destruct (key y <=? key x); [done|]. rewrite IH. apply Permutation_swap.
Qed.

Lemma sorted_reverse_perm l : sorted_reverse key l ≡ₚ l.
Proof.
  induction l as [|x l IH]; [done|]. cbn.
  fold (sorted_reverse key l). by rewrite insert_desc_perm, IH.
Qed.

Lemma insert_desc_descending x l : descending key l → descending key (insert_desc key x l).
Proof.
  unfold descending. induction 1 as [|y l Hl IH Hy]; cbn.
  - repeat constructor.
  - destruct (Nat.leb_spec (key y) (key x)) as [Hle|Hgt].
    + constructor; [by constructor|].
      constructor; [done|]. eapply Forall_impl; [exact Hy|]. cbn. lia.
    + constructor; [done|].
      rewrite insert_desc_perm. constructor; [lia|done].
Qed.

Lemma sorted_reverse_descending l : descending key (sorted_reverse key l).
Proof.
  induction l as [|x l IH]; [constructor|]. cbn. by apply insert_desc_descending.
Qed.

(** In a descending list, what follows an element has no larger key. *)
Lemma descending_after P x R y :
  descending key (P ++ x :: R) → y ∈ R → key y ≤ key x.
Proof.
  unfold descending. induction P as [|z P IH]; cbn; intros Hs Hy.
  - apply StronglySorted_inv in Hs as [_ Hall].
    rewrite Forall_forall in Hall. by apply Hall.
  - apply StronglySorted_inv in Hs as [Hs _]. by apply IH.
Qed.

End sorting.

Lemma insert_desc_map {A B : Type} (g : A → B) (key : B → nat) x l :
  map g (FolderSizeWorker.insert_desc (key ∘ g) x l)
  = FolderSizeWorker.insert_desc key (g x) (map g l).
Proof.
  induction l as [|y l IH]; [done|]. cbn.
  destruct (key (g y) <=? key (g x)); [done|]. cbn. by rewrite IH.
Qed.

(** Sorting the rows of a table by a key of their first column sorts that
    column. *)
Lemma sorted_reverse_map {A B : Type} (g : A → B) (key : B → nat) l :
  map g (FolderSizeWorker.sorted_reverse (key ∘ g) l)
  = FolderSizeWorker.sorted_reverse key (map g l).
Proof.
  induction l as [|x l IH]; [done|]. cbn.
  fold (FolderSizeWorker.sorted_reverse (key ∘ g) l).
  fold (FolderSizeWorker.sorted_reverse key (map g l)).
  by rewrite insert_desc_map, IH.
Qed.

(** ** FolderSizeWorker: a run that is not cancelled *)

Section size_run.

Import FolderSizeWorker OsPath.

Variable getsize : string → option N.

Lemma read_running_none w : _running w = None → read_running w = (true, w).
Proof. unfold read_running. by intros ->. Qed.

Lemma sum_files_none dirpath files s w :
  _running w = None →
  sum_files getsize dirpath files s w = (Some (s + own_size getsize dirpath files)%N, w).
Proof.
  intros Hw. revert s. induction files as [|f files IH]; intros s; cbn.
  - by rewrite N.add_0_r.
  - rewrite read_running_none by done. rewrite IH. do 2 f_equal.
    fold (own_size getsize dirpath files). lia.
Qed.

(** The first loop, not cancelled, records every directory of the walk
    with the sum of the sizes of its files. *)
Lemma walk_loop_none walk folders file_sizes w :
  _running w = None →
  walk_loop getsize walk folders file_sizes w
  = (Some (folders ++ map fst (visit_owns getsize walk),
           fill file_sizes (visit_owns getsize walk)), w).
Proof.
  intros Hw. revert folders file_sizes.
  induction walk as [|[[dirpath dirs] files] walk IH]; intros folders file_sizes; cbn.
  - by rewrite app_nil_r.
  - rewrite read_running_none, sum_files_none by done. rewrite IH.
    cbn. by rewrite <- app_assoc.
Qed.

Lemma fill_lookup l : ∀ m,
  NoDup (map fst l) →
  (∀ e, e ∈ l → fill m l !! e.1 = Some e.2)
  ∧ (∀ k, k ∉ map fst l → fill m l !! k = m !! k).
Proof.
  induction l as [|[d s] l IH]; intros m Hnd.
  - split; [intros e He; by apply elem_of_nil in He|done].
  - cbn [map fst] in Hnd. apply NoDup_cons in Hnd as [Hd Hnd].
    destruct (IH (<[d := s]> m) Hnd) as [IH1 IH2]. cbn [fill foldl fst snd]. split.
    + intros e He. apply elem_of_cons in He as [->|He]; [|by apply IH1].
      cbn [fst snd]. unfold fill in IH2. rewrite IH2 by done. apply lookup_insert_eq.
    + intros k Hk. cbn [map fst] in Hk. apply not_elem_of_cons in Hk as [Hkd Hk].
      unfold fill in IH2. rewrite IH2 by done. by apply lookup_insert_ne.
Qed.

Lemma reported_app tr1 tr2 : reported (tr1 ++ tr2) = reported tr1 ++ reported tr2.
Proof. apply flat_map_app. Qed.

(** The table [MainWindow.folder_sizes] is filled by the [folder_done]
    signals. *)
Lemma folder_sizes_fill tr : folder_sizes tr = fill ∅ (reported tr).
Proof.
  unfold folder_sizes. generalize (∅ : gmap string N).
  induction tr as [|e tr IH]; intros m; [done|].
  cbn [foldl]. rewrite IH. by destruct e.
Qed.

(** *** The rollup on a table that obeys its rule *)

Section rollup_rule.

Variable E : list (string * (N * N)).
Hypothesis E_NoDup : NoDup (map fst E).
Hypothesis E_rule : ∀ e, e ∈ E → e.2.2 = (e.2.1 + child_sum (sizes E) e.1)%N.
Hypothesis E_order :
  ∀ P e R, E = P ++ e :: R → ∀ e', e' ∈ e :: R → dirname e'.1 ≠ e.1.

Lemma rolled_current P e R T :
  E = P ++ e :: R → rolled E P T → T !! e.1 = Some e.2.2.
Proof.
  intros HE [Hin _]. rewrite Hin.
  2:{ rewrite HE, elem_of_app, elem_of_cons. tauto. }
  f_equal. rewrite (E_rule e).
  2:{ rewrite HE, elem_of_app, elem_of_cons. tauto. }
  f_equal. rewrite HE at 1. rewrite sizes_app, child_sum_app.
  rewrite (child_sum_none (sizes (e :: R))); [lia|].
  intros e0 He0. apply elem_of_sizes in He0 as (e' & -> & He'). cbn [fst].
  by eapply E_order.
Qed.

Lemma rolled_step P e R T :
  E = P ++ e :: R → rolled E P T → rolled E (P ++ [e]) (add_to_parent e.1 T).
Proof.
  intros HE Hrolled. pose proof (rolled_current P e R T HE Hrolled) as Hcur.
  destruct Hrolled as [Hin Hout].
  assert (dirname e.1 ≠ e.1) as Hself.
  { eapply (E_order P e R HE e). apply elem_of_cons. by left. }
  unfold add_to_parent, get0. rewrite Hcur. cbn [default].
  assert (∀ d, child_sum (sizes (P ++ [e])) d
               = (child_sum (sizes P) d
                  + if decide (dirname e.1 = d) then e.2.2 else 0)%N) as Hsum.
  { intros d. rewrite sizes_app, child_sum_app. cbn [sizes map].
    rewrite child_sum_cons. cbn [fst snd]. unfold child_sum. cbn. lia. }
  destruct (T !! dirname e.1) as [v|] eqn:Hq; split.
  - intros e0 He0. rewrite Hsum. destruct (decide (dirname e.1 = e0.1)) as [Heq|Hne].
    + rewrite <- Heq, lookup_insert_eq. f_equal.
      specialize (Hin e0 He0). rewrite <- Heq, Hq in Hin. injection Hin as ->.
      unfold id. lia.
    + rewrite lookup_insert_ne by done. rewrite (Hin e0 He0). f_equal. lia.
  - intros k Hk. rewrite lookup_insert_ne; [by apply Hout|].
    intros <-. by rewrite (Hout _ Hk) in Hq.
  - intros e0 He0. rewrite Hsum, decide_False.
    + rewrite (Hin e0 He0). f_equal. lia.
    + intros Heq. rewrite Heq, (Hin e0 He0) in Hq. done.
  - done.
Qed.

(** The second loop, not cancelled, reports every directory of the table
    with its size, in the order of the table. *)
Lemma rollup_reports R : ∀ P T i w total,
  E = P ++ R → _running w = None → rolled E P T →
  reported (emitted (rollup total i (map fst R) T w).2) = reported (emitted w) ++ sizes R.
Proof.
  induction R as [|e R IH]; intros P T i w total HE Hw Hrolled.
  - cbn. by rewrite app_nil_r.
  - cbn [map rollup]. rewrite read_running_none by done.
    rewrite (IH (P ++ [e])).
    + unfold emit. cbn [emitted]. rewrite !reported_app. cbn [reported flat_map app].
      rewrite app_nil_r, <- app_assoc. cbn [app sizes map]. do 3 f_equal.
      pose proof (rolled_step P e R T HE Hrolled) as [Hin _].
      pose proof (rolled_current P e R T HE Hrolled) as Hcur.
      assert (dirname e.1 ≠ e.1) as Hself.
      { eapply (E_order P e R HE e). apply elem_of_cons. by left. }
      unfold get0, add_to_parent.
      destruct (T !! dirname e.1); [rewrite lookup_insert_ne by done|];
        by rewrite Hcur.
    + by rewrite <- app_assoc.
    + done.
    + by eapply rolled_step.
Qed.

End rollup_rule.

End size_run.

(** ** FolderSizeWorker: the sizes of a tree on a plain root *)

Section size_of_tree.

Import FolderSizeWorker OsPath.

Variable getsize : string → option N.
Variable top : string.
Variable t : Dir.
Hypothesis top_plain : plain_path top.
Hypothesis t_wf : wf_dir t.

Lemma sorted_table_perm : (sorted_table getsize top t) ≡ₚ dir_table getsize top t.
Proof. apply sorted_reverse_perm. Qed.

Lemma elem_of_sorted_table e :
  e ∈ sorted_table getsize top t ↔ e ∈ dir_table getsize top t.
Proof. by rewrite sorted_table_perm. Qed.

Lemma sorted_table_NoDup : NoDup (map fst (sorted_table getsize top t)).
Proof.
  change (map fst (sorted_table getsize top t)) with (fst <$> (sorted_table getsize top t)).
  rewrite sorted_table_perm. by apply (dir_table_NoDup getsize t top).
Qed.

Lemma sorted_table_rule e :
  e ∈ sorted_table getsize top t →
  e.2.2 = (e.2.1 + child_sum (sizes (sorted_table getsize top t)) e.1)%N.
Proof.
  intros He. apply elem_of_sorted_table in He.
  rewrite (dir_table_rule getsize t top top_plain t_wf e He).
  f_equal. apply child_sum_perm. symmetry.
  apply (fmap_Permutation (fun e => (e.1, e.2.2))), sorted_table_perm.
Qed.

(** In the order of the rollup, no directory comes before one of its
    children. *)
Lemma sorted_table_order P e R :
  sorted_table getsize top t = P ++ e :: R →
  ∀ e', e' ∈ e :: R → dirname e'.1 ≠ e.1.
Proof.
  intros HE e' He' Hdir.
  assert (e ∈ dir_table getsize top t) as He.
  { apply elem_of_sorted_table.
    rewrite HE, elem_of_app, elem_of_cons. tauto. }
  assert (e' ∈ dir_table getsize top t) as He't.
  { apply elem_of_sorted_table. rewrite HE, elem_of_app. by right. }
  destruct (dir_table_parent getsize t top top_plain t_wf e' He't) as [Htop|[_ Hdepth]].
  - destruct (dir_table_under getsize t top top_plain t_wf e He) as [_ Hu].
    apply under_length in Hu. pose proof (dirname_shorter top top_plain).
    rewrite Htop in Hdir. rewrite Hdir in *. lia.
  - rewrite Hdir in Hdepth. apply elem_of_cons in He' as [->|He']; [lia|].
    pose proof (sorted_reverse_descending (depth ∘ fst) (dir_table getsize top t)) as Hs.
    fold (sorted_table getsize top t) in Hs. rewrite HE in Hs.
    pose proof (descending_after _ P e R e' Hs He') as Hle. cbn in Hle. lia.
Qed.

(** A run that is not cancelled reports every directory of the tree once,
    with the sum of the sizes of all files under it, deepest first. *)
Lemma size_run_reports_table :
  reported (compute_sizes getsize top t None) = sizes (sorted_table getsize top t).
Proof.
  unfold compute_sizes, run. rewrite walk_loop_none by done.
  cbn [app]. rewrite <- (owns_dir_table getsize top t).
  replace (map fst (owns (dir_table getsize top t)))
    with (map fst (dir_table getsize top t))
    by (unfold owns; rewrite map_map; by apply map_ext).
  rewrite <- (sorted_reverse_map fst depth). fold (sorted_table getsize top t).
  pose proof (rollup_reports (sorted_table getsize top t)
                sorted_table_rule sorted_table_order
                (sorted_table getsize top t) [] (fill ∅ (owns (dir_table getsize top t))) 0
                (init None) (length (map fst (dir_table getsize top t)))
                eq_refl eq_refl) as Hroll.
  destruct (rollup _ _ _ _ _) as [totals w2]. cbn [snd] in Hroll.
  unfold emit. cbn [emitted]. rewrite reported_app, Hroll; [by rewrite app_nil_r|].
  pose proof (dir_table_NoDup getsize t top top_plain t_wf) as Hnd.
  destruct (fill_lookup (owns (dir_table getsize top t)) ∅) as [Hin Hout].
  { unfold owns. rewrite map_map. by erewrite map_ext. }
  split.
  - intros e He. apply elem_of_sorted_table in He.
    specialize (Hin (e.1, e.2.1)). cbn [fst snd] in Hin. rewrite Hin.
    + f_equal. unfold child_sum. cbn. lia.
    + by apply (elem_of_map_2 (fun e => (e.1, e.2.1))).
  - intros k Hk. rewrite Hout; [done|].
    intros Hin'. apply Hk. unfold owns in Hin'. rewrite map_map in Hin'.
    apply elem_of_map in Hin' as (e & -> & He). cbn [fst].
    apply elem_of_map_2. by apply elem_of_sorted_table.
Qed.

(** The resulting table gives every directory of the tree the sum of the
    sizes of all files under it. *)
Lemma size_table_lookup d s :
  (d, s) ∈ dir_sizes getsize top t →
  folder_sizes (compute_sizes getsize top t None) !! d = Some s.
Proof.
  intros Hds. rewrite folder_sizes_fill, size_run_reports_table.
  destruct (fill_lookup (sizes (sorted_table getsize top t)) ∅) as [Hin _].
  { unfold sizes. rewrite map_map. erewrite map_ext; [apply sorted_table_NoDup|done]. }
  apply (Hin (d, s)). unfold dir_sizes in Hds.
  apply elem_of_sizes in Hds as (e & -> & He). apply elem_of_sizes.
  exists e. split; [done|]. by apply elem_of_sorted_table.
Qed.

Lemma size_table_lookup_inv d s :
  folder_sizes (compute_sizes getsize top t None) !! d = Some s →
  (d, s) ∈ dir_sizes getsize top t.
Proof.
  rewrite folder_sizes_fill, size_run_reports_table. intros Hlook.
  destruct (fill_lookup (sizes (sorted_table getsize top t)) ∅) as [Hin Hout].
  { unfold sizes. rewrite map_map. erewrite map_ext; [apply sorted_table_NoDup|done]. }
  destruct (decide (d ∈ map fst (sizes (sorted_table getsize top t)))) as [Hd|Hd].
  - apply elem_of_map in Hd as ([d' s'] & -> & He). cbn [fst] in *.
    specialize (Hin _ He). cbn [fst snd] in Hin.
    rewrite Hin in Hlook. injection Hlook as <-.
    apply elem_of_sizes in He as (e & Heq & He). apply elem_of_sizes.
    exists e. split; [done|]. by apply elem_of_sorted_table.
  - by rewrite (Hout _ Hd) in Hlook.
Qed.

(** The entry of the root is the sum of the sizes of all files under it. *)
Lemma size_table_root :
  folder_sizes (compute_sizes getsize top t None) !! top = Some (tree_size getsize top t).
Proof.
  apply size_table_lookup. unfold dir_sizes. destruct t as [fs ss].
  rewrite dir_table_eq. cbn [sizes map fst snd]. apply elem_of_cons. by left.
Qed.

(** The table is monotone along parent chains. *)
Lemma size_table_monotone d p sd sp :
  folder_sizes (compute_sizes getsize top t None) !! d = Some sd →
  folder_sizes (compute_sizes getsize top t None) !! p = Some sp →
  dirname d = p → (sd ≤ sp)%N.
Proof.
  intros Hd%size_table_lookup_inv Hp%size_table_lookup_inv Hdir.
  unfold dir_sizes in Hp. apply elem_of_sizes in Hp as (e & Heq & He).
  injection Heq as -> ->.
  rewrite (dir_table_rule getsize t top top_plain t_wf e He).
  pose proof (child_sum_ge _ _ _ _ Hd Hdir). lia.
Qed.

Lemma finalized_reported tr : finalized tr = map fst (reported tr).
Proof.
  induction tr as [|e tr IH]; [done|]. unfold finalized, reported in *.
  cbn [flat_map]. rewrite map_app, IH. by destruct e.
Qed.

(** Every directory is finalized after all the directories whose [dirname]
    it is. *)
Lemma size_run_children_first P p R :
  finalized (compute_sizes getsize top t None) = P ++ p :: R →
  ∀ d, d ∈ p :: R → dirname d ≠ p.
Proof.
  rewrite finalized_reported, size_run_reports_table. unfold sizes. rewrite map_map.
  intros Hfin d Hd.
  change (map (fun x : string * (N * N) => (x.1, x.2.2).1) (sorted_table getsize top t))
    with (fst <$> (sorted_table getsize top t)) in Hfin.
  apply fmap_app_inv in Hfin as (P' & R' & -> & HR & HE).
  symmetry in HR. apply fmap_cons_inv in HR as (e & R'' & -> & -> & ->).
  assert (∃ e', d = e'.1 ∧ e' ∈ e :: R'') as (e' & -> & He').
  { change (e.1 :: (fst <$> R'')) with (fst <$> (e :: R'')) in Hd.
    by apply list_elem_of_fmap in Hd. }
  by eapply sorted_table_order.
Qed.

End size_of_tree.

(** ** FolderSizeWorker: the order of finalization, on every run *)

Section finalization_order.

Import FolderSizeWorker.

Lemma finalized_app tr1 tr2 : finalized (tr1 ++ tr2) = finalized tr1 ++ finalized tr2.
Proof. apply flat_map_app. Qed.

Lemma descending_app_l {A : Type} (key : A → nat) l1 l2 :
  descending key (l1 ++ l2) → descending key l1.
Proof.
  unfold descending. induction l1 as [|x l1 IH]; cbn; intros Hs; [constructor|].
  apply StronglySorted_inv in Hs as [Hs Hx]. constructor; [by apply IH|].
  by apply Forall_app in Hx as [Hx _].
Qed.

(** The second loop finalizes, in order, the directories of a prefix of its
    list. *)
Lemma rollup_finalized l : ∀ total i totals w,
  ∃ k, finalized (emitted (rollup total i l totals w).2)
       = finalized (emitted w) ++ take k l.
Proof.
  induction l as [|d l IH]; intros total i totals w.
  - exists 0. cbn. by rewrite app_nil_r.
  - cbn [rollup]. destruct (read_running w) as [[] w1] eqn:Hr.
    + destruct (IH total (S i) (add_to_parent d totals)
                  (emit (Progress (i + 1) total d)
                     (emit (FolderDone d (get0 (add_to_parent d totals) d)) w1)))
        as [k Hk].
      exists (S k). rewrite Hk. unfold emit. cbn [emitted].
      rewrite !finalized_app, <- (read_running_emitted w), Hr. cbn.
      by rewrite app_nil_r, <- app_assoc.
    + exists 0. cbn. by rewrite app_nil_r, <- (read_running_emitted w), Hr.
Qed.

(** On every run, cancelled or not, the directories are finalized in
    non-increasing order of the number of separators of their paths. *)
Lemma run_finalized_descending getsize walk stop :
  descending depth (finalized (emitted (run getsize walk (init stop)))).
Proof.
  unfold run.
  pose proof (walk_loop_emitted getsize walk [] ∅ (init stop)) as Hw.
  destruct (walk_loop getsize walk [] ∅ (init stop)) as [[[folders sizes]|] w1];
    cbn [fst snd] in *.
  - destruct (rollup_finalized (sorted_reverse depth folders) (length folders) 0 sizes w1)
      as [k Hk].
    destruct (rollup _ _ _ _ _) as [totals w2]. cbn [snd] in Hk.
    unfold emit. cbn [emitted]. rewrite finalized_app, Hk, Hw. cbn.
    rewrite app_nil_r. apply (descending_app_l _ _ (drop k (sorted_reverse depth folders))).
    rewrite take_drop. apply sorted_reverse_descending.
  - rewrite Hw. constructor.
Qed.

End finalization_order.

(** ** FolderSizeWorker: the scan of a file system root *)

Section size_worker_root.

Import FolderSizeWorker.

(** C1 fails on the code for the root [/]: the root and its child [/a] have
    the same number of separators, so the stable sort leaves the root first;
    the root, being its own [dirname], is added to itself and reported
    before its child is rolled up. The table gives 20 bytes for a root that
    holds 110. *)
Theorem root_scan_reports_wrong_total :
  compute_sizes root_getsize "/" root_tree None
  = [FolderDone "/" 20; Progress 1 2 "/"; FolderDone "/a" 100; Progress 2 2 "/a"; Done]
  ∧ folder_sizes (compute_sizes root_getsize "/" root_tree None) !! "/" = Some 20%N
  ∧ tree_size root_getsize "/" root_tree = 110%N.
Proof. repeat split; vm_compute; reflexivity. Qed.

(** C3 fails on the code for the root [/]: the root is finalized before the
    directory [/a], whose parent it is. *)
Theorem root_scan_finalizes_parent_first :
  finalized (compute_sizes root_getsize "/" root_tree None) = ["/"; "/a"]
  ∧ OsPath.dirname "/a" = "/"
  ∧ depth "/" = depth "/a".
Proof. repeat split; vm_compute; reflexivity. Qed.

(** C7 fails on the code for the root [/]: the table gives the child [/a]
    100 bytes and its parent [/] none. *)
Theorem root_scan_table_not_monotone :
  let table := folder_sizes (compute_sizes root_getsize "/" bare_root_tree None) in
  table !! "/a" = Some 100%N ∧ table !! "/" = Some 0%N ∧ OsPath.dirname "/a" = "/"
  ∧ ¬ (100 ≤ 0)%N.
Proof. repeat split; try (vm_compute; reflexivity). lia. Qed.

Lemma scenario_table :
  let table := folder_sizes (compute_sizes scenario_getsize "/r" scenario_tree None) in
  table !! "/r/a/b" = Some 50%N ∧ table !! "/r/a" = Some 150%N ∧ table !! "/r" = Some 150%N
  ∧ tree_size scenario_getsize "/r" scenario_tree = 150%N.
Proof. repeat split; vm_compute; reflexivity. Qed.

End size_worker_root.

(** ** ExpandAllThread *)

Section expand_all_thread.

Import ExpandAllThread.

Lemma expand_batches_app tr1 tr2 : batches (tr1 ++ tr2) = batches tr1 ++ batches tr2.
Proof. apply flat_map_app. Qed.

Lemma expand_count_done_app tr1 tr2 :
  count_done (tr1 ++ tr2) = count_done tr1 + count_done tr2.
Proof. unfold count_done. by rewrite flat_map_app, length_app. Qed.

Lemma paths_of_app es1 es2 : paths_of (es1 ++ es2) = paths_of es1 ++ paths_of es2.
Proof. apply map_app. Qed.

Lemma visit_dir_spec root d w :
  let w' := visit_dir root d w in
  batch_size w' = batch_size w ∧ _running w' = _running w
  ∧ concat (batches (emitted w')) ++ batch w'
    = (concat (batches (emitted w)) ++ batch w) ++ paths_of [(root, d)]
  ∧ count_done (emitted w') = count_done (emitted w)
  ∧ (well_sized (max (batch_size w) 1) w → well_sized (max (batch_size w) 1) w').
Proof.
  unfold visit_dir, well_sized. cbn zeta.
  destruct (Nat.leb_spec (batch_size w) (length (batch w ++ [OsPath.join root d])))
    as [Hfull|Hroom]; cbn [set_batch emit batch_size _running batch emitted].
  - split; [done|]. split; [done|]. split; [|split].
    + rewrite expand_batches_app, concat_app. cbn.
      by rewrite !app_nil_r, <- !app_assoc.
    + rewrite expand_count_done_app. cbn. lia.
    + intros [Hall Hlen]. split; [|cbn; lia]. cbn [emitted set_batch emit].
      rewrite expand_batches_app. apply Forall_app. split; [done|].
      cbn. constructor; [|constructor].
      rewrite length_app in Hfull |- *. cbn in *. lia.
  - split; [done|]. split; [done|]. split; [|split].
    + cbn. by rewrite <- !app_assoc.
    + done.
    + intros [Hall Hlen]. split; [done|].
      rewrite length_app in Hroom |- *. cbn in *. lia.
Qed.

Lemma expand_read_running_spec w :
  batch_size (read_running w).2 = batch_size w
  ∧ batch (read_running w).2 = batch w
  ∧ emitted (read_running w).2 = emitted w.
Proof. unfold read_running. by destruct (_running w) as [[|k]|]. Qed.

Lemma scan_dirs_spec root dirs w :
  ∃ visited, visits (map (pair root) dirs) visited w (scan_dirs root dirs w)
             ∧ (well_sized (max (batch_size w) 1) w
                → well_sized (max (batch_size w) 1) (scan_dirs root dirs w)).
Proof.
  revert w. induction dirs as [|d dirs IH]; intros w.
  - exists []. split; [|done]. split; cbn; rewrite ?app_nil_r; done.
  - cbn [scan_dirs]. unfold read_running.
    destruct (_running w) as [[|k]|] eqn:Hrun.
    + exists []. split; [|done].
      split; cbn; rewrite ?app_nil_r; try done; try congruence. apply prefix_nil.
    + set (w1 := {| batch_size := batch_size w; _running := Some k;
                    batch := batch w; emitted := emitted w |}).
      destruct (visit_dir_spec root d w1) as (Hs & Hr & Hsent & Hd & Hws).
      destruct (IH (visit_dir root d w1))
        as [visited [[Hp Hs' Hsent' Hd' Hall Hbr] Hws']].
      exists ((root, d) :: visited). split; [split|].
      * cbn. by apply prefix_cons.
      * by rewrite Hs', Hs.
      * rewrite Hsent', Hsent. cbn [batch emitted w1].
        change ((root, d) :: visited) with ([(root, d)] ++ visited).
        by rewrite paths_of_app, <- !app_assoc.
      * by rewrite Hd', Hd.
      * congruence.
      * intros Hne. apply Hbr. intros ->. by apply Hne.
      * intros Hw. rewrite Hs in Hws'. apply Hws', Hws. exact Hw.
    + destruct (visit_dir_spec root d w) as (Hs & Hr & Hsent & Hd & Hws).
      destruct (IH (visit_dir root d w))
        as [visited [[Hp Hs' Hsent' Hd' Hall Hbr] Hws']].
      destruct Hall as [-> Hnone]; [by rewrite Hr|].
      exists ((root, d) :: map (pair root) dirs). split; [split|]; try done.
      * by rewrite Hs', Hs.
      * rewrite Hsent', Hsent.
        change ((root, d) :: map (pair root) dirs)
          with ([(root, d)] ++ map (pair root) dirs).
        by rewrite paths_of_app, <- !app_assoc.
      * by rewrite Hd', Hd.
      * intros Hw. rewrite Hs in Hws'. apply Hws', Hws. exact Hw.
Qed.

Lemma expand_walk_loop_stopped walk w : _running w = Some 0 → walk_loop walk w = w.
Proof.
  intros H. destruct walk as [|[[r dirs] files] rest]; [done|].
  cbn. unfold read_running. by rewrite H.
Qed.

Lemma expand_walk_loop_spec walk w :
  ∃ visited, visits (dir_entries walk) visited w (walk_loop walk w)
             ∧ (well_sized (max (batch_size w) 1) w
                → well_sized (max (batch_size w) 1) (walk_loop walk w)).
Proof.
  revert w. induction walk as [|[[r dirs] files] rest IH]; intros w.
  - exists []. split; [|done]. split; cbn; rewrite ?app_nil_r; done.
  - cbn [walk_loop dir_entries flat_map fst snd]. unfold read_running.
    destruct (_running w) as [[|k]|] eqn:Hrun.
    + exists []. split; [|done].
      split; cbn; rewrite ?app_nil_r; try done; try congruence. apply prefix_nil.
    + set (w1 := {| batch_size := batch_size w; _running := Some k;
                    batch := batch w; emitted := emitted w |}).
      destruct (scan_dirs_spec r dirs w1) as [v1 [[Hp1 Hs1 Hsent1 Hd1 Hall1 Hbr1] Hws1]].
      destruct (decide (v1 = map (pair r) dirs)) as [->|Hne].
      * destruct (IH (scan_dirs r dirs w1))
          as [v2 [[Hp2 Hs2 Hsent2 Hd2 Hall2 Hbr2] Hws2]].
        exists (map (pair r) dirs ++ v2). split; [split|].
        -- by apply prefix_app.
        -- by rewrite Hs2, Hs1.
        -- rewrite Hsent2, Hsent1. cbn [batch emitted w1].
           by rewrite paths_of_app, <- !app_assoc.
        -- by rewrite Hd2, Hd1.
        -- congruence.
        -- intros Hne. apply Hbr2. intros ->. by apply Hne.
        -- intros Hw. rewrite Hs1 in Hws2. apply Hws2, Hws1. exact Hw.
      * rewrite expand_walk_loop_stopped by auto.
        exists v1. split; [split|]; try done; try congruence.
        -- etrans; [exact Hp1|]. by apply prefix_app_r.
        -- intros _. by apply Hbr1.
    + destruct (scan_dirs_spec r dirs w) as [v1 [[Hp1 Hs1 Hsent1 Hd1 Hall1 Hbr1] Hws1]].
      destruct (Hall1 Hrun) as [-> Hnone].
      destruct (IH (scan_dirs r dirs w))
        as [v2 [[Hp2 Hs2 Hsent2 Hd2 Hall2 Hbr2] Hws2]].
      destruct (Hall2 Hnone) as [-> Hnone2].
      exists (map (pair r) dirs ++ dir_entries rest). split; [split|]; try done.
      * by rewrite Hs2, Hs1.
      * by rewrite Hsent2, Hsent1, paths_of_app, <- !app_assoc.
      * by rewrite Hd2, Hd1.
      * intros Hw. rewrite Hs1 in Hws2. apply Hws2, Hws1. exact Hw.
Qed.

(** On every run of [ExpandAllThread.run], cancelled or not, [done] is the
    last signal and the only [done] signal. *)
Theorem expand_thread_done_once (walk : list visit) (bs : nat) (stop : option nat) :
  ∃ tr, emitted (run walk (init bs stop)) = tr ++ [Done] ∧ count_done tr = 0.
Proof.
  unfold run. set (w0 := set_batch [] (init bs stop)).
  destruct (expand_walk_loop_spec walk w0) as [visited [[_ _ _ Hd _ _] _]].
  destruct (batch (walk_loop walk w0)) as [|p b].
  - eexists. split; [done|]. by rewrite Hd.
  - eexists. split; [done|]. cbn [emit emitted].
    by rewrite expand_count_done_app, Hd.
Qed.

(** What a run sends: the paths of the directories its loops visited. *)
Lemma expand_run_visits (walk : list visit) (bs : nat) (st : option nat) :
  ∃ visited,
    visits (dir_entries walk) visited (set_batch [] (init bs st))
           (walk_loop walk (set_batch [] (init bs st)))
    ∧ concat (batches (emitted (run walk (init bs st)))) = paths_of visited.
Proof.
  unfold run. set (w0 := set_batch [] (init bs st)).
  destruct (expand_walk_loop_spec walk w0) as [visited [Hv _]].
  exists visited. split; [done|]. destruct Hv as [_ _ Hsent _ _ _].
  cbn in Hsent. rewrite <- Hsent.
  destruct (batch (walk_loop walk w0)) as [|p b]; cbn [emit emitted].
  - by rewrite expand_batches_app, concat_app, !app_nil_r.
  - rewrite !expand_batches_app, !concat_app. cbn. by rewrite !app_nil_r.
Qed.

Lemma expand_run_sends_all (walk : list visit) (bs : nat) :
  concat (batches (emitted (run walk (init bs None)))) = paths_of (dir_entries walk).
Proof.
  destruct (expand_run_visits walk bs None) as [visited [[_ _ _ _ Hall _] ->]].
  by destruct Hall as [-> _].
Qed.

(** The batches of a run hold, in order, the paths of the directories that
    the walk lists: all of them when the run is not cancelled, those of a
    prefix of the walk when it is; what was collected before the
    cancellation is still sent. *)
Theorem expand_thread_sends_listed_dirs (walk : list visit) (bs : nat) (stop : option nat) :
  concat (batches (emitted (run walk (init bs None)))) = paths_of (dir_entries walk)
  ∧ ∃ visited, visited `prefix_of` dir_entries walk
      ∧ concat (batches (emitted (run walk (init bs stop)))) = paths_of visited.
Proof.
  split; [apply expand_run_sends_all|].
  destruct (expand_run_visits walk bs stop) as [visited [[Hp _ _ _ _ _] ->]].
  by exists visited.
Qed.

(** Every batch but the last holds exactly [batch_size] paths (one path when
    [batch_size] is zero), and the last batch, when it is not such a full
    batch, holds at least one path and fewer than that. *)
Theorem expand_thread_batch_sizes (walk : list visit) (bs : nat) (stop : option nat) :
  ∃ full rest,
    batches (emitted (run walk (init bs stop))) = full ++ rest
    ∧ Forall (fun b : list string => length b = max bs 1) full
    ∧ (rest = [] ∨ ∃ b, rest = [b] ∧ 0 < length b < max bs 1).
Proof.
  unfold run. set (w0 := set_batch [] (init bs stop)).
  destruct (expand_walk_loop_spec walk w0) as [visited [_ Hws]].
  destruct Hws as [Hall Hlen]; [split; [constructor|cbn; lia]|].
  cbn [batch_size w0 set_batch init] in *.
  destruct (batch (walk_loop walk w0)) as [|p b] eqn:Hb; cbn [emit emitted].
  - exists (batches (emitted (walk_loop walk w0))), [].
    rewrite expand_batches_app. cbn. rewrite !app_nil_r. split; [done|]. split; [done|by left].
  - exists (batches (emitted (walk_loop walk w0))), [p :: b].
    rewrite !expand_batches_app. cbn. rewrite !app_nil_r. split; [done|]. split; [done|].
    right. exists (p :: b). split; [done|]. cbn in *. lia.
Qed.

End expand_all_thread.

(** ** Expand All: the directories of a tree *)

Section expand_tree.

Import ExpandAllThread.

Lemma dirs_below_eq top fs ss :
  dirs_below top (MkDir fs ss)
  = flat_map (fun ns : string * Dir =>
                OsPath.join top ns.1 :: dirs_below (OsPath.join top ns.1) ns.2) ss.
Proof.
  cbn [dirs_below]. induction ss as [|[n s] ss IH]; [done|].
  cbn [flat_map fst snd]. by rewrite IH.
Qed.

Lemma dir_table_dirs_below getsize top t :
  map fst (dir_table getsize top t) = top :: dirs_below top t.
Proof.
  revert top. induction t as [fs ss IH] using Dir_subdirs_ind. intros top.
  rewrite dir_table_eq, dirs_below_eq. cbn [map fst]. f_equal.
  induction IH as [|[n s] ss Hs _ IHss]; [done|].
  cbn [flat_map fst snd] in *. by rewrite map_app, Hs, IHss.
Qed.

Lemma dir_entries_app w1 w2 : dir_entries (w1 ++ w2) = dir_entries w1 ++ dir_entries w2.
Proof. apply flat_map_app. Qed.

Lemma paths_of_dir_entries_flat_map {A : Type} (h : A → list visit) (l : list A) :
  paths_of (dir_entries (flat_map h l))
  = flat_map (fun a => paths_of (dir_entries (h a))) l.
Proof.
  induction l as [|a l IH]; [done|]. cbn [flat_map].
  by rewrite dir_entries_app, paths_of_app, IH.
Qed.

Lemma heads_and_tails_perm {A : Type} (f : A → string) (g g' : A → list string) l :
  Forall (fun a => g a ≡ₚ g' a) l →
  map f l ++ flat_map g l ≡ₚ flat_map (fun a => f a :: g' a) l.
Proof.
  induction 1 as [|a l Ha _ IH]; [done|]. cbn [map flat_map app].
  apply Permutation_skip. rewrite <- IH, <- Ha, !app_assoc.
  apply Permutation_app_tail, Permutation_app_comm.
Qed.

(** The walk lists every directory below the top once for each time the
    table of the tree holds it. *)
Lemma walk_lists_dirs_below t : ∀ top,
  paths_of (dir_entries (os_walk top t)) ≡ₚ dirs_below top t.
Proof.
  induction t as [fs ss IH] using Dir_subdirs_ind. intros top.
  rewrite os_walk_eq, dirs_below_eq.
  change (dir_entries ((top, map fst ss, fs)
            :: flat_map (fun ns => os_walk (OsPath.join top ns.1) ns.2) ss))
    with (map (pair top) (map fst ss)
            ++ dir_entries (flat_map (fun ns : string * Dir =>
                                        os_walk (OsPath.join top ns.1) ns.2) ss)).
  rewrite paths_of_app, paths_of_dir_entries_flat_map.
  unfold paths_of at 1. rewrite !map_map. cbn [fst snd].
  apply (heads_and_tails_perm (fun ns : string * Dir => OsPath.join top ns.1)).
  eapply Forall_impl; [exact IH|]. intros [n s] Hs. apply Hs.
Qed.

(** Run without cancellation on a well-formed tree whose root path is plain,
    the thread sends every directory below the root exactly once, and never
    the root itself. *)
Theorem expand_thread_sends_each_dir_once (top : string) (t : Dir) (bs : nat) :
  plain_path top → wf_dir t →
  let sent := concat (batches (emitted (run (os_walk top t) (init bs None)))) in
  sent ≡ₚ dirs_below top t ∧ NoDup sent ∧ top ∉ sent.
Proof.
  intros Htop Hwf sent.
  subst sent. rewrite expand_run_sends_all.
  pose proof (dir_table_NoDup (fun _ => None) t top Htop Hwf) as Hnd.
  rewrite dir_table_dirs_below in Hnd. apply NoDup_cons in Hnd as [Hnotin Hnd].
  rewrite walk_lists_dirs_below. done.
Qed.

Lemma expand_thread_sends_each_dir_once_witness :
  let sent := concat (batches (emitted
                (run (os_walk "/r" scenario_tree) (init 1000 None)))) in
  sent ≡ₚ dirs_below "/r" scenario_tree ∧ NoDup sent ∧ "/r" ∉ sent.
Proof.
  apply (expand_thread_sends_each_dir_once "/r" scenario_tree 1000).
  - split; [discriminate|reflexivity].
  - cbn. repeat split; try discriminate;
      repeat (apply NoDup_cons; split; [apply not_elem_of_nil|]); apply NoDup_nil_2.
Defined.

End expand_tree.

(** ** Expand All: the drain comes to an end *)

Section drain_termination.

Import MainWindow.

Variable valid : string → nat → bool.

Lemma potential_app att l1 l2 : potential att (l1 ++ l2) = potential att l1 + potential att l2.
Proof.
  unfold potential. induction l1 as [|f l1 IH]; cbn [app foldr]; [done|].
  rewrite IH. lia.
Qed.

Lemma potential_bound att l : potential att l ≤ 9 * length l.
Proof. unfold potential. induction l as [|f l IH]; cbn [foldr length]; lia. Qed.

(** Raising the counter of a folder lowers the potential of every list. *)
Lemma potential_insert att f n l :
  default 0 (att !! f) ≤ n → potential (<[f := n]> att) l ≤ potential att l.
Proof.
  intros Hn. unfold potential. induction l as [|g l IH]; cbn [foldr]; [done|].
  destruct (decide (f = g)) as [->|Hne].
  - rewrite lookup_insert_eq. change (default 0 (Some n)) with n. lia.
  - rewrite lookup_insert_ne by done. lia.
Qed.

(** Every folder that the loop processes lowers the weight of the drain. *)
Lemma process_folder_weight ok f rest x rq :
  _expand_queue x = f :: rest →
  weight (process_folder ok f rest x rq).1 (process_folder ok f rest x rq).2 < weight x rq.
Proof.
  intros Hq. unfold weight, process_folder. rewrite Hq.
  assert (∀ att, potential att (rest ++ rq) + 9 * (length (rest ++ rq) * length (rest ++ rq))
                 < potential (_expand_attempts x) ((f :: rest) ++ rq)
                   + 9 * (length ((f :: rest) ++ rq) * length ((f :: rest) ++ rq))) as Hout.
  { intros att. pose proof (potential_bound att (rest ++ rq)). cbn [app length]. nia. }
  destruct ok; cbn [fst snd _expand_queue _expand_attempts]; [apply Hout|].
  destruct (Nat.leb_spec (S (attempts_of x f)) 8) as [Hle|Hgt]; [|apply Hout].
  rewrite app_assoc, potential_app, !length_app. cbn [potential foldr app length].
  rewrite lookup_insert_eq.
  change (default 0 (Some (S (attempts_of x f)))) with (S (attempts_of x f)).
  pose proof (potential_insert (_expand_attempts x) f (S (attempts_of x f)) (rest ++ rq))
    as Hmono.
  unfold attempts_of in *. rewrite length_app in *. specialize (Hmono ltac:(lia)).
  fold (potential (_expand_attempts x) (rest ++ rq)).
  replace (length rest + length rq + 1) with (S (length rest) + length rq) by lia. lia.
Qed.

Lemma drain_loop_weight b : ∀ x rq,
  weight (drain_loop valid b x rq).1 (drain_loop valid b x rq).2 ≤ weight x rq
  ∧ (0 < b → _expand_queue x ≠ [] →
     weight (drain_loop valid b x rq).1 (drain_loop valid b x rq).2 < weight x rq).
Proof.
  induction b as [|b IH]; intros x rq; [cbn; split; [done|lia]|].
  cbn [drain_loop]. destruct (_expand_queue x) as [|f rest] eqn:Hq; [by split|].
  set (ok := valid f (calls_on f (expand_log x))).
  pose proof (process_folder_weight ok f rest x rq Hq) as Hstep.
  destruct (process_folder ok f rest x rq) as [x1 rq1]. cbn [fst snd] in *.
  destruct (IH x1 rq1) as [Hle _]. split; [lia|]. intros _ _. lia.
Qed.

Lemma drain_loop_expanding b : ∀ x rq,
  _expanding (drain_loop valid b x rq).1 = _expanding x.
Proof.
  induction b as [|b IH]; intros x rq; [done|].
  cbn [drain_loop]. destruct (_expand_queue x) as [|f rest]; [done|].
  unfold process_folder. destruct (valid f _); by rewrite IH.
Qed.

(** A tick of an active drain, when the producer has finished and nothing
    arrives: it finalizes on an empty queue, and otherwise leaves less
    work. *)
Lemma tick_weight env x :
  _expanding x = true → arrivals env = [] → thread_running env = false →
  let x' := (_process_expand_queue_step valid env x).1 in
  let o := (_process_expand_queue_step valid env x).2 in
  (o = Finalized ∧ _expand_queue x' = [] ∧ _expanding x' = false)
  ∨ (o = Rescheduled ∧ _expanding x' = true ∧ weight x' [] < weight x []).
Proof.
  intros Hexp Harr Hrun. unfold _process_expand_queue_step.
  rewrite Hexp, Harr, Hrun. cbn [negb].
  pose proof (drain_loop_weight MAX_PER_TICK x []) as [Hle Hlt].
  pose proof (drain_loop_expanding MAX_PER_TICK x []) as Hex.
  pose proof (drain_loop_nil valid MAX_PER_TICK x []) as Hnil.
  destruct (drain_loop valid MAX_PER_TICK x []) as [x1 rq]. cbn [fst snd] in *.
  cbn [set_queue _expand_queue]. rewrite app_nil_r.
  case_bool_decide as Hq; cbn [negb orb fst snd].
  - left. cbn. done.
  - right. split; [done|]. split; [cbn; congruence|].
    destruct (_expand_queue x) as [|f rest] eqn:Hqx.
    + specialize (Hnil eq_refl). injection Hnil as -> ->.
      rewrite Hqx in Hq. done.
    + specialize (Hlt ltac:(unfold MAX_PER_TICK; lia) ltac:(done)).
      unfold weight in *. cbn [_expand_queue _expand_attempts] in *.
      by rewrite !app_nil_r in *.
Qed.

Variable envs : nat → tick_env.
Variable t0 : nat.
Hypothesis quiet : ∀ t, t0 ≤ t → arrivals (envs t) = [] ∧ thread_running (envs t) = false.

Lemma drain_finishes w : ∀ x t,
  t0 ≤ t → weight x [] ≤ w → _expanding x = true →
  _expand_queue (drain valid envs t (S w) x) = []
  ∧ _expanding (drain valid envs t (S w) x) = false.
Proof.
  induction w as [|w IH]; intros x t Ht Hw Hexp.
  - cbn [drain]. destruct (quiet t Ht) as [Harr Hrun].
    pose proof (tick_weight (envs t) x Hexp Harr Hrun) as Htick. cbn zeta in Htick.
    destruct (_process_expand_queue_step valid (envs t) x) as [x' o]. cbn [fst snd] in *.
    destruct Htick as [(-> & Hq & Hx)|(-> & _ & Hlt)]; [done|lia].
  - cbn [drain]. destruct (quiet t Ht) as [Harr Hrun].
    pose proof (tick_weight (envs t) x Hexp Harr Hrun) as Htick. cbn zeta in Htick.
    destruct (_process_expand_queue_step valid (envs t) x) as [x' o]. cbn [fst snd] in *.
    destruct Htick as [(-> & Hq & Hx)|(-> & Hx & Hlt)]; [done|].
    apply IH; [lia|lia|done].
Qed.

End drain_termination.

(** Once the producer has finished and nothing more arrives, an active
    drain comes to an end whatever the model answers: after at most
    [weight x [] + 1] ticks the queue is empty and the expansion is
    finalized, and it stays so. *)
Theorem drain_terminates
    (valid : string → nat → bool) (envs : nat → MainWindow.tick_env)
    (x : MainWindow.expander) :
  MainWindow._expanding x = true →
  (∀ t, MainWindow.arrivals (envs t) = [] ∧ MainWindow.thread_running (envs t) = false) →
  ∀ n, S (weight x []) ≤ n →
    MainWindow._expand_queue (MainWindow.drain valid envs 0 n x) = []
    ∧ MainWindow._expanding (MainWindow.drain valid envs 0 n x) = false.
Proof.
  intros Hexp Hquiet n Hn.
  destruct (drain_finishes valid envs 0 (fun t _ => Hquiet t) (weight x []) x 0)
    as [Hq Hx]; [lia|lia|done|].
  replace n with (S (weight x []) + (n - S (weight x []))) by lia.
  rewrite drain_add, drain_stopped by done. done.
Qed.

Lemma drain_terminates_witness :
  let x := {| MainWindow._expand_queue := ["/r/a"; "/r/locked"; "/r/b"];
              MainWindow._expand_attempts := ∅;
              MainWindow._expanding := true; MainWindow.expand_log := [] |} in
  let envs := fun _ : nat => {| MainWindow.arrivals := [];
                                MainWindow.thread_running := false |} in
  let valid := fun (folder : string) (_ : nat) => negb (bool_decide (folder = "/r/locked")) in
  MainWindow._expand_queue (MainWindow.drain valid envs 0 200 x) = []
  ∧ MainWindow._expanding (MainWindow.drain valid envs 0 200 x) = false.
Proof.
  intros x envs valid. apply (drain_terminates valid envs x).
  - reflexivity.
  - intros t. split; reflexivity.
  - vm_compute. lia.
Defined.
(** ** FolderSizeWorker: cancellation and progress *)

Section size_cancel.

Import FolderSizeWorker.

Variable getsize : string → option N.

Lemma sum_files_running dirpath files : ∀ s w,
  (sum_files getsize dirpath files s w).1
  = (if survives (_running w) (length files)
     then Some (s + own_size getsize dirpath files)%N else None)
  ∧ _running (sum_files getsize dirpath files s w).2
    = after_reads (_running w) (length files).
Proof.
  induction files as [|f files IH]; intros s w.
  - cbn. destruct (_running w) as [k|]; cbn; rewrite ?N.add_0_r, ?Nat.sub_0_r; done.
  - cbn [sum_files length]. unfold read_running.
    destruct (_running w) as [[|k]|] eqn:Hw.
    + cbn. by rewrite Hw.
    + destruct (IH (s + size_or_zero (getsize (OsPath.join dirpath f)))%N
                  {| _running := Some k; emitted := emitted w |}) as [IH1 IH2].
      rewrite IH1, IH2. cbn [_running survives after_reads].
      change (S (length files) <=? S k) with (length files <=? k).
      split; [|done]. destruct (length files <=? k); [|done].
      f_equal. cbn [own_size foldr]. fold (own_size getsize dirpath files). lia.
    + destruct (IH (s + size_or_zero (getsize (OsPath.join dirpath f)))%N w) as [IH1 IH2].
      rewrite IH1, IH2, Hw. cbn [survives after_reads]. split; [|done].
      f_equal. cbn [own_size foldr]. fold (own_size getsize dirpath files). lia.
Qed.

Lemma survives_add r n m :
  survives r (n + m) = survives r n && survives (after_reads r n) m.
Proof.
  destruct r as [k|]; cbn; [|done].
  destruct (Nat.leb_spec (n + m) k), (Nat.leb_spec n k), (Nat.leb_spec m (k - n));
    cbn; (done || lia).
Qed.

Lemma after_reads_add r n m : after_reads (after_reads r n) m = after_reads r (n + m).
Proof. destruct r as [k|]; cbn; [|done]. f_equal. lia. Qed.

(** The first loop runs to its end exactly when the flag survives all its
    reads, and then it has recorded every directory of the walk. *)
Lemma walk_loop_running walk : ∀ folders file_sizes w,
  (walk_loop getsize walk folders file_sizes w).1
  = (if survives (_running w) (walk_reads walk)
     then Some (folders ++ map fst (visit_owns getsize walk),
                fill file_sizes (visit_owns getsize walk))
     else None)
  ∧ _running (walk_loop getsize walk folders file_sizes w).2
    = after_reads (_running w) (walk_reads walk).
Proof.
  induction walk as [|[[dirpath dirs] files] walk IH]; intros folders file_sizes w.
  - cbn. rewrite app_nil_r. destruct (_running w) as [k|]; cbn; rewrite ?Nat.sub_0_r; done.
  - cbn [walk_loop walk_reads foldr snd]. fold (walk_reads walk).
    change (S (length files) + walk_reads walk) with (1 + (length files + walk_reads walk)).
    rewrite !survives_add, <- !after_reads_add.
    unfold read_running. destruct (_running w) as [[|k]|] eqn:Hw.
    + cbn. by rewrite Hw.
    + set (w1 := {| _running := Some k; emitted := emitted w |}).
      destruct (sum_files_running dirpath files 0%N w1) as [Hs1 Hs2].
      destruct (sum_files getsize dirpath files 0%N w1) as [[s|] w2]; cbn [fst snd] in *.
      * destruct (IH (folders ++ [dirpath]) (<[dirpath := s]> file_sizes) w2) as [IH1 IH2].
        rewrite IH1, IH2, Hs2. cbn [_running w1 survives after_reads] in *.
        replace (S k - 1) with k by lia. change (1 <=? S k) with true. cbn [andb].
        destruct (length files <=? k); [|done]. injection Hs1 as ->.
        cbn [andb]. split; [|done].
        destruct (walk_reads walk <=? k - length files); [|done].
        cbn [visit_owns map fst snd fill foldl]. by rewrite <- app_assoc.
      * cbn [_running w1 survives after_reads] in *.
        replace (S k - 1) with k by lia. change (1 <=? S k) with true. cbn [andb].
        destruct (Nat.leb_spec (length files) k) as [|Hlt]; [done|]. cbn [andb].
        split; [done|]. rewrite Hs2. f_equal. lia.
    + destruct (sum_files_running dirpath files 0%N w) as [Hs1 Hs2].
      destruct (sum_files getsize dirpath files 0%N w) as [[s|] w2]; cbn [fst snd] in *;
        rewrite Hw in Hs1, Hs2; cbn in Hs1, Hs2; [|done]. injection Hs1 as Hs1.
      destruct (IH (folders ++ [dirpath]) (<[dirpath := s]> file_sizes) w2) as [IH1 IH2].
      rewrite IH1, IH2, Hs2, Hs1. cbn. by rewrite <- app_assoc.
Qed.

(** [done] is emitted once when [stop()] does not land during the first
    loop, which reads the flag once for every directory and once for every
    file, and it is not emitted at all when it does. *)
Theorem size_run_done_iff_walk_survives (walk : list visit) (stop : option nat) :
  count_done (emitted (run getsize walk (init stop)))
  = match stop with
    | None => 1
    | Some k => if walk_reads walk <=? k then 1 else 0
    end.
Proof.
  rewrite run_count_done.
  destruct (walk_loop_running walk [] ∅ (init stop)) as [-> _]. cbn [_running init].
  destruct stop as [k|]; cbn [survives]; [|done]. by destruct (walk_reads walk <=? k).
Qed.

(** The second loop, cancelled or not, reports a prefix of what it reports
    when it is not cancelled. *)
Lemma rollup_reports_prefix l : ∀ total i totals w w0,
  _running w0 = None →
  ∃ rep rest,
    reported (emitted (rollup total i l totals w).2) = reported (emitted w) ++ rep
    ∧ reported (emitted (rollup total i l totals w0).2) = reported (emitted w0) ++ rep ++ rest.
Proof.
  induction l as [|d l IH]; intros total i totals w w0 Hw0.
  - exists [], []. cbn. by rewrite !app_nil_r.
  - cbn [rollup]. rewrite (read_running_none w0 Hw0).
    set (e1 := FolderDone d (get0 (add_to_parent d totals) d)).
    set (e2 := Progress (i + 1) total d).
    destruct (read_running w) as [[] w1] eqn:Hr.
    + destruct (IH total (S i) (add_to_parent d totals) (emit e2 (emit e1 w1))
                  (emit e2 (emit e1 w0)) Hw0) as (rep & rest & H1 & H2).
      exists ((d, get0 (add_to_parent d totals) d) :: rep), rest.
      rewrite H1, H2. unfold emit. cbn [emitted]. rewrite !reported_app.
      rewrite <- (read_running_emitted w), Hr. cbn. by rewrite !app_nil_r, <- !app_assoc.
    + destruct (IH total (S i) (add_to_parent d totals) (emit e2 (emit e1 w0))
                  (emit e2 (emit e1 w0)) Hw0) as (rep & rest & H1 & H2).
      exists [], ((d, get0 (add_to_parent d totals) d) :: rep ++ rest).
      rewrite H2. unfold emit. cbn [emitted fst snd]. rewrite !reported_app.
      rewrite <- (read_running_emitted w), Hr. cbn. by rewrite !app_nil_r, <- !app_assoc.
Qed.

Lemma run_reports_prefix (walk : list visit) (stop : option nat) :
  reported (emitted (run getsize walk (init stop)))
    `prefix_of` reported (emitted (run getsize walk (init None))).
Proof.
  unfold run.
  pose proof (walk_loop_emitted getsize walk [] ∅ (init stop)) as He.
  destruct (walk_loop_running walk [] ∅ (init stop)) as [H1 _].
  rewrite (walk_loop_none getsize walk [] ∅ (init None) eq_refl).
  destruct (walk_loop getsize walk [] ∅ (init stop)) as [[[folders sizes]|] w1];
    cbn [fst snd] in *.
  - destruct (survives (_running (init stop)) (walk_reads walk)); [|done].
    injection H1 as -> ->.
    destruct (rollup_reports_prefix
                (sorted_reverse depth ([] ++ map fst (visit_owns getsize walk)))
                (length ([] ++ map fst (visit_owns getsize walk))) 0
                (fill ∅ (visit_owns getsize walk)) w1 (init None) eq_refl)
      as (rep & rest & Hr1 & Hr2).
    destruct (rollup _ _ _ _ w1) as [t1 w2].
    destruct (rollup _ _ _ _ (init None)) as [t2 w3]. cbn [snd] in *.
    unfold emit. cbn [emitted]. rewrite !reported_app, Hr1, Hr2, He. cbn.
    rewrite !app_nil_r. by exists rest.
  - rewrite He. apply prefix_nil.
Qed.

(** What a cancelled run reports through [folder_done] is the beginning of
    what the run reports when it is not cancelled, with the same sizes. *)
Theorem size_run_cancelled_reports_prefix (walk : list visit) (stop : option nat) :
  reported (emitted (run getsize walk (init stop)))
    `prefix_of` reported (emitted (run getsize walk (init None))).
Proof. apply run_reports_prefix. Qed.

(** The second loop counts the directories it finalizes. *)
Lemma rollup_progress l : ∀ total i totals w,
  ∃ k,
    finalized (emitted (rollup total i l totals w).2) = finalized (emitted w) ++ take k l
    ∧ size_progress (emitted (rollup total i l totals w).2)
      = size_progress (emitted w) ++ imap (fun j d => (i + j + 1, total, d)) (take k l).
Proof.
  induction l as [|d l IH]; intros total i totals w.
  - exists 0. cbn. by rewrite !app_nil_r.
  - cbn [rollup]. destruct (read_running w) as [[] w1] eqn:Hr.
    + destruct (IH total (S i) (add_to_parent d totals)
                  (emit (Progress (i + 1) total d)
                     (emit (FolderDone d (get0 (add_to_parent d totals) d)) w1)))
        as (k & Hk1 & Hk2).
      exists (S k). rewrite Hk1, Hk2. unfold emit. cbn [emitted].
      unfold size_progress. rewrite !finalized_app, !flat_map_app.
      rewrite <- (read_running_emitted w), Hr. cbn [fst snd emitted flat_map finalized app take].
      rewrite !app_nil_r, <- !app_assoc. split; [done|]. f_equal.
      cbn [imap app]. rewrite Nat.add_0_r. f_equal.
      apply imap_ext. intros j x _. cbn. do 2 f_equal. lia.
    + exists 0. cbn. by rewrite !app_nil_r, <- (read_running_emitted w), Hr.
Qed.

(** Every [folder_done] signal is followed by one [progress] signal: the
    k-th carries the number k, the number of directories of the walk and
    the directory that was finalized. *)
Theorem size_run_progress_counts (walk : list visit) (stop : option nat) :
  size_progress (emitted (run getsize walk (init stop)))
  = imap (fun j d => (j + 1, length walk, d))
         (finalized (emitted (run getsize walk (init stop)))).
Proof.
  unfold run.
  pose proof (walk_loop_emitted getsize walk [] ∅ (init stop)) as He.
  destruct (walk_loop_running walk [] ∅ (init stop)) as [H1 _].
  destruct (walk_loop getsize walk [] ∅ (init stop)) as [[[folders sizes]|] w1];
    cbn [fst snd] in *.
  - destruct (survives (_running (init stop)) (walk_reads walk)); [|done].
    injection H1 as -> ->.
    destruct (rollup_progress
                (sorted_reverse depth ([] ++ map fst (visit_owns getsize walk)))
                (length ([] ++ map fst (visit_owns getsize walk))) 0
                (fill ∅ (visit_owns getsize walk)) w1) as (k & Hk1 & Hk2).
    destruct (rollup _ _ _ _ w1) as [t1 w2]. cbn [snd] in *.
    unfold emit. cbn [emitted]. unfold size_progress in *.
    rewrite finalized_app, flat_map_app, Hk1, Hk2, He. cbn.
    rewrite !app_nil_r. unfold visit_owns. by rewrite !length_map.
  - by rewrite He.
Qed.

End size_cancel.
(** ** FolderSizeWorker: the scan of a root that is no file system root *)

Section size_scan.

Import FolderSizeWorker.

(** On a root path that does not end with a separator and a well-formed
    tree, the table left by a scan that is not cancelled holds exactly the
    directories of the tree, each with the sum of the sizes of all files
    under it, and the root with the size of the whole tree. *)
Theorem size_scan_gives_tree_sizes
    (getsize : string → option N) (top : string) (t : Dir) :
  plain_path top → wf_dir t →
  let table := folder_sizes (compute_sizes getsize top t None) in
  (∀ d s, table !! d = Some s ↔ (d, s) ∈ dir_sizes getsize top t)
  ∧ table !! top = Some (tree_size getsize top t).
Proof.
  intros Htop Hwf table. split.
  - intros d s. split.
    + by apply size_table_lookup_inv.
    + by apply size_table_lookup.
  - by apply size_table_root.
Qed.

Lemma size_scan_gives_tree_sizes_witness :
  let table := folder_sizes (compute_sizes scenario_getsize "/r" scenario_tree None) in
  (∀ d s, table !! d = Some s ↔ (d, s) ∈ dir_sizes scenario_getsize "/r" scenario_tree)
  ∧ table !! "/r" = Some (tree_size scenario_getsize "/r" scenario_tree).
Proof.
  apply (size_scan_gives_tree_sizes scenario_getsize "/r" scenario_tree).
  - split; [discriminate|reflexivity].
  - cbn. repeat split; try discriminate;
      repeat (apply NoDup_cons; split; [apply not_elem_of_nil|]); apply NoDup_nil_2.
Defined.

(** On such a root, the table of a scan that is not cancelled never gives a
    directory more than it gives the directory that holds it. *)
Theorem size_scan_table_monotone
    (getsize : string → option N) (top : string) (t : Dir) (d p : string) (sd sp : N) :
  plain_path top → wf_dir t →
  folder_sizes (compute_sizes getsize top t None) !! d = Some sd →
  folder_sizes (compute_sizes getsize top t None) !! p = Some sp →
  OsPath.dirname d = p → (sd ≤ sp)%N.
Proof. intros Htop Hwf. by apply size_table_monotone. Qed.

Lemma size_scan_table_monotone_witness : (50 ≤ 150)%N.
Proof.
  apply (size_scan_table_monotone scenario_getsize "/r" scenario_tree "/r/a/b" "/r/a").
  - split; [discriminate|reflexivity].
  - cbn. repeat split; try discriminate;
      repeat (apply NoDup_cons; split; [apply not_elem_of_nil|]); apply NoDup_nil_2.
  - vm_compute. reflexivity.
  - vm_compute. reflexivity.
  - reflexivity.
Defined.

(** On such a root, a scan that is not cancelled finalizes every directory
    after all the directories it holds. *)
Theorem size_scan_children_first
    (getsize : string → option N) (top : string) (t : Dir) (P R : list string) (p : string) :
  plain_path top → wf_dir t →
  finalized (compute_sizes getsize top t None) = P ++ p :: R →
  ∀ d, d ∈ p :: R → OsPath.dirname d ≠ p.
Proof. intros Htop Hwf. by apply size_run_children_first. Qed.

Lemma size_scan_children_first_witness :
  finalized (compute_sizes scenario_getsize "/r" scenario_tree None)
  = ["/r/a/b"; "/r/a"; "/r"]
  ∧ OsPath.dirname "/r" ≠ "/r/a".
Proof.
  split; [vm_compute; reflexivity|].
  apply (size_scan_children_first scenario_getsize "/r" scenario_tree
           ["/r/a/b"] ["/r"] "/r/a").
  - split; [discriminate|reflexivity].
  - cbn. repeat split; try discriminate;
      repeat (apply NoDup_cons; split; [apply not_elem_of_nil|]); apply NoDup_nil_2.
  - vm_compute. reflexivity.
  - apply elem_of_cons. right. apply elem_of_cons. by left.
Defined.

Lemma fill_lookup_Some (l : list (string * N)) : ∀ (m : gmap string N) d s,
  fill m l !! d = Some s → (d, s) ∈ l ∨ m !! d = Some s.
Proof.
  induction l as [|[d' s'] l IH]; intros m d s Hl; [by right|].
  cbn [fill foldl fst snd] in Hl. apply IH in Hl as [Hin|Hm].
  - left. by apply elem_of_cons; right.
  - destruct (decide (d' = d)) as [->|Hne].
    + rewrite lookup_insert_eq in Hm. injection Hm as ->. left. by apply elem_of_cons; left.
    + rewrite lookup_insert_ne in Hm by done. by right.
Qed.

(** On such a root, a scan that is cancelled leaves no wrong entry: every
    size in its table is the sum of the sizes of all files under that
    directory. *)
Theorem size_scan_cancelled_table_is_true
    (getsize : string → option N) (top : string) (t : Dir) (stop : option nat)
    (d : string) (s : N) :
  plain_path top → wf_dir t →
  folder_sizes (compute_sizes getsize top t stop) !! d = Some s →
  (d, s) ∈ dir_sizes getsize top t.
Proof.
  intros Htop Hwf Hl. rewrite folder_sizes_fill in Hl.
  apply fill_lookup_Some in Hl as [Hin|Hm]; [|by rewrite lookup_empty in Hm].
  destruct (run_reports_prefix getsize (os_walk top t) stop) as [rest Hrest].
  assert ((d, s) ∈ reported (compute_sizes getsize top t None)) as Hall.
  { unfold compute_sizes. rewrite Hrest. apply elem_of_app. by left. }
  rewrite size_run_reports_table in Hall by done.
  apply elem_of_sizes in Hall as (e & Heq & He). apply elem_of_sizes.
  exists e. split; [done|]. by apply elem_of_sorted_table.
Qed.

Lemma size_scan_cancelled_table_is_true_witness :
  ("/r/a/b", 50%N) ∈ dir_sizes scenario_getsize "/r" scenario_tree.
Proof.
  apply (size_scan_cancelled_table_is_true scenario_getsize "/r" scenario_tree (Some 6)).
  - split; [discriminate|reflexivity].
  - cbn. repeat split; try discriminate;
      repeat (apply NoDup_cons; split; [apply not_elem_of_nil|]); apply NoDup_nil_2.
  - vm_compute. reflexivity.
Defined.

End size_scan.
(** ** SearchWorker: the [progress] signal *)

Section search_progress_signal.

Import SearchWorker.

Lemma search_progress_app tr1 tr2 :
  search_progress (tr1 ++ tr2) = search_progress tr1 ++ search_progress tr2.
Proof. apply flat_map_app. Qed.

Lemma every_500_cons c e es :
  every_500 c (e :: es)
  = (if S c mod 500 =? 0 then [(S c, e.1)] else []) ++ every_500 (S c) es.
Proof.
  unfold every_500. cbn [imap concat]. rewrite Nat.add_1_r. f_equal. f_equal.
  apply imap_ext. intros i x _. cbn. by rewrite !Nat.add_succ_r.
Qed.

Lemma every_500_app l1 : ∀ c l2,
  every_500 c (l1 ++ l2) = every_500 c l1 ++ every_500 (c + length l1) l2.
Proof.
  induction l1 as [|e l1 IH]; intros c l2.
  - cbn. by rewrite Nat.add_0_r.
  - cbn [app length]. rewrite !every_500_cons, IH, <- app_assoc.
    by rewrite Nat.add_succ_r.
Qed.

Lemma visit_name_progress r name w :
  count (visit_name r name w) = S (count w)
  ∧ _running (visit_name r name w) = _running w
  ∧ search_progress (emitted (visit_name r name w))
    = search_progress (emitted w) ++ every_500 (count w) [(r, name)].
Proof.
  rewrite every_500_cons. unfold every_500. cbn [imap concat fst]. rewrite app_nil_r.
  unfold visit_name.
  destruct (matches (incr_count w) name); cbn [count incr_count emit append_result];
    destruct (S (count w) mod 500 =? 0); cbn [count _running emitted emit];
    rewrite ?search_progress_app; cbn; rewrite ?app_nil_r; done.
Qed.

Lemma search_read_running w :
  count (read_running w).2 = count w ∧ emitted (read_running w).2 = emitted w
  ∧ ((read_running w).1 = true →
       (_running w = None → _running (read_running w).2 = None))
  ∧ ((read_running w).1 = false →
       _running w ≠ None ∧ _running (read_running w).2 = Some 0).
Proof.
  unfold read_running. destruct (_running w) as [[|k]|] eqn:Hw; cbn;
    (split; [done|]); (split; [done|]); split; intros; try done.
Qed.

Lemma scan_names_counts r names : ∀ w,
  ∃ visited, counts (map (pair r) names) visited w (scan_names r names w).
Proof.
  induction names as [|name names IH]; intros w.
  - exists []. split; cbn; rewrite ?app_nil_r; (done || lia).
  - cbn [scan_names map].
    destruct (search_read_running w) as (Hc & He & Ht & Hf).
    destruct (read_running w) as [[] w1]; cbn [fst snd] in *.
    + destruct (visit_name_progress r name w1) as (Hvc & Hvr & Hvp).
      destruct (IH (visit_name r name w1)) as [visited [Hp Hcnt Hpr Hall Hbr]].
      exists ((r, name) :: visited). split.
      * by apply prefix_cons.
      * rewrite Hcnt, Hvc, Hc. cbn. lia.
      * rewrite Hpr, Hvp, Hvc, He, Hc, <- app_assoc.
        change ((r, name) :: visited) with ([(r, name)] ++ visited).
        by rewrite (every_500_app [(r, name)] (count w) visited), Nat.add_1_r.
      * intros Hw. destruct Hall as [-> Hn]; [rewrite Hvr; by apply Ht|]. done.
      * intros Hne. apply Hbr. congruence.
    + destruct Hf as [Hsome H0]; [done|]. exists []. split.
      * apply prefix_nil.
      * cbn. lia.
      * cbn. by rewrite app_nil_r, He.
      * done.
      * done.
Qed.

Lemma walk_loop_counts walk : ∀ w,
  ∃ visited, counts (entries walk) visited w (walk_loop walk w).
Proof.
  induction walk as [|[[r dirs] files] walk IH]; intros w.
  - exists []. split; cbn; rewrite ?app_nil_r; (done || lia).
  - cbn [walk_loop entries flat_map].
    destruct (search_read_running w) as (Hc & He & Ht & Hf).
    destruct (read_running w) as [[] w1]; cbn [fst snd] in *.
    + destruct (scan_names_counts r (dirs ++ files) w1) as [v1 [Hp1 Hc1 Hpr1 Hall1 Hbr1]].
      destruct (IH (scan_names r (dirs ++ files) w1)) as [v2 [Hp2 Hc2 Hpr2 Hall2 Hbr2]].
      destruct (decide (v1 = map (pair r) (dirs ++ files))) as [Heq|Hne].
      * exists (v1 ++ v2). split.
        -- rewrite Heq. by apply prefix_app.
        -- rewrite Hc2, Hc1, Hc, length_app. lia.
        -- rewrite Hpr2, Hpr1, Hc1, He, Hc, every_500_app, <- app_assoc. done.
        -- intros Hw. destruct Hall1 as [_ Hn1]; [by apply Ht|].
           destruct Hall2 as [-> Hn2]; [done|]. by rewrite Heq.
        -- intros Hne. apply Hbr2. intros ->. by rewrite Heq in Hne.
      * specialize (Hbr1 Hne). exists v1.
        assert (walk_loop walk (scan_names r (dirs ++ files) w1)
                = scan_names r (dirs ++ files) w1) as ->.
        { destruct walk as [|[[r' d'] f'] walk']; [done|].
          cbn [walk_loop]. unfold read_running. by rewrite Hbr1. }
        split.
        -- by apply prefix_app_r.
        -- by rewrite Hc1, Hc.
        -- by rewrite Hpr1, He, Hc.
        -- intros Hw. destruct Hall1 as [Hv _]; [by apply Ht|]. done.
        -- done.
    + destruct Hf as [Hsome H0]; [done|]. exists []. split.
      * apply prefix_nil.
      * cbn. lia.
      * cbn. by rewrite app_nil_r, He.
      * done.
      * done.
Qed.

(** The run counts the names it visits and emits a [progress] signal at
    every five hundredth of them, with the count reached and the directory
    that lists the name; a run that is not cancelled visits all the names
    of the walk. *)
Theorem search_progress_every_500 (walk : list visit) (needle0 : string)
    (stop : option nat) :
  ∃ visited,
    visited `prefix_of` entries walk
    ∧ (stop = None → visited = entries walk)
    ∧ search_progress (emitted (run walk (init needle0 stop))) = every_500 0 visited.
Proof.
  destruct (walk_loop_counts walk (init needle0 stop)) as [visited [Hp _ Hpr Hall _]].
  exists visited. split; [done|]. split.
  - intros ->. by destruct Hall as [-> _].
  - unfold run, emit. cbn [emitted]. rewrite search_progress_app, Hpr. cbn.
    by rewrite app_nil_r.
Qed.

End search_progress_signal.
(** ** The slots of the search signals *)

Section search_slots.

Import MainWindow.

Lemma find_all_indexes_filter (index_valid : string → bool) (walk : list visit)
    (w : window) (needle0 : string) :
  root_index w ≠ None →
  find_all_indexes walk index_valid w needle0
  = List.filter index_valid
      (SearchWorker.hits (PyStr.lower needle0) (SearchWorker.entries walk)).
Proof.
  intros Hroot. unfold find_all_indexes, SearchWorker.hits.
  destruct (root_index w); [|done].
  induction (SearchWorker.entries walk) as [|[r name] es IH]; [done|].
  cbn [flat_map fst snd]. rewrite List.filter_app, IH. f_equal.
  destruct (PyStr.contains _ _); [|done]. cbn. by destruct (index_valid _).
Qed.

(** The [found] and [progress] signals of a trace add the valid paths to
    the matches and leave the cursor where it is. *)
Lemma deliver_found (index_valid : string → bool) (tr : list SearchWorker.event) : ∀ w,
  SearchWorker.done_payloads tr = [] →
  foldl (deliver_search index_valid) w tr
  = set_matches (matches w ++ List.filter index_valid (SearchWorker.found_paths tr))
                (match_pos w) w.
Proof.
  induction tr as [|e tr IH]; intros w Hd.
  - cbn. rewrite app_nil_r. by destruct w.
  - destruct e as [p|c r|l]; cbn in Hd; [| |done]; cbn [foldl deliver_search].
    + rewrite IH by done. unfold _on_search_found. cbn [SearchWorker.found_paths flat_map app].
      cbn [List.filter]. destruct (index_valid p); [|done].
      unfold set_matches. cbn. by rewrite <- app_assoc.
    + by rewrite IH.
Qed.

(** A search that [find_next] starts and that runs to its end leaves in
    [matches] the paths that [find_all_indexes] computes for the same
    needle: the reported paths whose model index is valid, in the order of
    the walk. The cursor is on the first of them, unless nothing was
    reported; then it stays at -1. *)
Theorem threaded_search_fills_matches (index_valid : string → bool)
    (walk : list visit) (w0 w : window) (acts : list action) (root needle0 : string) :
  find_next w0 = Some (w, acts) → StartSearch root needle0 ∈ acts →
  let results := SearchWorker.hits (PyStr.lower needle0) (SearchWorker.entries walk) in
  let w' := foldl (deliver_search index_valid) w
              (SearchWorker.emitted (SearchWorker.run walk (SearchWorker.init needle0 None))) in
  needle0 = PyStr.strip (search_text w0)
  ∧ matches w' = find_all_indexes walk index_valid w0 needle0
  ∧ matches w' = List.filter index_valid results
  ∧ match_pos w' = (if bool_decide (results = []) then -1 else 0)%Z.
Proof.
  intros Hfn Hact results w'.
  assert (needle0 = PyStr.strip (search_text w0) ∧ root_index w0 ≠ None
          ∧ w = set_matches [] (-1) w0) as (Hneedle & Hroot & Hw).
  { unfold find_next in Hfn. destruct (decide _) as [|Hne].
    { injection Hfn as <- <-. by apply elem_of_nil in Hact. }
    destruct (negb (bool_decide (matches w0 = []))) eqn:Hm.
    { unfold move_cursor in Hfn.
      destruct (py_mod _ _) as [pos|]; [|done]. cbn in Hfn.
      destruct (py_index _ _) as [idx|]; [|done]. cbn in Hfn.
      injection Hfn as <- <-. apply elem_of_cons in Hact as [Hact|Hact]; [done|].
      by apply elem_of_nil in Hact. }
    destruct (root_index w0) as [root_path|].
    2:{ injection Hfn as <- <-. apply elem_of_cons in Hact as [Hact|Hact]; [done|].
        by apply elem_of_nil in Hact. }
    destruct (root_isdir w0); cbn [negb] in Hfn.
    2:{ injection Hfn as <- <-. by apply elem_of_nil in Hact. }
    injection Hfn as <- <-. split; [|done].
    apply elem_of_app in Hact as [Hact|Hact].
    - destruct (search_running w0); [|by apply elem_of_nil in Hact].
      apply elem_of_cons in Hact as [Hact|Hact]; [done|]. by apply elem_of_nil in Hact.
    - apply elem_of_cons in Hact as [Hact|Hact]; [|by apply elem_of_nil in Hact].
      by injection Hact. }
  split; [done|].
  rewrite find_all_indexes_filter by done. fold results.
  assert (matches w = [] ∧ match_pos w = (-1)%Z) as [Hm Hp] by (subst w; split; reflexivity).
  destruct (walk_loop_spec walk (SearchWorker.init needle0 None))
    as [visited [_ _ Hres Hf Hd Hall _]].
  destruct Hall as [-> _]; [done|]. cbn in Hres, Hf.
  subst w'. unfold SearchWorker.run, SearchWorker.emit. cbn [SearchWorker.emitted].
  set (tr := SearchWorker.emitted (SearchWorker.walk_loop walk (SearchWorker.init needle0 None)))
    in *.
  rewrite foldl_app, (deliver_found index_valid tr) by (rewrite Hd; reflexivity).
  cbn [foldl deliver_search].
  rewrite Hres, Hf, Hm, Hp. fold results. cbn [app].
  unfold _on_search_done. destruct results as [|p rs] eqn:Hr; [done|].
  rewrite bool_decide_eq_false_2 by done.
  cbn [set_matches matches]. by destruct (py_index _ 0).
Qed.

Lemma threaded_search_fills_matches_witness :
  let w0 := {| search_text := " LOG "; matches := []; match_pos := 0;
               root_index := Some "/r"; root_isdir := true; search_running := true |} in
  let walk := [("/r", ["logs"], ["app.log"; "readme.md"]); ("/r/logs", [], ["old.LOG"])] in
  let valid := fun p : string => negb (bool_decide (p = "/r/app.log")) in
  let w' := foldl (deliver_search valid) (set_matches [] (-1) w0)
              (SearchWorker.emitted (SearchWorker.run walk (SearchWorker.init "LOG" None))) in
  matches w' = ["/r/logs"; "/r/logs/old.LOG"] ∧ match_pos w' = 0%Z.
Proof.
  intros w0 walk valid w'.
  destruct (threaded_search_fills_matches valid walk w0 (set_matches [] (-1) w0)
              [StopSearch; StartSearch "/r" "LOG"] "/r" "LOG")
    as (_ & _ & Hm & Hp).
  - reflexivity.
  - apply elem_of_cons. right. apply elem_of_cons. by left.
  - split; [exact Hm|exact Hp].
Defined.

(** [_on_search_done] is left by an [IndexError] exactly when results were
    reported and none of them has a valid model index; [matches] is empty
    then and the cursor is at 0. *)
Theorem search_done_raises_iff_no_valid_result
    (index_valid : string → bool) (results : list string) (w : window) :
  ((_on_search_done index_valid results w).2 = None
   ↔ results ≠ [] ∧ Forall (fun r => index_valid r = false) results)
  ∧ ((_on_search_done index_valid results w).2 = None →
     matches (_on_search_done index_valid results w).1 = []
     ∧ match_pos (_on_search_done index_valid results w).1 = 0%Z).
Proof.
  unfold _on_search_done.
  destruct results as [|p rs]; [split; [split|]; [done|by intros [? _]|done]|].
  cbn [set_matches matches]. unfold py_index. cbn [Z.leb Z.to_nat].
  destruct (List.filter index_valid (p :: rs)) as [|q qs] eqn:Hf; cbn [lookup list_lookup fst snd].
  - split; [|done]. split; [|done]. intros _. split; [done|].
    apply Forall_forall. intros r Hr. destruct (index_valid r) eqn:Hv; [|done].
    assert (In r (List.filter index_valid (p :: rs))) as Hin.
    { apply List.filter_In. split; [by apply list_elem_of_In|done]. }
    rewrite Hf in Hin. done.
  - split; [|done]. split; [done|]. intros [_ Hall].
    assert (In q (List.filter index_valid (p :: rs))) as Hin by (rewrite Hf; by left).
    apply List.filter_In in Hin as [Hin Hv]. apply list_elem_of_In in Hin.
    rewrite Forall_forall in Hall. rewrite (Hall q Hin) in Hv. done.
Qed.

(** The first [find_prev] after a needle is entered searches at once and
    shows the last of the matches it finds. *)
Theorem find_prev_first_request_shows_last_match (index_valid : string → bool)
    (walk : list visit) (w : window) (found : list string) (last : string) :
  PyStr.strip (search_text w) ≠ EmptyString → matches w = [] →
  find_all_indexes walk index_valid w (PyStr.strip (search_text w)) = found ++ [last] →
  find_prev walk index_valid w
  = Some (set_matches (found ++ [last]) (Z.of_nat (length found)) w, [ShowMatch last]).
Proof.
  intros Hneedle Hm Hfound. unfold find_prev.
  rewrite decide_False by done. rewrite (bool_decide_eq_true_2 (matches w = [])) by done.
  rewrite Hfound. set (w1 := set_matches (found ++ [last]) 0 w).
  assert (matches w1 ≠ []) as Hne by (cbn; by destruct found).
  rewrite bool_decide_eq_false_2 by done.
  destruct (move_cursor_wraps (-1) w1 Hne) as (Hrange & idx & Hidx & ->).
  cbn [matches match_pos w1 set_matches] in *. rewrite length_app in *. cbn [length] in *.
  assert (((0 + -1) mod Z.of_nat (length found + 1))%Z = Z.of_nat (length found)) as Hpos.
  { replace (0 + -1)%Z with (Z.of_nat (length found) + (-1) * Z.of_nat (length found + 1))%Z
      by lia.
    rewrite Z_mod_plus_full. apply Z.mod_small. lia. }
  rewrite Hpos in *. rewrite Nat2Z.id in Hidx.
  rewrite lookup_app_r, Nat.sub_diag in Hidx by done. injection Hidx as <-. done.
Qed.

Lemma find_prev_first_request_shows_last_match_witness :
  let w := {| search_text := "log"; matches := []; match_pos := -1;
              root_index := Some "/r"; root_isdir := true; search_running := false |} in
  find_prev [("/r", [], ["a.log"; "b.txt"; "c.log"])] (fun _ => true) w
  = Some (set_matches ["/r/a.log"; "/r/c.log"] 1 w, [ShowMatch "/r/c.log"]).
Proof.
  intros w.
  apply (find_prev_first_request_shows_last_match (fun _ => true)
           [("/r", [], ["a.log"; "b.txt"; "c.log"])] w ["/r/a.log"] "/r/c.log").
  - discriminate.
  - reflexivity.
  - reflexivity.
Defined.

End search_slots.
(** ** Expand All: valid indexes, and the stop *)

Section expand_all_valid.

Import MainWindow.

Variable valid : string → nat → bool.
Hypothesis all_valid : ∀ f i, valid f i = true.

Lemma expanded_app l1 l2 : expanded (l1 ++ l2) = expanded l1 ++ expanded l2.
Proof. apply flat_map_app. Qed.

(** With valid indexes the loop expands the folders at the head of the
    queue, in order, as far as its budget goes, and requeues nothing. *)
Lemma drain_loop_all_valid b : ∀ x rq,
  expanded (expand_log (drain_loop valid b x rq).1)
  = expanded (expand_log x) ++ take b (_expand_queue x)
  ∧ _expand_queue (drain_loop valid b x rq).1 = drop b (_expand_queue x)
  ∧ (drain_loop valid b x rq).2 = rq
  ∧ _expanding (drain_loop valid b x rq).1 = _expanding x.
Proof.
  induction b as [|b IH]; intros x rq.
  - cbn. by rewrite app_nil_r.
  - cbn [drain_loop]. destruct (_expand_queue x) as [|f rest] eqn:Hq.
    + cbn. by rewrite app_nil_r.
    + rewrite all_valid. unfold process_folder.
      match goal with |- context [drain_loop valid b ?y rq] =>
        destruct (IH y rq) as (H1 & H2 & H3 & H4) end.
      rewrite H1, H2, H3, H4. cbn [expand_log _expand_queue _expanding take drop].
      rewrite !expanded_app. cbn. by rewrite app_nil_r, <- app_assoc.
Qed.

Lemma tick_all_valid env x :
  _expanding x = true →
  expanded (expand_log (_process_expand_queue_step valid env x).1)
  = expanded (expand_log x) ++ take MAX_PER_TICK (_expand_queue x)
  ∧ _expand_queue (_process_expand_queue_step valid env x).1
    = drop MAX_PER_TICK (_expand_queue x) ++ arrivals env
  ∧ (_process_expand_queue_step valid env x).2
    = (if negb (bool_decide (drop MAX_PER_TICK (_expand_queue x) ++ arrivals env = []))
          || thread_running env
       then Rescheduled else Finalized)
  ∧ _expanding (_process_expand_queue_step valid env x).1
    = (negb (bool_decide (drop MAX_PER_TICK (_expand_queue x) ++ arrivals env = []))
       || thread_running env).
Proof.
  intros Hexp. unfold _process_expand_queue_step. rewrite Hexp. cbn [negb].
  destruct (drain_loop_all_valid MAX_PER_TICK x []) as (H1 & H2 & H3 & H4).
  destruct (drain_loop valid MAX_PER_TICK x []) as [x1 rq]. cbn [fst snd] in *. subst rq.
  cbn [set_queue _expand_queue]. rewrite app_nil_r, H2.
  destruct (negb _ || _); cbn [fst snd _finalize_expansion set_queue expand_log
                                 _expand_queue _expanding]; by rewrite ?H1, ?H4.
Qed.

(** With valid indexes a tick of an active drain expands the folders at the
    head of the queue in the order of the queue, at most [MAX_PER_TICK] of
    them; the others stay, in order, before the paths that arrive; the
    drain is finalized when nothing is left and the producer has
    finished. *)
Theorem tick_expands_in_order (env : tick_env) (x : expander) :
  _expanding x = true →
  let r := _process_expand_queue_step valid env x in
  expanded (expand_log r.1) = expanded (expand_log x) ++ take MAX_PER_TICK (_expand_queue x)
  ∧ _expand_queue r.1 = drop MAX_PER_TICK (_expand_queue x) ++ arrivals env
  ∧ (r.2 = Finalized
     ↔ length (_expand_queue x) ≤ MAX_PER_TICK ∧ arrivals env = []
       ∧ thread_running env = false).
Proof.
  intros Hexp r. destruct (tick_all_valid env x Hexp) as (H1 & H2 & H3 & _).
  split; [done|]. split; [done|]. subst r. rewrite H3.
  assert (drop MAX_PER_TICK (_expand_queue x) ++ arrivals env = []
          ↔ length (_expand_queue x) ≤ MAX_PER_TICK ∧ arrivals env = []) as Hnil.
  { rewrite app_nil. split; intros [Hdrop Harr]; (split; [|done]).
    - apply (f_equal length) in Hdrop. rewrite length_drop in Hdrop. cbn in Hdrop. lia.
    - by apply drop_ge. }
  case_bool_decide as Hd; cbn [negb orb].
  - destruct (thread_running env); [|tauto]. split; [done|]. by intros (_ & _ & ?).
  - split; [done|]. intros (? & ? & _). tauto.
Qed.

Variable envs : nat → tick_env.

(** The paths that arrive during the ticks [t], ..., [t + k - 1]. *)
Lemma arrived_succ t k :
  concat (map (arrivals ∘ envs) (seq t (S k)))
  = arrivals (envs t) ++ concat (map (arrivals ∘ envs) (seq (S t) k)).
Proof. done. Qed.

Lemma arrived_quiet t0 k : ∀ t,
  t0 ≤ t → (∀ s, t0 ≤ s → arrivals (envs s) = []) →
  concat (map (arrivals ∘ envs) (seq t k)) = [].
Proof.
  induction k as [|k IH]; intros t Ht Hq; [done|].
  rewrite arrived_succ, IH by (done || lia). rewrite Hq by done. done.
Qed.

Lemma arrived_add t k m :
  concat (map (arrivals ∘ envs) (seq t (k + m)))
  = concat (map (arrivals ∘ envs) (seq t k))
    ++ concat (map (arrivals ∘ envs) (seq (t + k) m)).
Proof. by rewrite seq_app, map_app, concat_app. Qed.

(** With valid indexes the drain is a queue: what it has expanded, followed
    by what it still holds, is what it had expanded and held at the start
    followed by what has arrived, in order. *)
Lemma drain_fifo n : ∀ t x,
  _expanding x = true →
  ∃ k, k ≤ n
    ∧ expanded (expand_log (drain valid envs t n x)) ++ _expand_queue (drain valid envs t n x)
      = expanded (expand_log x) ++ _expand_queue x
        ++ concat (map (arrivals ∘ envs) (seq t k)).
Proof.
  induction n as [|n IH]; intros t x Hexp.
  - exists 0. split; [done|]. cbn. by rewrite app_nil_r.
  - cbn [drain]. destruct (tick_all_valid (envs t) x Hexp) as (H1 & H2 & H3 & H4).
    destruct (_process_expand_queue_step valid (envs t) x) as [x' o]. cbn [fst snd] in *.
    assert (expanded (expand_log x') ++ _expand_queue x'
            = expanded (expand_log x) ++ _expand_queue x ++ arrivals (envs t)) as Hstep.
    { rewrite H1, H2, <- !app_assoc. f_equal. by rewrite !app_assoc, take_drop. }
    destruct (negb _ || _) eqn:Hgo; subst o.
    + destruct (IH (S t) x' H4) as (k & Hk & Hfifo). exists (S k). split; [lia|].
      rewrite Hfifo, arrived_succ, !app_assoc. f_equal. by rewrite <- !app_assoc.
    + exists 1. split; [lia|]. rewrite Hstep. cbn. by rewrite !app_nil_r.
Qed.

(** While the producer runs, the drain goes on. *)
Lemma drain_while_running n : ∀ t x,
  _expanding x = true → (∀ s, t ≤ s < t + n → thread_running (envs s) = true) →
  _expanding (drain valid envs t n x) = true
  ∧ expanded (expand_log (drain valid envs t n x)) ++ _expand_queue (drain valid envs t n x)
    = expanded (expand_log x) ++ _expand_queue x
      ++ concat (map (arrivals ∘ envs) (seq t n)).
Proof.
  induction n as [|n IH]; intros t x Hexp Hrun.
  - cbn. by rewrite app_nil_r.
  - cbn [drain]. destruct (tick_all_valid (envs t) x Hexp) as (H1 & H2 & H3 & H4).
    destruct (_process_expand_queue_step valid (envs t) x) as [x' o]. cbn [fst snd] in *.
    assert (expanded (expand_log x') ++ _expand_queue x'
            = expanded (expand_log x) ++ _expand_queue x ++ arrivals (envs t)) as Hstep.
    { rewrite H1, H2, <- !app_assoc. f_equal. by rewrite !app_assoc, take_drop. }
    rewrite (Hrun t), orb_true_r in H3, H4 by lia. subst o.
    destruct (IH (S t) x' H4) as (Hx & Hfifo); [intros s Hs; apply Hrun; lia|].
    split; [done|].
    rewrite Hfifo, arrived_succ, !app_assoc. f_equal. by rewrite <- !app_assoc.
Qed.

End expand_all_valid.

Lemma tick_expands_in_order_witness :
  let x := {| MainWindow._expand_queue := ["/r/a"; "/r/b"];
              MainWindow._expand_attempts := ∅;
              MainWindow._expanding := true; MainWindow.expand_log := [] |} in
  let env := {| MainWindow.arrivals := ["/r/a/c"]; MainWindow.thread_running := false |} in
  let r := MainWindow._process_expand_queue_step (fun _ _ => true) env x in
  expanded (MainWindow.expand_log r.1) = ["/r/a"; "/r/b"]
  ∧ MainWindow._expand_queue r.1 = ["/r/a/c"].
Proof.
  intros x env r.
  destruct (tick_expands_in_order (fun _ _ => true) (fun _ _ => eq_refl) env x)
    as (H1 & H2 & _).
  - reflexivity.
  - split; [exact H1|exact H2].
Defined.

(** With valid indexes the drain is a queue, whatever arrives and whenever
    it does: at every moment the folders it has expanded, followed by the
    folders it still holds, are those it had expanded and held at the start
    followed by those that arrived during the ticks it has run, all in their
    order of arrival. Nothing is lost, expanded twice or overtaken. *)
Theorem drain_keeps_arrival_order
    (valid : string → nat → bool) (envs : nat → MainWindow.tick_env)
    (x : MainWindow.expander) (n : nat) :
  (∀ f i, valid f i = true) → MainWindow._expanding x = true →
  ∃ k, k ≤ n
    ∧ expanded (MainWindow.expand_log (MainWindow.drain valid envs 0 n x))
        ++ MainWindow._expand_queue (MainWindow.drain valid envs 0 n x)
      = expanded (MainWindow.expand_log x) ++ MainWindow._expand_queue x
        ++ concat (map (MainWindow.arrivals ∘ envs) (seq 0 k)).
Proof. intros Hall Hexp. by apply drain_fifo. Qed.

Lemma drain_keeps_arrival_order_witness :
  let x := {| MainWindow._expand_queue := ["/r/a"];
              MainWindow._expand_attempts := ∅;
              MainWindow._expanding := true; MainWindow.expand_log := [] |} in
  let envs := fun t : nat =>
    {| MainWindow.arrivals := if t =? 0 then ["/r/a/b"] else [];
       MainWindow.thread_running := t =? 0 |} in
  ∃ k, k ≤ 3
    ∧ expanded (MainWindow.expand_log (MainWindow.drain (fun _ _ => true) envs 0 3 x))
        ++ MainWindow._expand_queue (MainWindow.drain (fun _ _ => true) envs 0 3 x)
      = expanded (MainWindow.expand_log x) ++ MainWindow._expand_queue x
        ++ concat (map (MainWindow.arrivals ∘ envs) (seq 0 k)).
Proof.
  intros x envs. apply (drain_keeps_arrival_order (fun _ _ => true) envs x 3).
  - reflexivity.
  - reflexivity.
Defined.

(** Expand All from end to end. The button is pressed on an idle window
    whose root is a plain path to a well-formed tree; the thread is not
    cancelled, its batches arrive during the first [T] ticks, while it is
    running, and every model index is valid. Then the drain comes to an end:
    from some tick on the expansion is finalized, the queue is empty, and
    the folders expanded since the start are the directories that the walk
    lists, in that order: every directory below the root, each once. *)
Theorem expand_all_expands_every_dir
    (valid : string → nat → bool) (envs : nat → MainWindow.tick_env) (T : nat)
    (top : string) (t : Dir) (running : bool) (x0 : MainWindow.expander) :
  plain_path top → wf_dir t →
  (∀ f i, valid f i = true) →
  MainWindow._expanding x0 = false →
  (∀ s, s < T → MainWindow.thread_running (envs s) = true) →
  concat (map (MainWindow.arrivals ∘ envs) (seq 0 T))
  = concat (ExpandAllThread.batches (ExpandAllThread.emitted
      (ExpandAllThread.run (os_walk top t) (ExpandAllThread.init 1000 None)))) →
  (∀ s, T ≤ s → MainWindow.arrivals (envs s) = []
                ∧ MainWindow.thread_running (envs s) = false) →
  let start := expand_all_async (Some top) true running x0 in
  start.2 = [StartThread top 1000; ScheduleTick]
  ∧ ∃ N, ∀ n, N ≤ n →
      let x := MainWindow.drain valid envs 0 n start.1 in
      MainWindow._expanding x = false
      ∧ MainWindow._expand_queue x = []
      ∧ expanded (MainWindow.expand_log x)
        = expanded (MainWindow.expand_log x0)
          ++ ExpandAllThread.paths_of (ExpandAllThread.dir_entries (os_walk top t))
      ∧ expanded (MainWindow.expand_log x)
        ≡ₚ expanded (MainWindow.expand_log x0) ++ dirs_below top t.
Proof.
  intros Htop Hwf Hall Hidle Hrun Harr Hquiet start.
  subst start. unfold expand_all_async. cbn [negb]. rewrite Hidle.
  split; [done|]. cbn [fst].
  set (x1 := {| MainWindow._expand_queue := []; MainWindow._expand_attempts := ∅;
                MainWindow._expanding := true;
                MainWindow.expand_log := MainWindow.expand_log x0 |}).
  destruct (drain_while_running valid Hall envs T 0 x1 eq_refl) as [HexpT HfifoT].
  { intros s Hs. apply Hrun. lia. }
  set (xT := MainWindow.drain valid envs 0 T x1) in *.
  destruct (drain_finishes valid envs T Hquiet (weight xT []) xT T) as [Hq Hx];
    [lia|lia|done|].
  destruct (drain_fifo valid Hall envs (S (weight xT [])) T xT HexpT) as (k & _ & Hfifo).
  rewrite (arrived_quiet envs T k T) in Hfifo by (lia || (intros s Hs; by apply Hquiet)).
  rewrite Hq, !app_nil_r in Hfifo. rewrite HfifoT in Hfifo. cbn [x1 MainWindow.expand_log
    MainWindow._expand_queue app] in Hfifo.
  rewrite Harr, expand_run_sends_all in Hfifo.
  exists (T + S (weight xT [])). intros n Hn.
  assert (MainWindow.drain valid envs 0 n x1
          = MainWindow.drain valid envs T (S (weight xT [])) xT) as ->.
  { replace n with (T + (S (weight xT []) + (n - T - S (weight xT [])))) by lia.
    rewrite drain_add. fold xT. change (0 + T) with T. rewrite drain_add.
    by rewrite drain_stopped. }
  split; [done|]. split; [done|]. split; [done|].
  rewrite Hfifo. apply Permutation_app_head.
  by rewrite walk_lists_dirs_below.
Qed.

Lemma expand_all_expands_every_dir_witness :
  let envs := fun s : nat =>
    {| MainWindow.arrivals := if s =? 0 then ["/r/a"; "/r/a/b"] else [];
       MainWindow.thread_running := s =? 0 |} in
  let x0 := {| MainWindow._expand_queue := []; MainWindow._expand_attempts := ∅;
               MainWindow._expanding := false; MainWindow.expand_log := [] |} in
  ∃ N, ∀ n, N ≤ n →
    let x := MainWindow.drain (fun _ _ => true) envs 0 n
               (expand_all_async (Some "/r") true false x0).1 in
    MainWindow._expanding x = false
    ∧ MainWindow._expand_queue x = []
    ∧ expanded (MainWindow.expand_log x) = ["/r/a"; "/r/a/b"].
Proof.
  intros envs x0.
  destruct (expand_all_expands_every_dir (fun _ _ => true) envs 1 "/r" scenario_tree
              false x0) as [_ [N HN]].
  - split; [discriminate|reflexivity].
  - cbn. repeat split; try discriminate;
      repeat (apply NoDup_cons; split; [apply not_elem_of_nil|]); apply NoDup_nil_2.
  - reflexivity.
  - reflexivity.
  - intros s Hs. destruct s; [reflexivity|lia].
  - reflexivity.
  - intros s Hs. destruct s; [lia|]. split; reflexivity.
  - exists N. intros n Hn. destruct (HN n Hn) as (H1 & H2 & H3 & _).
    split; [exact H1|]. split; [exact H2|exact H3].
Defined.

(** The stop. When the button is pressed during an expansion and the root
    of the view is valid and a directory, the thread is told to stop if it
    is running, the queue and the retry counters are cleared, and from then
    on nothing is expanded: whatever batches still arrive and whatever ticks
    still fire, the model is not asked for an index and no folder is
    expanded. When the view has no valid root, or its root is not a
    directory, the button only warns: nothing is stopped and the expansion
    goes on as it was. *)
Theorem stopped_expansion_expands_nothing
    (valid : string → nat → bool) (root_index : option string)
    (root_isdir running : bool)
    (x : MainWindow.expander) (ins : list expand_input) :
  MainWindow._expanding x = true →
  let press := expand_all_async root_index root_isdir running x in
  match root_index with
  | None => press = (x, [WarnNoExpandRoot])
  | Some root =>
      if root_isdir
      then press.2 = (if running then [StopThread] else [])
           ∧ MainWindow._expand_queue press.1 = []
           ∧ MainWindow._expand_attempts press.1 = ∅
           ∧ MainWindow.expand_log (foldl (deliver_expand valid) press.1 ins)
             = MainWindow.expand_log x
           ∧ MainWindow._expanding (foldl (deliver_expand valid) press.1 ins) = false
      else press = (x, [WarnInvalidRoot])
  end.
Proof.
  intros Hexp press. subst press. unfold expand_all_async.
  destruct root_index as [root|]; [|done].
  destruct root_isdir; cbn [negb]; [|done].
  rewrite Hexp. split; [done|]. cbn [fst].
  set (x1 := {| MainWindow._expand_queue := []; MainWindow._expand_attempts := ∅;
                MainWindow._expanding := false;
                MainWindow.expand_log := MainWindow.expand_log x |}).
  split; [done|]. split; [done|].
  assert (∀ y, MainWindow._expanding y = false →
               MainWindow.expand_log (foldl (deliver_expand valid) y ins)
               = MainWindow.expand_log y
               ∧ MainWindow._expanding (foldl (deliver_expand valid) y ins) = false) as Hins.
  { induction ins as [|i ins IH]; intros y Hy; [done|].
    cbn [foldl]. destruct i as [b|env]; cbn [deliver_expand].
    - destruct (IH (on_expand_batch_received b y)) as [H1 H2]; [done|]. by rewrite H1, H2.
    - unfold MainWindow._process_expand_queue_step. rewrite Hy. cbn [negb fst]. by apply IH. }
  by apply (Hins x1).
Qed.

Lemma stopped_expansion_expands_nothing_witness :
  let x := {| MainWindow._expand_queue := ["/r/a"; "/r/b"];
              MainWindow._expand_attempts := ∅;
              MainWindow._expanding := true;
              MainWindow.expand_log := [MainWindow.IndexCall "/r"; MainWindow.Expand "/r"] |} in
  let ins := [BatchReceived ["/r/c"];
              TimerTick {| MainWindow.arrivals := ["/r/d"];
                           MainWindow.thread_running := true |}] in
  MainWindow.expand_log
    (foldl (deliver_expand (fun _ _ => true))
       (expand_all_async (Some "/r") true true x).1 ins)
  = [MainWindow.IndexCall "/r"; MainWindow.Expand "/r"].
Proof.
  intros x ins.
  destruct (stopped_expansion_expands_nothing (fun _ _ => true) (Some "/r") true true x ins)
    as (_ & _ & _ & Hlog & _).
  - reflexivity.
  - exact Hlog.
Defined.

(** ** Renaming an item *)

Section renaming.

Import OsPath.

Local Arguments String.append !_ _ / : simpl nomatch.
Local Arguments ascii_dec : simpl never.

Lemma basename_no_sep n : PyStr.count sep n = 0 → basename n = n.
Proof.
  destruct n as [|c n]; [done|]. cbn. destruct (ascii_dec c sep); [done|].
  cbn. intros ->. done.
Qed.

Lemma basename_app_sep d n :
  PyStr.count sep n = 0 → basename (d +:+ String sep n) = n.
Proof.
  intros Hn. induction d as [|a d IH]; cbn.
  - rewrite Hn. cbn. by destruct (ascii_dec sep sep).
  - rewrite count_app. cbn. destruct (ascii_dec sep sep); [|done].
    rewrite IH. by destruct (PyStr.count sep d + _) eqn:?; [lia|].
Qed.

(** What [rstrip] leaves does not end with a separator. *)
Lemma rstrip_sep_endswith s :
  rstrip_sep s ≠ EmptyString → PyStr.endswith sep (rstrip_sep s) = false.
Proof.
  induction s as [|c s IH]; [done|]. cbn.
  destruct (rstrip_sep s) as [|b r] eqn:Hr.
  - destruct (ascii_dec c sep) as [|Hc]; [done|]. intros _. cbn.
    by destruct (ascii_dec c sep).
  - intros _. cbn. apply IH. done.
Qed.

Lemma head_cons c r :
  head (String c r)
  = if 0 <? PyStr.count sep r then String c (head r)
    else if ascii_dec c sep then String c EmptyString else EmptyString.
Proof. done. Qed.

Lemma basename_cons c r :
  basename (String c r)
  = if 0 <? PyStr.count sep r then basename r
    else if ascii_dec c sep then r else String c r.
Proof. done. Qed.

(** A path that [rstrip] empties consists of separators: a name appended
    to it is its base name, and the path itself the head. *)
Lemma all_sep_app s n :
  rstrip_sep s = EmptyString → PyStr.count sep n = 0 →
  head (s +:+ n) = s ∧ basename (s +:+ n) = n
  ∧ (s ≠ EmptyString → PyStr.endswith sep s = true).
Proof.
  intros Hs Hn. induction s as [|c s IH].
  - cbn. rewrite head_no_sep, basename_no_sep by done. done.
  - cbn in Hs. destruct (rstrip_sep s) as [|b r] eqn:Hr; [|done].
    destruct (ascii_dec c sep) as [->|]; [|done].
    destruct (IH eq_refl) as (IH1 & IH2 & IH3).
    change (String sep s +:+ n) with (String sep (s +:+ n)).
    rewrite head_cons, basename_cons, IH1, IH2.
    destruct s as [|a s].
    + cbn. rewrite Hn. cbn. by destruct (ascii_dec sep sep).
    + assert (0 < PyStr.count sep (String a s +:+ n)) as Hpos.
      { rewrite count_app. cbn in Hr. destruct (rstrip_sep s); [|done].
        cbn. destruct (ascii_dec a sep); [lia|done]. }
      destruct (PyStr.count sep (String a s +:+ n)); [lia|].
      split; [done|]. split; [done|]. intros _. by apply IH3.
Qed.

(** A valid name put in the directory of a path: the result lies in that
    directory and bears that name. *)
Lemma join_dirname p n :
  valid_name n →
  dirname (join (dirname p) n) = dirname p ∧ basename (join (dirname p) n) = n.
Proof.
  intros Hn. pose proof Hn as [Hne Hc].
  destruct (rstrip_sep (head p)) as [|c r] eqn:Hr.
  - assert (dirname p = head p) as -> by (unfold dirname; by rewrite Hr).
    destruct (all_sep_app (head p) n Hr Hc) as (H1 & H2 & H3).
    assert (join (head p) n = head p +:+ n) as ->.
    { unfold join. rewrite valid_name_startswith by done.
      destruct (string_dec (head p) EmptyString) as [->|Hh]; [done|].
      by rewrite H3. }
    split; [|done]. unfold dirname. by rewrite H1, Hr.
  - assert (dirname p = String c r) as -> by (unfold dirname; by rewrite Hr).
    assert (plain_path (String c r)) as Hplain.
    { split; [done|]. rewrite <- Hr. apply rstrip_sep_endswith. by rewrite Hr. }
    split; [by apply dirname_join|].
    rewrite join_plain by done. by apply basename_app_sep.
Qed.

(** A rename to a valid name that is not the old one renames the item
    within its directory: the new path has the directory of the old path
    and the new name. *)
Theorem rename_keeps_directory (path new : string) :
  valid_name new → new ≠ basename path →
  ∃ newpath, rename_item path (new, true) = Some (path, newpath)
             ∧ dirname newpath = dirname path ∧ basename newpath = new.
Proof.
  intros Hn Hold. exists (join (dirname path) new). split.
  - unfold rename_item. cbn [negb orb].
    rewrite !bool_decide_eq_false_2 by (done || apply Hn). done.
  - by apply join_dirname.
Qed.

Lemma rename_keeps_directory_witness :
  ∃ newpath, rename_item "/r/a/old.txt" ("new.txt", true) = Some ("/r/a/old.txt", newpath)
             ∧ dirname newpath = "/r/a" ∧ basename newpath = "new.txt".
Proof.
  apply (rename_keeps_directory "/r/a/old.txt" "new.txt").
  - split; [discriminate|reflexivity].
  - discriminate.
Defined.

Lemma basename_count p : PyStr.count sep (basename p) = 0.
Proof.
  induction p as [|c p IH]; [done|]. cbn.
  destruct (PyStr.count sep p) as [|k] eqn:Hp; cbn; [|done].
  destruct (ascii_dec c sep) as [|Hc]; [done|]. cbn.
  destruct (ascii_dec c sep); [done|]. by rewrite Hp.
Qed.

(** The new name is not checked. A name that begins with a separator is
    taken as the new path itself: the item is moved there, out of its
    directory. *)
Theorem rename_to_absolute_name_moves_item (path new : string) :
  PyStr.startswith new (String sep EmptyString) = true →
  rename_item path (new, true) = Some (path, new).
Proof.
  intros Hs. unfold rename_item. cbn [negb orb].
  assert (new ≠ EmptyString) as Hne by (intros ->; done).
  assert (0 < PyStr.count sep new) as Hc.
  { destruct new as [|c new]; [done|]. cbn in *.
    destruct (ascii_dec sep c) as [<-|]; [|done].
    destruct (ascii_dec sep sep); [lia|done]. }
  rewrite !bool_decide_eq_false_2; [|intros ->; rewrite basename_count in Hc; lia|done].
  cbn [orb]. unfold join. by rewrite Hs.
Qed.

Lemma rename_to_absolute_name_moves_item_witness :
  rename_item "/r/a/old.txt" ("/tmp/x", true) = Some ("/r/a/old.txt", "/tmp/x").
Proof. apply (rename_to_absolute_name_moves_item "/r/a/old.txt" "/tmp/x"). reflexivity. Defined.

End renaming.
(** ** The name of a pasted copy *)

Section suffix_name.

Variable splitext : string → string * string.
Variable exists_ : string → bool.
Variable dest_path name : string.

Lemma suffix_loop_first_free base ext k : ∀ fuel i,
  i ≤ k → exists_ (suffix_candidate dest_path base ext k) = false →
  (∀ j, i ≤ j < k → exists_ (suffix_candidate dest_path base ext j) = true) →
  k - i < fuel →
  suffix_loop exists_ dest_path base ext fuel i
  = Some (suffix_candidate dest_path base ext k).
Proof.
  induction fuel as [|fuel IH]; intros i Hik Hfree Hbusy Hfuel; [lia|].
  cbn [suffix_loop]. destruct (decide (i = k)) as [->|Hne].
  - by rewrite Hfree.
  - rewrite Hbusy by lia. cbn [negb]. apply IH; [lia|done| |lia].
    intros j Hj. apply Hbusy. lia.
Qed.

Lemma suffix_loop_Some base ext target : ∀ fuel i,
  suffix_loop exists_ dest_path base ext fuel i = Some target →
  ∃ k, i ≤ k < i + fuel ∧ target = suffix_candidate dest_path base ext k
       ∧ exists_ target = false
       ∧ ∀ j, i ≤ j < k → exists_ (suffix_candidate dest_path base ext j) = true.
Proof.
  induction fuel as [|fuel IH]; intros i Hl; [done|].
  cbn [suffix_loop] in Hl.
  destruct (exists_ (suffix_candidate dest_path base ext i)) eqn:He; cbn [negb] in Hl.
  - destruct (IH (S i) Hl) as (k & Hk & Ht & Hf & Hb). exists k.
    split; [lia|]. split; [done|]. split; [done|].
    intros j Hj. destruct (decide (j = i)) as [->|]; [done|]. apply Hb. lia.
  - injection Hl as <-. exists i. split; [lia|]. split; [done|]. split; [done|].
    intros j Hj. lia.
Qed.

(** [make_suffix_name] returns the first of the candidates [base_1ext],
    [base_2ext], ... in the destination that does not exist. Whatever it
    returns does not exist and every candidate before it does; and when
    the candidate number [k] is the first that does not exist, the loop
    returns it once it may test [k] candidates. *)
Theorem make_suffix_name_first_free (fuel : nat) :
  let candidate := suffix_candidate dest_path (splitext name).1 (splitext name).2 in
  (∀ target,
     make_suffix_name splitext exists_ dest_path name fuel = Some target →
     exists_ target = false
     ∧ ∃ k, 1 ≤ k ∧ target = candidate k ∧ ∀ j, 1 ≤ j < k → exists_ (candidate j) = true)
  ∧ (∀ k,
       1 ≤ k ≤ fuel → exists_ (candidate k) = false →
       (∀ j, 1 ≤ j < k → exists_ (candidate j) = true) →
       make_suffix_name splitext exists_ dest_path name fuel = Some (candidate k)).
Proof.
  intros candidate. subst candidate. unfold make_suffix_name.
  destruct (splitext name) as [base ext]. cbn [fst snd]. split.
  - intros target Hl.
    destruct (suffix_loop_Some base ext target fuel 1 Hl) as (k & Hk & Ht & Hf & Hb).
    split; [done|]. exists k. split; [lia|]. done.
  - intros k Hk Hfree Hbusy. apply suffix_loop_first_free; (done || lia).
Qed.

End suffix_name.
(** ** The expand-all drain: no end before the work is done *)

Section drain_until_done.

Import MainWindow.

Variable valid : string → nat → bool.





Variable envs : nat → tick_env.





End drain_until_done.

(** ** The search test on Unicode names *)

Section unicode_search.

Import PyUnicode.

(** *** Below 256 the two models of [str.lower] agree *)

Lemma N_of_ascii_eqb (a b : ascii) :
  (N_of_ascii a =? N_of_ascii b)%N = if ascii_dec a b then true else false.
Proof.
  destruct (ascii_dec a b) as [->|Hne]; [apply N.eqb_refl|].
  apply N.eqb_neq. intros Heq. apply Hne.
  by rewrite <- (ascii_N_embedding a), <- (ascii_N_embedding b), Heq.
Qed.

Lemma startswith_of_string (p : string) : ∀ s,
  startswith (of_string s) (of_string p) = PyStr.startswith s p.
Proof.
  induction p as [|a p IH]; intros [|b s]; cbn [of_string startswith PyStr.startswith];
    try done.
  rewrite N_of_ascii_eqb, IH. by destruct (ascii_dec a b).
Qed.

Lemma contains_of_string (needle : string) : ∀ hay,
  contains (of_string hay) (of_string needle) = PyStr.contains hay needle.
Proof.
  induction hay as [|c hay IH].
  - apply (startswith_of_string needle EmptyString).
  - cbn [of_string contains PyStr.contains]. rewrite <- IH. f_equal.
    apply (startswith_of_string needle (String c hay)).
Qed.

Lemma lower_from_of_string (db : case_db) (s : string) : ∀ before,
  agrees_below_256 db →
  lower_from db before (of_string s) = of_string (PyStr.lower s).
Proof.
  induction s as [|c s IH]; intros before Hdb; [done|].
  cbn [of_string lower_from PyStr.lower].
  assert ((N_of_ascii c =? CAPITAL_SIGMA)%N = false) as ->.
  { apply N.eqb_neq. pose proof (N_ascii_bounded c). unfold CAPITAL_SIGMA. lia. }
  by rewrite Hdb, IH.
Qed.

(** On strings of code points below 256, [str.lower] in full is the
    character-wise [PyStr.lower], and the test of the search in full is the
    test of the worker above. *)
Lemma search_matches_of_string (db : case_db) (needle name : string) :
  agrees_below_256 db →
  lower db (of_string name) = of_string (PyStr.lower name)
  ∧ search_matches db (of_string needle) (of_string name)
    = PyStr.contains (PyStr.lower name) (PyStr.lower needle).
Proof.
  intros Hdb. unfold search_matches, lower.
  rewrite !lower_from_of_string by done. split; [done|]. apply contains_of_string.
Qed.

(** *** Beyond 256 the test is not case-insensitive containment *)

(** C6 fails on the code for a needle and a name with a capital sigma. The
    needle [Σ] (U+03A3) is part of the name [ΑΣ] (U+0391 U+03A3) as it
    stands, so it is contained in it under every comparison. The code
    lowers the name to [ας], with the final sigma U+03C2, since the sigma
    ends a word, and the needle to [σ] (U+03C3), since there it does not;
    the lowered needle is not in the lowered name and the name is not
    reported. The database enters through three facts about the capital
    alpha: it is a cased letter, it is not case-ignorable, and its lower
    case is U+03B1. *)
Theorem capital_sigma_needle_is_not_found (db : case_db) :
  to_lower_full db 913 = [945%N] → is_cased db 913 = true →
  is_case_ignorable db 913 = false →
  let needle := [931%N] in
  let name := [913%N; 931%N] in
  name = [913%N] ++ needle
  ∧ lower db name = [945%N; 962%N]
  ∧ lower db needle = [963%N]
  ∧ search_matches db needle name = false.
Proof.
  intros Hlow Hcased Hign needle name.
  assert (lower db name = [945%N; 962%N]) as Hname.
  { unfold lower, name. cbn [lower_from N.eqb CAPITAL_SIGMA Pos.eqb app].
    rewrite Hlow. unfold lower_sigma. cbn [skip_ignorable].
    by rewrite Hign, Hcased. }
  assert (lower db needle = [963%N]) as Hneedle by done.
  split; [done|]. split; [done|]. split; [done|].
  unfold search_matches. by rewrite Hname, Hneedle.
Qed.

End unicode_search.

Lemma capital_sigma_needle_is_not_found_witness :
  let db := {| PyUnicode.to_lower_full := fun c => if (c =? 913)%N then [945%N] else [c];
               PyUnicode.is_cased := fun c => (c =? 913)%N;
               PyUnicode.is_case_ignorable := fun _ => false |} in
  PyUnicode.search_matches db [931%N] [913%N; 931%N] = false.
Proof.
  intros db.
  destruct (capital_sigma_needle_is_not_found db) as (_ & _ & _ & Hmiss);
    [reflexivity..|exact Hmiss].
Defined.

(** *** Below 256 the test is case-insensitive containment *)

(** The matching rule on names and needles of code points below 256. On
    such strings the test of the search in full, for every character
    database that lowers these code points as Unicode does, is the test of
    the worker, and it holds of a name exactly when the needle is a
    substring of the name under case-insensitive comparison; a run that is
    not cancelled emits, as [found] signals, the full paths of the names
    that pass the test, in the order in which the walk lists them: a path is
    reported exactly when it is that of a visited name of which the needle
    is such a substring; a cancelled run reports those of a prefix of that
    order; the needle [LOG] matches the name [app.log]. *)
Theorem search_reports_ci_substrings_in_order
    (walk : list visit) (needle0 : string) (stop : option nat) :
  (∀ db name,
     PyUnicode.agrees_below_256 db →
     PyUnicode.search_matches db (PyUnicode.of_string needle0) (PyUnicode.of_string name)
     = SearchWorker.matches (SearchWorker.init needle0 stop) name)
  ∧ (∀ name, SearchWorker.matches (SearchWorker.init needle0 stop) name = true
             ↔ Spec.ci_substring needle0 name)
  ∧ SearchWorker.found_paths
      (SearchWorker.emitted (SearchWorker.run walk (SearchWorker.init needle0 None)))
    = SearchWorker.hits (PyStr.lower needle0) (SearchWorker.entries walk)
  ∧ (∀ full,
       full ∈ SearchWorker.found_paths
                (SearchWorker.emitted (SearchWorker.run walk (SearchWorker.init needle0 None)))
       ↔ ∃ r name, (r, name) ∈ SearchWorker.entries walk ∧ Spec.ci_substring needle0 name
                   ∧ full = OsPath.join r name)
  ∧ (∃ visited, visited `prefix_of` SearchWorker.entries walk
       ∧ SearchWorker.found_paths
           (SearchWorker.emitted (SearchWorker.run walk (SearchWorker.init needle0 stop)))
         = SearchWorker.hits (PyStr.lower needle0) visited)
  ∧ Spec.ci_substring "LOG" "app.log"
  ∧ SearchWorker.found_paths
      (SearchWorker.emitted
         (SearchWorker.run [("/r", [], ["app.log"])] (SearchWorker.init "LOG" None)))
    = ["/r/app.log"].
Proof.
  assert (SearchWorker.found_paths
            (SearchWorker.emitted (SearchWorker.run walk (SearchWorker.init needle0 None)))
          = SearchWorker.hits (PyStr.lower needle0) (SearchWorker.entries walk)) as Hall.
  { destruct (walk_loop_spec walk (SearchWorker.init needle0 None))
      as [visited [_ _ _ Hf _ Hall _]].
    destruct Hall as [-> _]; [done|].
    unfold SearchWorker.run, SearchWorker.emit. cbn [SearchWorker.emitted].
    rewrite found_paths_app, Hf. cbn. by rewrite app_nil_r. }
  split; [|split; [|split; [|split; [|split; [|split]]]]].
  - intros db name Hdb.
    by destruct (search_matches_of_string db needle0 name Hdb) as [_ ->].
  - intros name. apply contains_lower_ci_substring.
  - exact Hall.
  - intros full. rewrite Hall. apply elem_of_hits.
  - destruct (walk_loop_spec walk (SearchWorker.init needle0 stop))
      as [visited [Hp _ _ Hf _ _ _]].
    exists visited. split; [done|].
    unfold SearchWorker.run, SearchWorker.emit. cbn [SearchWorker.emitted].
    rewrite found_paths_app, Hf. cbn. by rewrite app_nil_r.
  - apply contains_lower_ci_substring. reflexivity.
  - reflexivity.
Qed.
